(** * pymeleon: the rewrite-rule engine of [language/rule.py]

    A shallow embedding of class [Rule]: the correspondence builder
    [_create_node_dict] and the rewriting method [apply] with its helpers,
    over a model of the ordered rooted graphs (networkx [DiGraph]) the
    engine works on. *)

From Stdlib Require Import List ZArith Ascii String Bool Arith Lia.
Import ListNotations.


(** ** Exceptions and results *)

(** The exception kinds the modelled code can raise.  [BadGraph] is the class
    declared in rule.py; the others come from the Python runtime and from
    networkx. *)
Inductive exn : Type :=
| BadGraph
| KeyError
| TypeError
| AttributeError
| NetworkXError
| RecursionError.

Inductive result (A : Type) : Type :=
| Ok (a : A)
| Raise (e : exn).

Arguments Ok {A} a.
Arguments Raise {A} e.

Definition rbind {A B} (r : result A) (f : A -> result B) : result B :=
  match r with
  | Ok a => f a
  | Raise e => Raise e
  end.

Declare Scope result_scope.
Delimit Scope result_scope with result.
Notation "x <~ r ;; k" := (rbind r (fun x => k))
  (at level 61, r at next level, right associativity) : result_scope.
Notation "' p <~ r ;; k" := (rbind r (fun p => k))
  (at level 61, p pattern, r at next level, right associativity) : result_scope.

(** ** Nodes *)

(** Modelled from the spec: class [Node] of language.parser, which is not
    part of the sources at hand.  A node carries a symbolic payload [value]
    and is compared by allocation identity; [id] is that identity.  Distinct
    allocations never share an [id], so structural equality on [Node id value]
    is identity on every heap the program can build.  The string "root_node"
    is the sentinel; it has no [value] attribute. *)
Inductive vertex : Type :=
| root_node
| Node (id : nat) (value : string).

Class EqDec (A : Type) := eq_dec : forall x y : A, {x = y} + {x <> y}.

#[export] Instance string_EqDec : EqDec string := string_dec.

#[export] Instance vertex_EqDec : EqDec vertex.
Proof.
  intros x y. unfold EqDec in *.
  decide equality; [apply string_dec | apply Nat.eq_dec].
Defined.

#[export] Instance Z_EqDec : EqDec Z := Z.eq_dec.

Definition eqb {A} `{EqDec A} (x y : A) : bool :=
  if eq_dec x y then true else false.

(** [node.value]: an attribute read, which fails on the sentinel string. *)
Definition node_value (n : vertex) : result string :=
  match n with
  | root_node => Raise AttributeError
  | Node _ v => Ok v
  end.

(** [has_value p n]: [n] is a node object whose payload equals [p]. *)
Definition has_value (p : string) (n : vertex) : bool :=
  match n with
  | root_node => false
  | Node _ v => eqb v p
  end.

(** ** Insertion-ordered dictionaries *)

Definition dict (K V : Type) : Type := list (K * V).

Section Dict.
Context {K V : Type} `{EqDec K}.

Fixpoint dict_get (d : dict K V) (k : K) : option V :=
  match d with
  | [] => None
  | (k', v) :: r => if eq_dec k k' then Some v else dict_get r k
  end.

(** [d[k] = v]: an existing key keeps its position. *)
Fixpoint dict_set (d : dict K V) (k : K) (v : V) : dict K V :=
  match d with
  | [] => [(k, v)]
  | (k', v') :: r =>
      if eq_dec k k' then (k', v) :: r else (k', v') :: dict_set r k v
  end.

Definition dict_mem (d : dict K V) (k : K) : bool :=
  match dict_get d k with
  | Some _ => true
  | None => false
  end.

Definition dict_keys (d : dict K V) : list K := map fst d.

(** [d[k]] on a plain dict. *)
Definition dict_getitem (d : dict K V) (k : K) : result V :=
  match dict_get d k with
  | Some v => Ok v
  | None => Raise KeyError
  end.
End Dict.

(** [l.remove(x)]: drops the first element equal to [x]. *)
Fixpoint list_remove {A} `{EqDec A} (l : list A) (x : A) : list A :=
  match l with
  | [] => []
  | y :: r => if eq_dec x y then r else y :: list_remove r x
  end.

Definition mem {A} `{EqDec A} (x : A) (l : list A) : bool :=
  existsb (eqb x) l.

(** A Python [set] of payloads, kept as a duplicate-free list; [a & b].
    Python fixes no iteration order for a set: the loop over the intersection
    is run in the order of [a] here, and the tables it builds are described
    below by their lookups, which do not depend on that order. *)
Definition set_and (a b : list string) : list string :=
  nodup string_dec (filter (fun x => mem x b) a).

(** ** Ordered rooted graphs (networkx DiGraph) *)

(** [nodes] is the node dictionary in insertion order.  [edges] holds the
    adjacency in insertion order, one entry per edge with its [order]
    attribute: the successors of [u] are met in the order of the entries with
    source [u], the predecessors of [v] in the order of the entries with
    target [v] (networkx keeps one attribute dictionary per edge, shared by
    both adjacency tables).  Every edge carries the integer attribute
    [order], as the graphs of the parser and of [apply] do. *)
Record DiGraph : Type := mkDiGraph {
  nodes : list vertex;
  edges : list (vertex * vertex * Z)
}.

Definition esrc (e : vertex * vertex * Z) : vertex := fst (fst e).
Definition etgt (e : vertex * vertex * Z) : vertex := snd (fst e).
Definition eord (e : vertex * vertex * Z) : Z := snd e.

Definition has_node (g : DiGraph) (n : vertex) : bool := mem n (nodes g).

Definition out_edges (g : DiGraph) (n : vertex) : list (vertex * vertex * Z) :=
  filter (fun e => eqb (esrc e) n) (edges g).

Definition in_edges (g : DiGraph) (n : vertex) : list (vertex * vertex * Z) :=
  filter (fun e => eqb (etgt e) n) (edges g).

(** [g.successors(n)], [g.predecessors(n)]: raise when [n] is not a node. *)
Definition successors (g : DiGraph) (n : vertex) : result (list vertex) :=
  if has_node g n then Ok (map etgt (out_edges g n)) else Raise NetworkXError.

Definition predecessors (g : DiGraph) (n : vertex) : result (list vertex) :=
  if has_node g n then Ok (map esrc (in_edges g n)) else Raise NetworkXError.

(** [g.get_edge_data(u, v)]: the attribute dictionary, or [None]. *)
Definition get_edge_data (g : DiGraph) (u v : vertex) : option Z :=
  option_map eord (find (fun e => eqb (esrc e) u && eqb (etgt e) v) (edges g)).

(** [g.get_edge_data(u, v)["order"]]: subscripting [None] is a TypeError. *)
Definition edge_order (g : DiGraph) (u v : vertex) : result Z :=
  match get_edge_data g u v with
  | Some o => Ok o
  | None => Raise TypeError
  end.

Definition add_node (g : DiGraph) (n : vertex) : DiGraph :=
  if has_node g n then g else mkDiGraph (nodes g ++ [n]) (edges g).

Fixpoint set_edge (es : list (vertex * vertex * Z)) (u v : vertex) (o : Z)
  : list (vertex * vertex * Z) :=
  match es with
  | [] => [(u, v, o)]
  | e :: r =>
      if eqb (esrc e) u && eqb (etgt e) v then (u, v, o) :: r
      else e :: set_edge r u v o
  end.

(** [g.add_edge(u, v, order=o)]: missing endpoints become nodes; an existing
    edge has its attribute updated in place. *)
Definition add_edge (u v : vertex) (o : Z) (g : DiGraph) : DiGraph :=
  mkDiGraph (nodes (add_node (add_node g u) v)) (set_edge (edges g) u v o).

(** [g.remove_edge(u, v)]. *)
Definition remove_edge (u v : vertex) (g : DiGraph) : result DiGraph :=
  match get_edge_data g u v with
  | Some _ =>
      Ok (mkDiGraph (nodes g)
            (filter (fun e => negb (eqb (esrc e) u && eqb (etgt e) v)) (edges g)))
  | None => Raise NetworkXError
  end.

(** [g.remove_node(n)]: the node goes with every edge that touches it. *)
Definition remove_node (n : vertex) (g : DiGraph) : result DiGraph :=
  if has_node g n then
    Ok (mkDiGraph (filter (fun m => negb (eqb m n)) (nodes g))
          (filter (fun e => negb (eqb (esrc e) n) && negb (eqb (etgt e) n))
             (edges g)))
  else Raise NetworkXError.

(** [g.out_degree(n)] and [g.in_degree(n)] for a vertex that is not a node:
    the degree call takes the argument for a bunch of nodes; a node object is
    not iterable, which networkx reports as a NetworkXError, and the
    characters of the sentinel string are no nodes, which gives an (empty)
    view, and a view is not [0]. *)
Definition degree_is_0_absent (n : vertex) : result bool :=
  match n with
  | root_node => Ok false
  | Node _ _ => Raise NetworkXError
  end.

(** [g.out_degree(n) == 0] and [g.in_degree(n) == 0]. *)
Definition out_degree_is_0 (g : DiGraph) (n : vertex) : result bool :=
  if has_node g n then Ok (List.length (out_edges g n) =? 0)
  else degree_is_0_absent n.

Definition in_degree_is_0 (g : DiGraph) (n : vertex) : result bool :=
  if has_node g n then Ok (List.length (in_edges g n) =? 0)
  else degree_is_0_absent n.

(** ** Pattern descriptors and rules *)

(** What the parser hands over.  Its [functions] and [constraints] are stored
    by [Rule.__init__] and never read by the methods modelled here. *)
Record ParserObj : Type := mkParserObj {
  graph : DiGraph;
  variables_constants : list string
}.

Record Rule : Type := mkRule {
  _graph_in : DiGraph;
  _obj_in : list string;
  _graph_out : DiGraph;
  _obj_out : list string;
  node_dict : dict vertex (list vertex);
  reverse_node_dict : dict vertex vertex
}.

(** ** Pattern correspondence builder: [Rule._create_node_dict] *)

Local Open Scope result_scope.

(** Lines 50-51: [graph_in_node_dict[node.value] = node] over the non-root
    nodes. *)
Fixpoint fill_graph_in_node_dict (ns : list vertex) (d : dict string vertex)
  : result (dict string vertex) :=
  match ns with
  | [] => Ok d
  | node :: r =>
      v <~ node_value node ;;
      fill_graph_in_node_dict r (dict_set d v node)
  end.

(** Lines 56-59: the scan of [unmatched_nodes] for one payload [obj]. *)
Fixpoint scan_unmatched (graph_in_node_dict : dict string vertex) (obj : string)
    (unmatched_nodes : list vertex)
    (reverse_node_dict : dict vertex vertex) (obj_nodes : list vertex)
  : result (dict vertex vertex * list vertex) :=
  match unmatched_nodes with
  | [] => Ok (reverse_node_dict, obj_nodes)
  | node :: r =>
      v <~ node_value node ;;
      if eqb v obj then
        src <~ dict_getitem graph_in_node_dict obj ;;
        scan_unmatched graph_in_node_dict obj r
          (dict_set reverse_node_dict node src) (obj_nodes ++ [node])
      else scan_unmatched graph_in_node_dict obj r reverse_node_dict obj_nodes
  end.

(** Lines 54-62: the loop over the common payloads. *)
Fixpoint for_common_obj (graph_in_node_dict : dict string vertex)
    (common_obj : list string) (unmatched_nodes : list vertex)
    (node_dict : dict vertex (list vertex))
    (reverse_node_dict : dict vertex vertex)
  : result (dict vertex (list vertex) * dict vertex vertex) :=
  match common_obj with
  | [] => Ok (node_dict, reverse_node_dict)
  | obj :: r =>
      '(reverse_node_dict', obj_nodes) <~
        scan_unmatched graph_in_node_dict obj unmatched_nodes
          reverse_node_dict [] ;;
      src <~ dict_getitem graph_in_node_dict obj ;;
      for_common_obj graph_in_node_dict r
        (fold_left list_remove obj_nodes unmatched_nodes)
        (dict_set node_dict src obj_nodes) reverse_node_dict'
  end.

Definition _create_node_dict (graph_in : DiGraph) (obj_in : list string)
    (graph_out : DiGraph) (obj_out : list string)
  : result (dict vertex (list vertex) * dict vertex vertex) :=
  graph_in_node_dict <~ fill_graph_in_node_dict (tl (nodes graph_in)) [] ;;
  for_common_obj graph_in_node_dict (set_and obj_in obj_out)
    (tl (nodes graph_out)) [] [].

(** [Rule.__init__]. *)
Definition Rule_init (parser_obj_in parser_obj_out : ParserObj) : result Rule :=
  '(nd, rnd) <~ _create_node_dict
      (graph parser_obj_in) (variables_constants parser_obj_in)
      (graph parser_obj_out) (variables_constants parser_obj_out) ;;
  Ok (mkRule (graph parser_obj_in) (variables_constants parser_obj_in)
        (graph parser_obj_out) (variables_constants parser_obj_out) nd rnd).

(** ** The interpreter state of one [apply] call *)

(** The attributes [apply] sets on [self] and shares with its helpers, and the
    allocator: [next_id] is the identity the next [Node(...)] receives. *)
Record store : Type := mkStore {
  _cur_graph : DiGraph;
  _cur_transform_dict : dict vertex vertex;
  _cur_node_dict : dict vertex (list vertex);
  next_id : nat
}.

(** Computations that read and write the store and may raise; the store at
    the point of a raise is kept (nothing is rolled back). *)
Definition M (A : Type) : Type := store -> result A * store.

Definition ret {A} (a : A) : M A := fun s => (Ok a, s).

Definition raise {A} (e : exn) : M A := fun s => (Raise e, s).

Definition bind {A B} (m : M A) (f : A -> M B) : M B :=
  fun s =>
    match m s with
    | (Ok a, s') => f a s'
    | (Raise e, s') => (Raise e, s')
    end.

Definition lift {A} (r : result A) : M A := fun s => (r, s).

Definition gets {A} (f : store -> A) : M A := fun s => (Ok (f s), s).

Definition modify (f : store -> store) : M unit := fun s => (Ok tt, f s).

Declare Scope monad_scope.
Delimit Scope monad_scope with monad.
Notation "x <- m ;; k" := (bind m (fun x => k))
  (at level 61, m at next level, right associativity) : monad_scope.
Notation "m ;; k" := (bind m (fun _ => k))
  (at level 61, right associativity) : monad_scope.

Local Open Scope monad_scope.

(** [for x in l: f x]. *)
Fixpoint forM_ {A} (l : list A) (f : A -> M unit) : M unit :=
  match l with
  | [] => ret tt
  | x :: r => f x ;; forM_ r f
  end.

Definition set_cur_graph (g : DiGraph) (s : store) : store :=
  mkStore g (_cur_transform_dict s) (_cur_node_dict s) (next_id s).

Definition set_cur_transform_dict (d : dict vertex vertex) (s : store) : store :=
  mkStore (_cur_graph s) d (_cur_node_dict s) (next_id s).

Definition set_cur_node_dict (d : dict vertex (list vertex)) (s : store) : store :=
  mkStore (_cur_graph s) (_cur_transform_dict s) d (next_id s).

(** A read of the graph under transformation that may raise. *)
Definition graph_get {A} (f : DiGraph -> result A) : M A :=
  fun s => (f (_cur_graph s), s).

(** A mutation of the graph under transformation. *)
Definition graph_do (f : DiGraph -> DiGraph) : M unit :=
  modify (fun s => set_cur_graph (f (_cur_graph s)) s).

(** A mutation of the graph under transformation that may raise. *)
Definition graph_try (f : DiGraph -> result DiGraph) : M unit :=
  fun s =>
    match f (_cur_graph s) with
    | Ok g => (Ok tt, set_cur_graph g s)
    | Raise e => (Raise e, s)
    end.

(** Modelled from the spec: the constructor [Node(value)] of language.parser;
    every call allocates a node distinct from all earlier ones. *)
Definition new_Node (v : string) : M vertex :=
  fun s =>
    (Ok (Node (next_id s) v),
     mkStore (_cur_graph s) (_cur_transform_dict s) (_cur_node_dict s)
       (S (next_id s))).

(** [self._cur_node_dict[k].append(x)] on the [defaultdict(list)]. *)
Definition cur_node_dict_append (k x : vertex) : M unit :=
  modify (fun s =>
    let l := match dict_get (_cur_node_dict s) k with
             | Some l => l
             | None => []
             end in
    set_cur_node_dict (dict_set (_cur_node_dict s) k (l ++ [x])) s).

(** ** Rewrite applicator *)

(** [Rule._copy_apply_graph]: declared without [self] and with the body
    [pass].  The call [self._copy_apply_graph(graph)] passes two positional
    arguments to a function of one and raises TypeError (and unpacking the
    [None] a bare [pass] returns would raise TypeError as well). *)
Definition _copy_apply_graph (graph : DiGraph)
  : M (DiGraph * dict vertex vertex) :=
  raise TypeError.

(** [Rule._remove_mapped_edges_rec]; [depth] is what is left of the
    interpreter's recursion limit. *)
Fixpoint _remove_mapped_edges_rec (self : Rule) (depth : nat) (node : vertex)
  : M unit :=
  match depth with
  | O => raise RecursionError
  | S depth' =>
      cur_transform_dict <- gets _cur_transform_dict ;;
      succs <- lift (successors (_graph_in self) node) ;;
      forM_ succs (fun successor_node =>
        u <- lift (dict_getitem cur_transform_dict node) ;;
        v <- lift (dict_getitem cur_transform_dict successor_node) ;;
        graph_try (remove_edge u v) ;;
        _remove_mapped_edges_rec self depth' successor_node)
  end.

(** [Rule._copy_output_node]. *)
Definition _copy_output_node (self : Rule) (node : vertex) : M vertex :=
  match dict_get (reverse_node_dict self) node with
  | Some in_node =>
      cur_transform_dict <- gets _cur_transform_dict ;;
      target <- lift (dict_getitem cur_transform_dict in_node) ;;
      v <- lift (node_value target) ;;
      node_copy <- new_Node v ;;
      cur_node_dict_append in_node node_copy ;;
      ret node_copy
  | None =>
      v <- lift (node_value node) ;;
      new_Node v
  end.

(** [Rule._add_output_graph_rec]. *)
Fixpoint _add_output_graph_rec (self : Rule) (depth : nat)
    (root_node' root_node_copy : vertex) : M unit :=
  match depth with
  | O => raise RecursionError
  | S depth' =>
      succs <- lift (successors (_graph_out self) root_node') ;;
      forM_ succs (fun node =>
        node_copy <- _copy_output_node self node ;;
        o <- lift (edge_order (_graph_out self) root_node' node) ;;
        graph_do (add_edge root_node_copy node_copy o) ;;
        _add_output_graph_rec self depth' node node_copy)
  end.

(** [Rule._add_output_graph]. *)
Definition _add_output_graph (self : Rule) (depth : nat) : M unit :=
  modify (set_cur_node_dict []) ;;
  succs <- lift (successors (_graph_out self) root_node) ;;
  forM_ succs (fun node =>
    node_copy <- _copy_output_node self node ;;
    (if dict_mem (reverse_node_dict self) node then ret tt
     else graph_do (add_edge root_node node_copy (-1))) ;;
    _add_output_graph_rec self depth node node_copy).

(** [dict((v, k) for k, v in transform_node_dict.items())]. *)
Definition reverse_dict (d : dict vertex vertex) : dict vertex vertex :=
  fold_left (fun acc kv => dict_set acc (snd kv) (fst kv)) d [].

(** Lines 145-147: every out-edge of [pre_node] above [cur_order] moves up. *)
Definition shift_orders (pre_node : vertex) (cur_order d : Z) (g : DiGraph)
  : DiGraph :=
  mkDiGraph (nodes g)
    (map (fun e =>
            if eqb (esrc e) pre_node && (cur_order <? eord e)%Z
            then (esrc e, etgt e, (eord e + d)%Z) else e)
       (edges g)).

(** [enumerate(l)]. *)
Definition enumerate {A} (l : list A) : list (nat * A) :=
  combine (seq 0 (List.length l)) l.

(** Lines 141-149: one predecessor of a matched node that has copies. *)
Definition reattach_pred (reverse_transform_dict : dict vertex vertex)
    (graph_node : vertex) (out_nodes : list vertex) (pre_node : vertex)
  : M unit :=
  if dict_mem reverse_transform_dict pre_node then ret tt
  else
    cur_order <- graph_get (fun g => edge_order g pre_node graph_node) ;;
    graph_do (shift_orders pre_node cur_order
                (Z.of_nat (List.length out_nodes) - 1)) ;;
    forM_ (enumerate out_nodes) (fun i_node =>
      graph_do (add_edge pre_node (snd i_node)
                  (cur_order + Z.of_nat (fst i_node)))).

(** Lines 151-153: one successor of a matched node that has copies. *)
Definition reattach_suc (reverse_transform_dict : dict vertex vertex)
    (graph_node : vertex) (out_nodes : list vertex) (suc_node : vertex)
  : M unit :=
  if dict_mem reverse_transform_dict suc_node then ret tt
  else
    forM_ out_nodes (fun node =>
      o <- graph_get (fun g => edge_order g graph_node suc_node) ;;
      graph_do (add_edge node suc_node o)).

(** Lines 157-161: a matched node that is no key of [cur_node_dict]. *)
Definition collect_orphan (graph_node : vertex) : M unit :=
  g <- gets _cur_graph ;;
  no_out <- lift (out_degree_is_0 g graph_node) ;;
  if no_out then
    no_in <- lift (in_degree_is_0 g graph_node) ;;
    if no_in then graph_try (remove_node graph_node)
    else
      preds <- lift (predecessors g graph_node) ;;
      if mem root_node preds then graph_try (remove_node graph_node)
      else ret tt
  else ret tt.

(** Lines 137-161: the body of the loop over [reverse_transform_dict]. *)
Definition apply_graph_node (reverse_transform_dict : dict vertex vertex)
    (cur_node_dict : dict vertex (list vertex)) (graph_node : vertex)
  : M unit :=
  match dict_get cur_node_dict graph_node with
  | Some out_nodes =>
      preds <- graph_get (fun g => predecessors g graph_node) ;;
      forM_ preds (reattach_pred reverse_transform_dict graph_node out_nodes) ;;
      succs <- graph_get (fun g => successors g graph_node) ;;
      forM_ succs (reattach_suc reverse_transform_dict graph_node out_nodes) ;;
      graph_try (remove_node graph_node)
  | None => collect_orphan graph_node
  end.

(** [Rule.apply].  The value returned is [Some g] for a returned graph and
    [None] for Python's [None]; the graph the call worked on is the store's
    [_cur_graph]. *)
Definition apply (self : Rule) (depth : nat) (graph : DiGraph)
    (transform_node_dict : dict vertex vertex) (deepcopy_graph : bool)
  : M (option DiGraph) :=
  let reverse_transform_dict := reverse_dict transform_node_dict in
  gm <- (if deepcopy_graph then _copy_apply_graph graph
         else ret (graph, transform_node_dict)) ;;
  modify (set_cur_graph (fst gm)) ;;
  modify (set_cur_transform_dict (snd gm)) ;;
  in_nodes <- lift (successors (_graph_in self) root_node) ;;
  forM_ in_nodes (_remove_mapped_edges_rec self depth) ;;
  _add_output_graph self depth ;;
  cur_node_dict <- gets _cur_node_dict ;;
  forM_ (dict_keys reverse_transform_dict)
    (apply_graph_node reverse_transform_dict cur_node_dict) ;;
  if deepcopy_graph then (g <- gets _cur_graph ;; ret (Some g))
  else ret None.

(** ** Vocabulary of the statements *)

(** The non-root input node that ends up holding payload [p]: the one
    enumerated last among the nodes that carry it. *)
Fixpoint last_carrier (ns : list vertex) (p : string) : option vertex :=
  match ns with
  | [] => None
  | n :: r =>
      match last_carrier r p with
      | Some m => Some m
      | None => if has_value p n then Some n else None
      end
  end.

(** The keys of a [node_dict] read as "every non-root input node whose payload
    lies in the intersection of the two payload sets". *)
Definition keys_are_all_shared_carriers (gin : DiGraph) (oin : list string)
    (oout : list string) (nd : dict vertex (list vertex)) : Prop :=
  forall n, In n (dict_keys nd) <->
            In n (tl (nodes gin)) /\
            exists p, has_value p n = true /\ In p (set_and oin oout).

(** Two distinct non-root input nodes of one payload, read with no condition
    on that payload: building succeeds, every output node of the payload is
    bound to the input node enumerated last, and the other carriers appear in
    neither table. *)
Definition duplicates_bind_last (gin : DiGraph) (oin : list string)
    (gout : DiGraph) (oout : list string) : Prop :=
  forall n1 n2 p,
    In n1 (tl (nodes gin)) -> In n2 (tl (nodes gin)) -> n1 <> n2 ->
    has_value p n1 = true -> has_value p n2 = true ->
    exists nd rnd last,
      _create_node_dict gin oin gout oout = Ok (nd, rnd) /\
      last_carrier (tl (nodes gin)) p = Some last /\
      (forall m, In m (tl (nodes gout)) -> has_value p m = true ->
                 dict_get rnd m = Some last) /\
      (forall n, In n (tl (nodes gin)) -> has_value p n = true -> n <> last ->
                 ~ In n (dict_keys nd) /\ forall m, dict_get rnd m <> Some n).

(** ** Concrete patterns and graphs *)

(** Input pattern [f(a, a)] with one node per occurrence of [a], output
    pattern [a]. *)
Definition twice_in : DiGraph :=
  mkDiGraph [root_node; Node 1 "f"; Node 2 "a"; Node 3 "a"]
    [(root_node, Node 1 "f", 0%Z); (Node 1 "f", Node 2 "a", 0%Z);
     (Node 1 "f", Node 3 "a", 1%Z)].

Definition single_out : DiGraph :=
  mkDiGraph [root_node; Node 4 "a"] [(root_node, Node 4 "a", 0%Z)].

(** Input pattern [f(f(a))], output pattern [f(a)]; [f] is a function
    symbol, so the payload sets hold [a] only. *)
Definition nested_in : DiGraph :=
  mkDiGraph [root_node; Node 1 "f"; Node 2 "f"; Node 3 "a"]
    [(root_node, Node 1 "f", 0%Z); (Node 1 "f", Node 2 "f", 0%Z);
     (Node 2 "f", Node 3 "a", 0%Z)].

Definition nested_out : DiGraph :=
  mkDiGraph [root_node; Node 4 "f"; Node 5 "a"]
    [(root_node, Node 4 "f", 0%Z); (Node 4 "f", Node 5 "a", 0%Z)].

(** A store before any [apply] call, with the allocator at [n]. *)
Definition fresh_store (n : nat) : store := mkStore (mkDiGraph [] []) [] [] n.

(** The rule [{a, b} -> add_prefix(a, b)] and a target holding two values
    under the root. *)
Definition prefix_rule : Rule :=
  mkRule
    (mkDiGraph [root_node; Node 1 "a"; Node 2 "b"]
       [(root_node, Node 1 "a", 0%Z); (root_node, Node 2 "b", 1%Z)])
    ["a"; "b"]%string
    (mkDiGraph [root_node; Node 3 "add_prefix"; Node 4 "a"; Node 5 "b"]
       [(root_node, Node 3 "add_prefix", 0%Z);
        (Node 3 "add_prefix", Node 4 "a", 0%Z);
        (Node 3 "add_prefix", Node 5 "b", 1%Z)])
    ["a"; "b"]%string
    [(Node 1 "a", [Node 4 "a"]); (Node 2 "b", [Node 5 "b"])]
    [(Node 4 "a", Node 1 "a"); (Node 5 "b", Node 2 "b")].

Definition prefix_target : DiGraph :=
  mkDiGraph [root_node; Node 10 "hello"; Node 11 "banana"]
    [(root_node, Node 10 "hello", 0%Z); (root_node, Node 11 "banana", 1%Z)].

Definition prefix_match : dict vertex vertex :=
  [(Node 1 "a", Node 10 "hello"); (Node 2 "b", Node 11 "banana")].


(** The rule [a -> h()], which drops its binding, and a target in which the
    matched value is an argument of [G] as well as a child of the root. *)
Definition drop_rule : Rule :=
  mkRule
    (mkDiGraph [root_node; Node 1 "a"] [(root_node, Node 1 "a", 0%Z)])
    ["a"%string]
    (mkDiGraph [root_node; Node 2 "h"] [(root_node, Node 2 "h", 0%Z)])
    []
    [] [].

Definition shared_target : DiGraph :=
  mkDiGraph [root_node; Node 10 "x"; Node 11 "G"]
    [(root_node, Node 10 "x", 0%Z); (root_node, Node 11 "G", 1%Z);
     (Node 11 "G", Node 10 "x", 0%Z)].

(** The orphan rule read as "deleted exactly when out-degree zero and either
    in-degree zero or the root its only predecessor", for a visited node that
    is no key of [cur_node_dict]; degrees are those at the visit. *)
Definition orphan_iff_only_root (rtd : dict vertex vertex)
    (cnd : dict vertex (list vertex)) (x : vertex) (s : store) : Prop :=
  forall s', apply_graph_node rtd cnd x s = (Ok tt, s') ->
    (has_node (_cur_graph s') x = false <->
     out_degree_is_0 (_cur_graph s) x = Ok true /\
     (in_degree_is_0 (_cur_graph s) x = Ok true \/
      predecessors (_cur_graph s) x = Ok [root_node])).

(** The rule [a -> pair(a, a)] and a target [G(x)]. *)
Definition pair_rule : Rule :=
  mkRule
    (mkDiGraph [root_node; Node 1 "a"] [(root_node, Node 1 "a", 0%Z)])
    ["a"%string]
    (mkDiGraph [root_node; Node 2 "pair"; Node 3 "a"; Node 4 "a"]
       [(root_node, Node 2 "pair", 0%Z); (Node 2 "pair", Node 3 "a", 0%Z);
        (Node 2 "pair", Node 4 "a", 1%Z)])
    ["a"%string]
    [(Node 1 "a", [Node 3 "a"; Node 4 "a"])]
    [(Node 3 "a", Node 1 "a"); (Node 4 "a", Node 1 "a")].

Definition call_target : DiGraph :=
  mkDiGraph [root_node; Node 11 "G"; Node 10 "x"]
    [(root_node, Node 11 "G", 0%Z); (Node 11 "G", Node 10 "x", 0%Z)].

(** The rule [f(a) -> h(a)] and a target [F(x(y))], in which the value bound
    to [a] is itself a call. *)
Definition rename_rule : Rule :=
  mkRule
    (mkDiGraph [root_node; Node 1 "f"; Node 2 "a"]
       [(root_node, Node 1 "f", 0%Z); (Node 1 "f", Node 2 "a", 0%Z)])
    ["a"%string]
    (mkDiGraph [root_node; Node 3 "h"; Node 4 "a"]
       [(root_node, Node 3 "h", 0%Z); (Node 3 "h", Node 4 "a", 0%Z)])
    ["a"%string]
    [(Node 2 "a", [Node 4 "a"])]
    [(Node 4 "a", Node 2 "a")].

Definition nested_target : DiGraph :=
  mkDiGraph [root_node; Node 10 "F"; Node 11 "x"; Node 12 "y"]
    [(root_node, Node 10 "F", 0%Z); (Node 10 "F", Node 11 "x", 0%Z);
     (Node 11 "x", Node 12 "y", 0%Z)].

(** Reachability from the sentinel. *)
Inductive reachable (g : DiGraph) : vertex -> Prop :=
| reach_root : reachable g root_node
| reach_step u v o :
    reachable g u -> In (u, v, o) (edges g) -> reachable g v.

Definition all_reachable (g : DiGraph) : Prop :=
  forall n, In n (nodes g) -> reachable g n.

(** The store of the run of [drop_rule] on [shared_target] at the moment the
    matched node [x] is visited by the last loop of [apply]. *)
Definition drop_visit_store : store :=
  mkStore
    (mkDiGraph [root_node; Node 10 "x"; Node 11 "G"; Node 100 "h"]
       [(root_node, Node 10 "x", 0%Z); (root_node, Node 11 "G", 1%Z);
        (Node 11 "G", Node 10 "x", 0%Z); (root_node, Node 100 "h", (-1)%Z)])
    [(Node 1 "a", Node 10 "x")] [] 101.

(** A computation that never raises [BadGraph], whatever the store. *)
Definition no_BadGraph {A} (m : M A) : Prop :=
  forall s s', m s <> (Raise BadGraph, s').

(** "Construction fails with BadGraph", "apply fails with BadGraph": every
    failure on the given input is a [BadGraph]. *)
Definition init_failure_is_BadGraph (pin pout : ParserObj) : Prop :=
  forall e, Rule_init pin pout = Raise e -> e = BadGraph.

Definition apply_failure_is_BadGraph (self : Rule) (depth : nat) (g : DiGraph)
    (m : dict vertex vertex) (s : store) : Prop :=
  forall e s', apply self depth g m false s = (Raise e, s') -> e = BadGraph.

(** A malformed pattern pair: the payload set of the input pattern names [a],
    and its graph has no node carrying it. *)
Definition hollow_in : ParserObj :=
  mkParserObj (mkDiGraph [root_node] []) ["a"%string].

Definition hollow_out : ParserObj :=
  mkParserObj (mkDiGraph [root_node; Node 1 "a"] [(root_node, Node 1 "a", 0%Z)])
    ["a"%string].

(** A rule whose input pattern graph has no root sentinel. *)
Definition rootless_rule : Rule :=
  mkRule (mkDiGraph [Node 1 "a"] []) ["a"%string]
    (mkDiGraph [root_node; Node 2 "a"] [(root_node, Node 2 "a", 0%Z)])
    ["a"%string]
    [(Node 1 "a", [Node 2 "a"])] [(Node 2 "a", Node 1 "a")].

(** The renumbering of lines 145-147 on one out-edge of [pre_node]. *)
Definition shifted (c d : Z) (e : vertex * vertex * Z) : vertex * vertex * Z :=
  if (c <? eord e)%Z then (esrc e, etgt e, (eord e + d)%Z) else e.

(** [allocated N v]: [v] exists on a heap whose allocator stands at [N]; the
    sentinel is a string constant and always does. *)
Definition allocated (N : nat) (v : vertex) : Prop :=
  match v with
  | root_node => True
  | Node i _ => i < N
  end.

(** Every node and every edge endpoint of [g] was allocated before [N]. *)
Definition graph_below (N : nat) (g : DiGraph) : Prop :=
  (forall v, In v (nodes g) -> allocated N v) /\
  (forall e, In e (edges g) -> allocated N (esrc e) /\ allocated N (etgt e)).

(** The images of a match were allocated before [N]. *)
Definition match_below (N : nat) (m : dict vertex vertex) : Prop :=
  forall k v, In (k, v) m -> allocated N v.

(** The out-edges [l] of a node during a call, against its out-edges [l0]
    before the call, the allocator having stood at [N] then: an edge of [l]
    to an old node goes where an edge of [l0] went, and either [l] is [l0]
    still, or [l] holds an edge to a node made during the call, or an edge of
    [l0] has no counterpart in [l]. *)
Definition targets_known (N : nat) (l0 l : list (vertex * vertex * Z)) : Prop :=
  forall e, In e l -> allocated N (etgt e) ->
            exists e0, In e0 l0 /\ etgt e0 = etgt e.

Definition same_or_touched (N : nat) (l0 l : list (vertex * vertex * Z))
  : Prop :=
  l = l0 \/
  (exists e, In e l /\ ~ allocated N (etgt e)) \/
  (exists e0, In e0 l0 /\ forall e, In e l -> etgt e <> etgt e0).

Definition out_inv (N : nat) (l0 l : list (vertex * vertex * Z)) : Prop :=
  targets_known N l0 l /\ same_or_touched N l0 l.

Definition order_inv (N : nat) (g0 : DiGraph) (n : vertex) (s : store) : Prop :=
  N <= next_id s /\
  out_inv N (out_edges g0 n) (out_edges (_cur_graph s) n).

(** The lists of [cur_node_dict] are non-empty and hold nodes made during the
    call. *)
Definition copies_fresh (N : nat) (cnd : dict vertex (list vertex)) : Prop :=
  forall k l, dict_get cnd k = Some l ->
              l <> [] /\ forall v, In v l -> ~ allocated N v.

(** The images of the match in use were allocated before the call. *)
Definition transform_below (N : nat) (s : store) : Prop :=
  forall k v, dict_get (_cur_transform_dict s) k = Some v -> allocated N v.

(** Lines 148-149 on the graph: the edges from [pre_node] to the copies. *)
Definition add_copies (pre_node : vertex) (cur_order : Z)
    (i_nodes : list (nat * vertex)) (g : DiGraph) : DiGraph :=
  fold_left (fun acc i_node =>
               add_edge pre_node (snd i_node)
                 (cur_order + Z.of_nat (fst i_node)) acc)
    i_nodes g.

(** The same successors before and after. *)
Definition same_successors (g g' : DiGraph) (n : vertex) : Prop :=
  forall v, (exists o, In (n, v, o) (edges g)) <->
            (exists o, In (n, v, o) (edges g')).

(** What the instantiation of the output pattern keeps true of the store. *)
Definition phase_inv (N : nat) (g0 : DiGraph) (n : vertex) (s : store) : Prop :=
  order_inv N g0 n s /\ transform_below N s /\
  copies_fresh N (_cur_node_dict s).

(** A DiGraph holds at most one edge per ordered pair of nodes. *)
Definition simple_edges (g : DiGraph) : Prop :=
  NoDup (map (fun e => (esrc e, etgt e)) (edges g)).

(** The out-edges of a predecessor once lines 145-149 have run for it: the
    old edges renumbered, then one edge per copy. *)
Definition reattached (pre : vertex) (c : Z) (out_nodes : list vertex)
    (l : list (vertex * vertex * Z)) : list (vertex * vertex * Z) :=
  map (shifted c (Z.of_nat (List.length out_nodes) - 1)) l ++
  map (fun i_node => (pre, snd i_node, (c + Z.of_nat (fst i_node))%Z))
    (enumerate out_nodes).

(** [copy_wired g x g' v suc]: the copy [v] has in [g'] the edge to [suc]
    that [x] had in [g], with its order. *)
Definition copy_wired (g : DiGraph) (x : vertex) (g' : DiGraph)
    (v suc : vertex) : Prop :=
  forall o, In (x, suc, o) (edges g) -> In (v, suc, o) (edges g').

(** What the loop of lines 150-153 keeps: the out-edges of the matched node
    [x] as in [g], and those of the predecessor [pre]. *)
Definition boundary_kept (g : DiGraph) (x pre : vertex)
    (l : list (vertex * vertex * Z)) (t : store) : Prop :=
  out_edges (_cur_graph t) x = out_edges g x /\
  out_edges (_cur_graph t) pre = l.

(** A target [G(a(y), w)] built on the very node object of the input pattern
    of [pair_rule], matched to itself; the store of the run of [pair_rule] on
    it when the matched node is visited, and the store after the visit. *)
Definition alias_target : DiGraph :=
  mkDiGraph
    [root_node; Node 11 "G"; Node 1 "a"; Node 12 "w"; Node 13 "y"]
    [(root_node, Node 11 "G", 0%Z); (Node 11 "G", Node 1 "a", 0%Z);
     (Node 11 "G", Node 12 "w", 1%Z); (Node 1 "a", Node 13 "y", 0%Z)].

Definition alias_visit_store : store :=
  mkStore
    (mkDiGraph
       [root_node; Node 11 "G"; Node 1 "a"; Node 12 "w"; Node 13 "y";
        Node 100 "pair"; Node 101 "a"; Node 102 "a"]
       [(root_node, Node 11 "G", 0%Z); (Node 11 "G", Node 1 "a", 0%Z);
        (Node 11 "G", Node 12 "w", 1%Z); (Node 1 "a", Node 13 "y", 0%Z);
        (root_node, Node 100 "pair", (-1)%Z);
        (Node 100 "pair", Node 101 "a", 0%Z);
        (Node 100 "pair", Node 102 "a", 1%Z)])
    [(Node 1 "a", Node 1 "a")]
    [(Node 1 "a", [Node 101 "a"; Node 102 "a"])]
    103.

Definition alias_done_store : store :=
  mkStore
    (mkDiGraph
       [root_node; Node 11 "G"; Node 12 "w"; Node 13 "y";
        Node 100 "pair"; Node 101 "a"; Node 102 "a"]
       [(root_node, Node 11 "G", 0%Z); (Node 11 "G", Node 12 "w", 2%Z);
        (root_node, Node 100 "pair", (-1)%Z);
        (Node 100 "pair", Node 101 "a", 0%Z);
        (Node 100 "pair", Node 102 "a", 1%Z);
        (Node 11 "G", Node 101 "a", 0%Z); (Node 11 "G", Node 102 "a", 1%Z);
        (Node 101 "a", Node 13 "y", 0%Z); (Node 102 "a", Node 13 "y", 0%Z)])
    [(Node 1 "a", Node 1 "a")]
    [(Node 1 "a", [Node 101 "a"; Node 102 "a"])]
    103.

(** ** Further vocabulary: matches *)

(** [image m v]: the match [m] sends some pattern node to [v]. *)
Definition image (m : dict vertex vertex) (v : vertex) : Prop :=
  exists k, In (k, v) m.

(** What [_copy_output_node] has recorded in [_cur_node_dict] since the
    allocator stood at [N]: every key is an input-pattern node some output
    node corresponds to, and its list holds, one or more, nodes made since
    then that carry the payload of the target node matched to the key. *)
Definition recorded_copies (self : Rule) (N : nat) (t : store) : Prop :=
  forall k l, dict_get (_cur_node_dict t) k = Some l ->
    (exists out, dict_get (reverse_node_dict self) out = Some k) /\
    l <> [] /\
    forall c, In c l ->
      exists tgt v i,
        dict_get (_cur_transform_dict t) k = Some tgt /\
        node_value tgt = Ok v /\ c = Node i v /\ N <= i < next_id t.

(** [refines f f']: whatever [f] ends with, short of a RecursionError, [f']
    ends with too. *)
Definition refines {A} (f f' : M A) : Prop :=
  forall s r s', f s = (r, s') -> r <> Raise RecursionError -> f' s = (r, s').


(** ** The input of the fitness predictor: [NeuralNet.predict] *)

(** The exception of neural_net.py, with what its message reports: the graph,
    the length found and the length allowed. *)
Inductive NeuralNetError : Type :=
| TooManyNodes (graph : DiGraph) (found allowed : nat).

(** Lines 145-152 of neural_net.py: the loop of [predict] over the graphs,
    which builds the list handed to the network.  [dfs_representation] is
    imported from neural_net.training_generation and is a parameter here;
    [_input_len] is the attribute set at training time. *)
Fixpoint predict_loop (dfs_representation : DiGraph -> list Z)
    (_input_len : nat) (graphs : list DiGraph) (representation : list Z)
  : NeuralNetError + list Z :=
  match graphs with
  | [] => inr representation
  | graph :: rest =>
      let graph_repr := dfs_representation graph in
      if _input_len <? List.length graph_repr
      then inl (TooManyNodes graph (List.length graph_repr) _input_len)
      else predict_loop dfs_representation _input_len rest
             (representation ++
              (graph_repr ++
               repeat 0%Z (_input_len - List.length graph_repr)))
  end.

(** [NeuralNet.predict] up to the call of the network: the representation of
    the three graphs.  The network's output is a float and is left out. *)
Definition predict_representation (dfs_representation : DiGraph -> list Z)
    (_input_len : nat) (graph_before graph_after graph_final : DiGraph)
  : NeuralNetError + list Z :=
  predict_loop dfs_representation _input_len
    [graph_before; graph_after; graph_final] [].

(** What line 152 appends for one graph. *)
Definition padded (dfs_representation : DiGraph -> list Z) (_input_len : nat)
    (graph : DiGraph) : list Z :=
  dfs_representation graph ++
  repeat 0%Z (_input_len - List.length (dfs_representation graph)).

(** A stand-in for [dfs_representation] on the examples: one entry per node. *)
Definition node_marks (g : DiGraph) : list Z := map (fun _ => 1%Z) (nodes g).

(** ** The functions of the string example *)

(** for_text/algorithmic_comparison/string_test.py, lines 5-21, on arguments
    that are strings, for which the [isinstance] test of the two predicates
    holds. *)
Definition prefix_check (x : string) : bool := eqb x "banana"%string.

Definition postfix_check (x : string) : bool := eqb x "apple"%string.

Definition add_prefix (x y : string) : string := (y ++ "_" ++ x)%string.

Definition add_postfix (x y : string) : string := (x ++ "_" ++ y)%string.

Definition combine_str (x y : string) : string :=
  (x ++ "_combined_" ++ y)%string.

(** [[c for c in x]]: the one-character strings of [x]. *)
Definition split_str (x : string) : list string :=
  map (fun c => String c EmptyString) (list_ascii_of_string x).


(** ** Further vocabulary: the pattern under the match, and where nodes and
    edges come from *)

(** [descends g n u]: [u] is [n] or is reached from [n] along edges of [g]. *)
Inductive descends (g : DiGraph) : vertex -> vertex -> Prop :=
| descends_here n : descends g n n
| descends_step n c o u :
    In (n, c, o) (edges g) -> descends g c u -> descends g n u.

(** The pattern nodes [_remove_mapped_edges_rec] is called on in the course
    of [apply]: the successors of the sentinel in the input pattern (line
    128) and whatever descends from them (line 76). *)
Definition visited (self : Rule) (u : vertex) : Prop :=
  exists n o,
    In (root_node, n, o) (edges (_graph_in self)) /\
    descends (_graph_in self) n u.

(** The match [m] has images for [u] and [v], and [es] holds an edge from the
    image of [u] to the image of [v]. *)
Definition edge_matched (m : dict vertex vertex)
    (es : list (vertex * vertex * Z)) (u v : vertex) : Prop :=
  exists mu mv o,
    dict_get m u = Some mu /\ dict_get m v = Some mv /\ In (mu, mv, o) es.

(** [made N v]: [v] is a node object created since the allocator stood at
    [N]. *)
Definition made (N : nat) (v : vertex) : Prop :=
  exists i val, v = Node i val /\ N <= i.

(** In a networkx graph the endpoints of every edge are nodes. *)
Definition endpoints_are_nodes (g : DiGraph) : Prop :=
  forall e, In e (edges g) -> In (esrc e) (nodes g) /\ In (etgt e) (nodes g).

(** [known N g0 v]: [v] is a node or an edge endpoint of [g0], the sentinel,
    or a node created since [N]. *)
Definition known (N : nat) (g0 : DiGraph) (v : vertex) : Prop :=
  In v (nodes g0) \/
  (exists e, In e (edges g0) /\ (esrc e = v \/ etgt e = v)) \/
  v = root_node \/ made N v.

(** [inherited g0 e]: [g0] has an edge with the endpoints of [e]. *)
Definition inherited (g0 : DiGraph) (e : vertex * vertex * Z) : Prop :=
  exists e0, In e0 (edges g0) /\ esrc e0 = esrc e /\ etgt e0 = etgt e.

(** What every graph of a run of [apply] on [g0] satisfies: its nodes and
    edge endpoints are known, and an edge that joins no created node is
    inherited from [g0]. *)
Definition grown_from (N : nat) (g0 g : DiGraph) : Prop :=
  (forall v, In v (nodes g) -> known N g0 v) /\
  (forall e, In e (edges g) ->
     known N g0 (esrc e) /\ known N g0 (etgt e) /\
     (made N (esrc e) \/ made N (etgt e) \/ inherited g0 e)).

(** The lists of a [cur_node_dict] hold created nodes only. *)
Definition copies_made (N : nat) (cnd : dict vertex (list vertex)) : Prop :=
  forall k l c, dict_get cnd k = Some l -> In c l -> made N c.

(** The state kept while the output pattern is instantiated on a run grown
    from [g0]. *)
Definition during (N : nat) (g0 : DiGraph) (t : store) : Prop :=
  N <= next_id t /\ grown_from N g0 (_cur_graph t) /\
  copies_made N (_cur_node_dict t).

(** [no_edge g a b]: [g] has no edge from [a] to [b], whatever the order. *)
Definition no_edge (g : DiGraph) (a b : vertex) : Prop :=
  forall o, ~ In (a, b, o) (edges g).

(** ** Inputs of the failure and reattachment statements *)

(** A computation that fails on [s], and not with [BadGraph]. *)
Definition raises_other {A} (c : M A) (s : store) : Prop :=
  exists e s', c s = (Raise e, s') /\ e <> BadGraph.

(** A pattern pair whose input graph has no root sentinel and from which a
    rule is built all the same: line 50 drops the first node, whatever it
    is.  [rootless_built] is that rule. *)
Definition rootless_in : ParserObj :=
  mkParserObj
    (mkDiGraph [Node 1 "a"; Node 2 "b"] [(Node 1 "a", Node 2 "b", 0%Z)])
    ["b"%string].

Definition rootless_out : ParserObj :=
  mkParserObj (mkDiGraph [root_node; Node 3 "b"] [(root_node, Node 3 "b", 0%Z)])
    ["b"%string].

Definition rootless_built : Rule :=
  mkRule (graph rootless_in) (variables_constants rootless_in)
    (graph rootless_out) (variables_constants rootless_out)
    [(Node 2 "b", [Node 3 "b"])] [(Node 3 "b", Node 2 "b")].

(** An output pattern descriptor without the root sentinel, and the rule
    built from the input pattern of [drop_rule] and it. *)
Definition headless_out : ParserObj :=
  mkParserObj (mkDiGraph [Node 2 "h"] []) [].

Definition headless_built : Rule :=
  mkRule (_graph_in drop_rule) (_obj_in drop_rule)
    (graph headless_out) (variables_constants headless_out) [] [].

(** A target graph without the root sentinel: the single value [x]. *)
Definition lone_target : DiGraph := mkDiGraph [Node 10 "x"] [].


(** * Properties *)

(** ** Equality tests, membership and dictionaries *)

Lemma eqb_eq {A} `{EqDec A} (x y : A) : eqb x y = true <-> x = y.
Proof. unfold eqb. destruct (eq_dec x y); split; congruence. Qed.

Lemma eqb_neq {A} `{EqDec A} (x y : A) : eqb x y = false <-> x <> y.
Proof. unfold eqb. destruct (eq_dec x y); split; congruence. Qed.

Lemma eqb_refl {A} `{EqDec A} (x : A) : eqb x x = true.
Proof. apply eqb_eq. reflexivity. Qed.

Lemma eqb_sym {A} `{EqDec A} (x y : A) : eqb x y = eqb y x.
Proof. unfold eqb. destruct (eq_dec x y), (eq_dec y x); congruence. Qed.

Lemma mem_In {A} `{EqDec A} (x : A) (l : list A) : mem x l = true <-> In x l.
Proof.
  unfold mem. rewrite existsb_exists. split.
  - intros [y [Hy He]]. apply eqb_eq in He. now subst.
  - intros Hx. exists x. split; [assumption | apply eqb_refl].
Qed.

Lemma mem_not_In {A} `{EqDec A} (x : A) (l : list A) :
  mem x l = false <-> ~ In x l.
Proof.
  rewrite <- mem_In. destruct (mem x l); split; congruence.
Qed.

Section DictFacts.
Context {K V : Type} `{EqDec K}.

Lemma dict_get_set (d : dict K V) (k k' : K) (v : V) :
  dict_get (dict_set d k v) k' =
  if eq_dec k' k then Some v else dict_get d k'.
Proof.
  induction d as [|[k0 v0] r IH]; simpl.
  - destruct (eq_dec k' k); reflexivity.
  - destruct (eq_dec k k0) as [->|Hk]; simpl.
    + destruct (eq_dec k' k0); reflexivity.
    + destruct (eq_dec k' k0) as [->|Hk'].
      * destruct (eq_dec k0 k); [congruence | reflexivity].
      * apply IH.
Qed.

Lemma dict_get_set_same (d : dict K V) (k : K) (v : V) :
  dict_get (dict_set d k v) k = Some v.
Proof. rewrite dict_get_set. destruct (eq_dec k k); congruence. Qed.

Lemma dict_get_set_other (d : dict K V) (k k' : K) (v : V) :
  k' <> k -> dict_get (dict_set d k v) k' = dict_get d k'.
Proof. intros Hk. rewrite dict_get_set. destruct (eq_dec k' k); congruence. Qed.

Lemma dict_keys_get (d : dict K V) (k : K) :
  In k (dict_keys d) <-> exists v, dict_get d k = Some v.
Proof.
  unfold dict_keys. induction d as [|[k0 v0] r IH]; simpl.
  - split; [tauto | intros [v Hv]; discriminate].
  - destruct (eq_dec k k0) as [->|Hk].
    + split; [eauto | auto].
    + rewrite IH. split; [intros [Hc|Hr]; [congruence | assumption] | auto].
Qed.

Lemma dict_mem_keys (d : dict K V) (k : K) :
  dict_mem d k = true <-> In k (dict_keys d).
Proof.
  rewrite dict_keys_get. unfold dict_mem.
  destruct (dict_get d k); split; eauto; try discriminate.
  intros [v Hv]. discriminate.
Qed.

Lemma dict_mem_false (d : dict K V) (k : K) :
  dict_mem d k = false <-> dict_get d k = None.
Proof. unfold dict_mem. destruct (dict_get d k); split; congruence. Qed.
End DictFacts.

Lemma set_and_In (a b : list string) (p : string) :
  In p (set_and a b) <-> In p a /\ In p b.
Proof.
  unfold set_and. rewrite nodup_In, filter_In, mem_In. tauto.
Qed.

Lemma set_and_NoDup (a b : list string) : NoDup (set_and a b).
Proof. apply NoDup_nodup. Qed.

(** ** Correspondence building *)

Lemma has_value_unique (p q : string) (n : vertex) :
  has_value p n = true -> has_value q n = true -> p = q.
Proof.
  destruct n as [|i v]; simpl; [discriminate|].
  rewrite !eqb_eq. congruence.
Qed.

Lemma last_carrier_In (ns : list vertex) (p : string) (n : vertex) :
  last_carrier ns p = Some n -> In n ns /\ has_value p n = true.
Proof.
  induction ns as [|x r IH]; simpl; [discriminate|].
  destruct (last_carrier r p) as [m|].
  - intros [= ->]. destruct IH; auto.
  - destruct (has_value p x) eqn:Hx; [|discriminate].
    intros [= ->]. auto.
Qed.

Lemma last_carrier_None (ns : list vertex) (p : string) :
  last_carrier ns p = None <-> forall m, In m ns -> has_value p m = false.
Proof.
  induction ns as [|x r IH]; simpl; [tauto|].
  destruct (last_carrier r p) as [m|].
  - split; [discriminate|]. intros Hall. exfalso.
    assert (Hm : Some m = None) by (apply IH; intros; apply Hall; auto).
    discriminate.
  - destruct (has_value p x) eqn:Hx.
    + split; [discriminate|]. intros Hall.
      rewrite Hall in Hx by (simpl; auto). discriminate.
    + split; [|reflexivity]. intros _ y [<-|Hy]; [assumption|].
      now apply IH.
Qed.

(** [last_carrier] reads as said: the node sits in the enumeration, carries
    the payload, and no later node does. *)
Lemma last_carrier_split (ns : list vertex) (p : string) (n : vertex) :
  last_carrier ns p = Some n <->
  exists l1 l2, ns = l1 ++ n :: l2 /\ has_value p n = true /\
                forall m, In m l2 -> has_value p m = false.
Proof.
  split.
  - induction ns as [|x r IH]; simpl; [discriminate|].
    destruct (last_carrier r p) as [m|] eqn:Hr.
    + intros [= ->]. destruct (IH eq_refl) as (l1 & l2 & -> & Hv & Hl2).
      exists (x :: l1), l2. auto.
    + destruct (has_value p x) eqn:Hx; [|discriminate].
      intros [= ->]. exists [], r. repeat split; auto.
      now apply last_carrier_None.
  - intros (l1 & l2 & -> & Hv & Hl2).
    induction l1 as [|y l1 IH]; simpl.
    + apply last_carrier_None in Hl2. now rewrite Hl2, Hv.
    + now rewrite IH.
Qed.

Lemma last_carrier_exists (ns : list vertex) (p : string) (n : vertex) :
  In n ns -> has_value p n = true -> exists m, last_carrier ns p = Some m.
Proof.
  induction ns as [|x r IH]; simpl; [tauto|].
  intros [->|Hin] Hv.
  - destruct (last_carrier r p); [eauto|]. rewrite Hv. eauto.
  - destruct (IH Hin Hv) as [m ->]. eauto.
Qed.

Lemma fill_graph_in_node_dict_get ns : forall d d' p,
  fill_graph_in_node_dict ns d = Ok d' ->
  dict_get d' p =
  match last_carrier ns p with
  | Some n => Some n
  | None => dict_get d p
  end.
Proof.
  induction ns as [|x r IH]; simpl; intros d d' p Hf.
  - now injection Hf as ->.
  - destruct x as [|i v]; simpl in Hf; [discriminate|].
    rewrite (IH _ _ p Hf). destruct (last_carrier r p); [reflexivity|].
    rewrite dict_get_set. simpl. unfold eqb.
    destruct (eq_dec p v) as [Hp|Hp], (eq_dec v p); congruence.
Qed.

Lemma fill_graph_in_node_dict_total ns : forall d,
  ~ In root_node ns -> exists d', fill_graph_in_node_dict ns d = Ok d'.
Proof.
  induction ns as [|x r IH]; simpl; intros d Hr; [eauto|].
  destruct x as [|i v]; [tauto|]. simpl. apply IH. tauto.
Qed.

Lemma scan_unmatched_spec gind obj : forall unmatched rnd acc rnd' objs,
  scan_unmatched gind obj unmatched rnd acc = Ok (rnd', objs) ->
  objs = acc ++ filter (has_value obj) unmatched /\
  forall m, dict_get rnd' m =
            if mem m (filter (has_value obj) unmatched)
            then dict_get gind obj else dict_get rnd m.
Proof.
  induction unmatched as [|x r IH]; simpl; intros rnd acc rnd' objs Hs.
  - injection Hs as -> ->. now rewrite app_nil_r.
  - destruct x as [|i v]; simpl in Hs; [discriminate|]. simpl.
    destruct (eqb v obj) eqn:Hv.
    + unfold dict_getitem in Hs.
      destruct (dict_get gind obj) as [src|] eqn:Hsrc; simpl in Hs;
        [|discriminate].
      destruct (IH _ _ _ _ Hs) as [-> Hget]. split.
      * now rewrite <- app_assoc.
      * intros m. rewrite Hget. simpl.
        destruct (mem m (filter (has_value obj) r)); [now rewrite orb_true_r|].
        rewrite orb_false_r, dict_get_set. unfold eqb.
        destruct (eq_dec m (Node i v)); reflexivity.
    + apply IH. exact Hs.
Qed.

Lemma scan_unmatched_total gind obj src : forall unmatched rnd acc,
  dict_get gind obj = Some src -> ~ In root_node unmatched ->
  exists rnd' objs, scan_unmatched gind obj unmatched rnd acc = Ok (rnd', objs).
Proof.
  induction unmatched as [|x r IH]; simpl; intros rnd acc Hsrc Hroot; [eauto|].
  destruct x as [|i v]; [tauto|]. simpl.
  destruct (eqb v obj).
  - unfold dict_getitem. rewrite Hsrc. simpl. apply IH; tauto.
  - apply IH; tauto.
Qed.

Lemma list_remove_app {A} `{EqDec A} (pre l : list A) (x : A) :
  ~ In x pre -> list_remove (pre ++ x :: l) x = pre ++ l.
Proof.
  induction pre as [|y pre IH]; simpl; intros Hx.
  - destruct (eq_dec x x); congruence.
  - destruct (eq_dec x y) as [->|Hy]; [tauto|]. rewrite IH; tauto.
Qed.

Lemma fold_list_remove_filter {A} `{EqDec A} (f : A -> bool) : forall l pre,
  (forall x, In x pre -> f x = false) ->
  fold_left list_remove (filter f l) (pre ++ l) =
  pre ++ filter (fun x => negb (f x)) l.
Proof.
  induction l as [|x r IH]; simpl; intros pre Hpre; [reflexivity|].
  destruct (f x) eqn:Hx; simpl.
  - rewrite list_remove_app; [now apply IH|].
    intros Hin. apply Hpre in Hin. congruence.
  - change (pre ++ x :: r) with (pre ++ [x] ++ r). rewrite app_assoc.
    rewrite IH.
    + now rewrite <- app_assoc.
    + intros y Hy. apply in_app_or in Hy. destruct Hy as [Hy|[<-|[]]]; auto.
Qed.

Lemma filter_has_value_other (p obj : string) (l : list vertex) :
  p <> obj ->
  filter (has_value p) (filter (fun x => negb (has_value obj x)) l) =
  filter (has_value p) l.
Proof.
  intros Hp. induction l as [|x r IH]; simpl; [reflexivity|].
  destruct (has_value obj x) eqn:Ho; simpl.
  - destruct (has_value p x) eqn:Hx; [|assumption].
    exfalso. apply Hp. eapply has_value_unique; eassumption.
  - now rewrite IH.
Qed.

Section CommonLoop.
Variable gind : dict string vertex.
Hypothesis gind_value :
  forall p n, dict_get gind p = Some n -> has_value p n = true.

Lemma for_common_obj_nd : forall common unmatched nd rnd nd' rnd',
  NoDup common ->
  for_common_obj gind common unmatched nd rnd = Ok (nd', rnd') ->
  forall n,
    (forall p, In p common -> dict_get gind p = Some n ->
               dict_get nd' n = Some (filter (has_value p) unmatched)) /\
    ((forall p, In p common -> dict_get gind p <> Some n) ->
     dict_get nd' n = dict_get nd n).
Proof.
  induction common as [|obj r IH]; simpl;
    intros unmatched nd rnd nd' rnd' Hnd Hf n.
  - injection Hf as -> ->. split; [tauto | reflexivity].
  - destruct (scan_unmatched gind obj unmatched rnd [])
      as [[rnd1 objs]|] eqn:Hscan; simpl in Hf; [|discriminate].
    unfold dict_getitem in Hf.
    destruct (dict_get gind obj) as [src|] eqn:Hsrc; simpl in Hf;
      [|discriminate].
    apply scan_unmatched_spec in Hscan. destruct Hscan as [-> _].
    simpl in Hf.
    rewrite (fold_list_remove_filter (has_value obj) unmatched [])
      in Hf by (simpl; tauto).
    simpl in Hf. inversion_clear Hnd as [|? ? Hobj Hr].
    destruct (IH _ _ _ _ _ Hr Hf n) as [IH1 IH2]. split.
    + intros p [<-|Hp] Hg.
      * rewrite IH2.
        -- replace src with n by congruence. apply dict_get_set_same.
        -- intros q Hq Hgq. apply Hobj.
           replace obj with q; [assumption|].
           eapply has_value_unique; eauto.
      * rewrite (IH1 p Hp Hg). f_equal. apply filter_has_value_other.
        intros ->. contradiction.
    + intros Hall. rewrite IH2 by (intros; apply Hall; auto).
      apply dict_get_set_other. intros ->. apply (Hall obj); auto.
Qed.

Lemma for_common_obj_rnd : forall common unmatched nd rnd nd' rnd',
  NoDup common ->
  for_common_obj gind common unmatched nd rnd = Ok (nd', rnd') ->
  forall m,
    (forall p, In p common -> In m unmatched -> has_value p m = true ->
               dict_get rnd' m = dict_get gind p) /\
    ((forall p, In p common -> In m unmatched -> has_value p m = false) ->
     dict_get rnd' m = dict_get rnd m).
Proof.
  induction common as [|obj r IH]; simpl;
    intros unmatched nd rnd nd' rnd' Hnd Hf m.
  - injection Hf as -> ->. split; [tauto | reflexivity].
  - destruct (scan_unmatched gind obj unmatched rnd [])
      as [[rnd1 objs]|] eqn:Hscan; simpl in Hf; [|discriminate].
    unfold dict_getitem in Hf.
    destruct (dict_get gind obj) as [src|] eqn:Hsrc; simpl in Hf;
      [|discriminate].
    apply scan_unmatched_spec in Hscan. destruct Hscan as [-> Hrnd1].
    simpl in Hf.
    rewrite (fold_list_remove_filter (has_value obj) unmatched [])
      in Hf by (simpl; tauto).
    simpl in Hf. inversion_clear Hnd as [|? ? Hobj Hr].
    destruct (IH _ _ _ _ _ Hr Hf m) as [IH1 IH2]. split.
    + intros p [<-|Hp] Hin Hv.
      * rewrite IH2.
        -- rewrite Hrnd1.
           replace (mem m (filter (has_value obj) unmatched)) with true;
             [congruence|].
           symmetry. apply mem_In, filter_In. auto.
        -- intros q Hq Hqin. apply filter_In in Hqin.
           rewrite Hv in Hqin. destruct Hqin. discriminate.
      * apply IH1; auto. apply filter_In. split; [assumption|].
        destruct (has_value obj m) eqn:Ho; [|reflexivity].
        exfalso. apply Hobj. replace obj with p; [assumption|].
        eapply has_value_unique; eauto.
    + intros Hall. rewrite IH2.
      * rewrite Hrnd1.
        destruct (mem m (filter (has_value obj) unmatched)) eqn:Hm;
          [|reflexivity].
        apply mem_In, filter_In in Hm. destruct Hm as [Hin Hv].
        rewrite (Hall obj) in Hv by auto. discriminate.
      * intros q Hq Hqin. apply filter_In in Hqin. apply Hall; tauto.
Qed.

Lemma for_common_obj_total : forall common unmatched nd rnd,
  (forall p, In p common -> exists n, dict_get gind p = Some n) ->
  ~ In root_node unmatched ->
  exists nd' rnd', for_common_obj gind common unmatched nd rnd = Ok (nd', rnd').
Proof.
  induction common as [|obj r IH]; simpl; intros unmatched nd rnd Hg Hroot;
    [eauto|].
  destruct (Hg obj) as [src Hsrc]; [auto|].
  destruct (scan_unmatched_total gind obj src unmatched rnd [] Hsrc Hroot)
    as (rnd1 & objs & Hscan).
  rewrite Hscan. simpl. unfold dict_getitem. rewrite Hsrc. simpl.
  apply IH; [auto|].
  apply scan_unmatched_spec in Hscan. destruct Hscan as [-> _]. simpl.
  rewrite (fold_list_remove_filter (has_value obj) unmatched [])
    by (simpl; tauto).
  simpl. rewrite filter_In. tauto.
Qed.
End CommonLoop.

(** What [_create_node_dict] computes, payload by payload. *)
Lemma create_node_dict_spec gin oin gout oout nd rnd :
  _create_node_dict gin oin gout oout = Ok (nd, rnd) ->
  (forall n l, dict_get nd n = Some l <->
     exists p, In p (set_and oin oout) /\
               last_carrier (tl (nodes gin)) p = Some n /\
               l = filter (has_value p) (tl (nodes gout))) /\
  (forall m n, dict_get rnd m = Some n <->
     exists p, In p (set_and oin oout) /\
               last_carrier (tl (nodes gin)) p = Some n /\
               In m (tl (nodes gout)) /\ has_value p m = true).
Proof.
  unfold _create_node_dict. intros Hc.
  destruct (fill_graph_in_node_dict (tl (nodes gin)) []) as [gind|] eqn:Hfill;
    simpl in Hc; [|discriminate].
  assert (Hgind : forall p, dict_get gind p = last_carrier (tl (nodes gin)) p).
  { intros p. rewrite (fill_graph_in_node_dict_get _ _ _ p Hfill).
    now destruct (last_carrier (tl (nodes gin)) p). }
  assert (Hval : forall p n, dict_get gind p = Some n -> has_value p n = true).
  { intros p n Hp. rewrite Hgind in Hp. now apply last_carrier_In in Hp. }
  pose proof (set_and_NoDup oin oout) as Hnd.
  pose proof (for_common_obj_nd gind Hval _ _ _ _ _ _ Hnd Hc) as Hn.
  pose proof (for_common_obj_rnd gind _ _ _ _ _ _ Hnd Hc) as Hr.
  set (common := set_and oin oout) in *.
  set (ins := tl (nodes gin)) in *. set (outs := tl (nodes gout)) in *.
  split.
  - intros n l. destruct (Hn n) as [Hn1 Hn2]. split.
    + intros Hl. destruct n as [|i v].
      * rewrite Hn2 in Hl; [discriminate|].
        intros p _ Hp. apply Hval in Hp. discriminate.
      * destruct (in_dec string_dec v common) as [Hv|Hv].
        -- assert (Hpv : forall p, dict_get gind p = Some (Node i v) -> p = v).
           { intros p Hgp. apply Hval in Hgp. simpl in Hgp.
             apply eqb_eq in Hgp. auto. }
           destruct (dict_get gind v) as [n'|] eqn:Hgv.
           ++ destruct (eq_dec n' (Node i v)) as [->|Hne].
              ** exists v. rewrite <- Hgind. repeat split; auto.
                 rewrite (Hn1 v Hv Hgv) in Hl. congruence.
              ** rewrite Hn2 in Hl; [discriminate|].
                 intros p Hp Hgp. pose proof (Hpv p Hgp). subst p. congruence.
           ++ rewrite Hn2 in Hl; [discriminate|].
              intros p Hp Hgp. pose proof (Hpv p Hgp). subst p. congruence.
        -- rewrite Hn2 in Hl; [discriminate|].
           intros p Hp Hgp. apply Hv. replace v with p; [assumption|].
           apply Hval in Hgp. simpl in Hgp. apply eqb_eq in Hgp. auto.
    + intros (p & Hp & Hlast & ->). apply Hn1; [assumption|].
      now rewrite Hgind.
  - intros m n. destruct (Hr m) as [Hr1 Hr2]. split.
    + intros Hm. destruct m as [|j w].
      * rewrite Hr2 in Hm; [discriminate | reflexivity].
      * destruct (in_dec string_dec w common) as [Hw|Hw].
        -- destruct (in_dec eq_dec (Node j w) outs) as [Hin|Hin].
           ++ exists w. rewrite <- Hgind.
              rewrite (Hr1 w Hw Hin) in Hm by (simpl; apply eqb_refl).
              repeat split; auto. simpl. apply eqb_refl.
           ++ rewrite Hr2 in Hm; [discriminate|]. intros; contradiction.
        -- rewrite Hr2 in Hm; [discriminate|].
           intros p Hp _. simpl. apply eqb_neq. intros ->. contradiction.
    + intros (p & Hp & Hlast & Hin & Hv). rewrite (Hr1 p Hp Hin Hv).
      now rewrite Hgind.
Qed.

(** C4 (as amended): when correspondence building returns, the keys of
    [node_dict] are, for each payload in the intersection of the two payload
    sets, the non-root input node enumerated last among those carrying it;
    each key maps to the list of all non-root output nodes carrying that
    payload; an output node sits under at most one key (and once, the output
    nodes being distinct); and [reverse_node_dict] maps an output node to
    exactly the key whose list holds it. *)
Theorem create_node_dict_correspondence gin oin gout oout nd rnd :
  _create_node_dict gin oin gout oout = Ok (nd, rnd) ->
  (forall n, In n (dict_keys nd) <->
     exists p, In p (set_and oin oout) /\
               last_carrier (tl (nodes gin)) p = Some n) /\
  (forall n l, dict_get nd n = Some l ->
     exists p, has_value p n = true /\
               l = filter (has_value p) (tl (nodes gout))) /\
  (forall m n1 n2 l1 l2,
     dict_get nd n1 = Some l1 -> dict_get nd n2 = Some l2 ->
     In m l1 -> In m l2 -> n1 = n2) /\
  (NoDup (tl (nodes gout)) ->
   forall n l, dict_get nd n = Some l -> NoDup l) /\
  (forall m n, dict_get rnd m = Some n <->
     exists l, dict_get nd n = Some l /\ In m l).
Proof.
  intros Hc. destruct (create_node_dict_spec _ _ _ _ _ _ Hc) as [Hnd Hrnd].
  repeat split.
  - intros Hn. apply dict_keys_get in Hn. destruct Hn as [l Hl].
    apply Hnd in Hl. destruct Hl as (p & Hp & Hlast & _). eauto.
  - intros (p & Hp & Hlast). apply dict_keys_get.
    exists (filter (has_value p) (tl (nodes gout))). apply Hnd. eauto.
  - intros n l Hl. apply Hnd in Hl. destruct Hl as (p & Hp & Hlast & ->).
    exists p. split; [|reflexivity]. now apply last_carrier_In in Hlast.
  - intros m n1 n2 l1 l2 H1 H2 Hm1 Hm2.
    apply Hnd in H1, H2.
    destruct H1 as (p1 & _ & Hlast1 & ->), H2 as (p2 & _ & Hlast2 & ->).
    apply filter_In in Hm1, Hm2.
    assert (p1 = p2) by (eapply has_value_unique; [apply Hm1 | apply Hm2]).
    congruence.
  - intros Hout n l Hl. apply Hnd in Hl. destruct Hl as (p & _ & _ & ->).
    now apply NoDup_filter.
  - intros Hm. apply Hrnd in Hm. destruct Hm as (p & Hp & Hlast & Hin & Hv).
    exists (filter (has_value p) (tl (nodes gout))). split.
    + apply Hnd. eauto.
    + apply filter_In. auto.
  - intros (l & Hl & Hm). apply Hnd in Hl.
    destruct Hl as (p & Hp & Hlast & ->). apply filter_In in Hm.
    apply Hrnd. exists p. tauto.
Qed.

(** C4, witness: the pattern pair [f(a, a)] / [a]. *)
Lemma create_node_dict_correspondence_witness :
  _create_node_dict twice_in ["a"%string] single_out ["a"%string] =
    Ok ([(Node 3 "a", [Node 4 "a"])], [(Node 4 "a", Node 3 "a")]) /\
  forall m n,
    dict_get [(Node 4 "a", Node 3 "a")] m = Some n <->
    exists l, dict_get [(Node 3 "a", [Node 4 "a"])] n = Some l /\ In m l.
Proof.
  split; [reflexivity|].
  apply (create_node_dict_correspondence twice_in ["a"%string]
           single_out ["a"%string]).
  reflexivity.
Defined.

(** C4, counterexample: on [f(a, a)] / [a] the first [a] of the input pattern
    carries a payload of the intersection and is no key of [node_dict]. *)
Lemma create_node_dict_keys_counterexample :
  exists nd rnd,
    _create_node_dict twice_in ["a"%string] single_out ["a"%string] =
      Ok (nd, rnd) /\
    ~ keys_are_all_shared_carriers twice_in ["a"%string] ["a"%string] nd.
Proof.
  eexists. eexists. split; [reflexivity|].
  intros Hkeys. destruct (Hkeys (Node 2 "a")) as [_ Hin].
  assert (Hk : In (Node 2 "a") (dict_keys [(Node 3 "a", [Node 4 "a"])])).
  { apply Hin. split; [simpl; auto|].
    exists "a"%string. split; [reflexivity | simpl; auto]. }
  simpl in Hk. destruct Hk as [Hk|[]]. discriminate.
Qed.

(** C10 (as amended): when the sentinel is nowhere but first in both node
    enumerations and every payload of the intersection is carried by a
    non-root input node, two distinct non-root input nodes carrying one
    payload of the intersection do not make correspondence building raise:
    it returns, every output node of that payload is bound to the input node
    enumerated last, and every other carrier of the payload is absent from the
    keys of [node_dict] and from the values of [reverse_node_dict]. *)
Theorem duplicate_payload_binds_last gin oin gout oout n1 n2 p :
  ~ In root_node (tl (nodes gin)) ->
  ~ In root_node (tl (nodes gout)) ->
  (forall q, In q (set_and oin oout) ->
             exists n, In n (tl (nodes gin)) /\ has_value q n = true) ->
  In n1 (tl (nodes gin)) -> In n2 (tl (nodes gin)) -> n1 <> n2 ->
  has_value p n1 = true -> has_value p n2 = true ->
  In p (set_and oin oout) ->
  exists nd rnd last,
    _create_node_dict gin oin gout oout = Ok (nd, rnd) /\
    last_carrier (tl (nodes gin)) p = Some last /\
    (forall m, In m (tl (nodes gout)) -> has_value p m = true ->
               dict_get rnd m = Some last) /\
    (forall n, In n (tl (nodes gin)) -> has_value p n = true -> n <> last ->
               ~ In n (dict_keys nd) /\ forall m, dict_get rnd m <> Some n).
Proof.
  intros Hrin Hrout Hcar Hn1 Hn2 Hne Hv1 Hv2 Hp.
  destruct (fill_graph_in_node_dict_total (tl (nodes gin)) [] Hrin)
    as [gind Hfill].
  assert (Hgind : forall q, dict_get gind q = last_carrier (tl (nodes gin)) q).
  { intros q. rewrite (fill_graph_in_node_dict_get _ _ _ q Hfill).
    now destruct (last_carrier (tl (nodes gin)) q). }
  destruct (for_common_obj_total gind (set_and oin oout) (tl (nodes gout))
              [] []) as (nd & rnd & Hloop); [|assumption|].
  { intros q Hq. destruct (Hcar q Hq) as (n & Hn & Hv).
    rewrite Hgind. eapply last_carrier_exists; eassumption. }
  assert (Hc : _create_node_dict gin oin gout oout = Ok (nd, rnd)).
  { unfold _create_node_dict. rewrite Hfill. exact Hloop. }
  destruct (last_carrier_exists _ _ _ Hn1 Hv1) as [last Hlast].
  destruct (create_node_dict_spec _ _ _ _ _ _ Hc) as [Hnd Hrnd].
  exists nd, rnd, last. repeat split; auto.
  - intros m Hm Hvm. apply Hrnd. exists p. auto.
  - intros Hk. apply dict_keys_get in Hk. destruct Hk as [l Hl].
    apply Hnd in Hl. destruct Hl as (q & _ & Hq & _).
    assert (q = p).
    { apply last_carrier_In in Hq. eapply has_value_unique; [apply Hq | auto]. }
    subst q. congruence.
  - intros m Hm. apply Hrnd in Hm. destruct Hm as (q & _ & Hq & _).
    assert (q = p).
    { apply last_carrier_In in Hq. eapply has_value_unique; [apply Hq | auto]. }
    subst q. congruence.
Qed.

(** C10, witness: the two [a] nodes of [f(a, a)]. *)
Lemma duplicate_payload_binds_last_witness :
  exists nd rnd last,
    _create_node_dict twice_in ["a"%string] single_out ["a"%string] =
      Ok (nd, rnd) /\
    last_carrier (tl (nodes twice_in)) "a" = Some last /\
    (forall m, In m (tl (nodes single_out)) -> has_value "a" m = true ->
               dict_get rnd m = Some last) /\
    (forall n, In n (tl (nodes twice_in)) -> has_value "a" n = true ->
               n <> last ->
               ~ In n (dict_keys nd) /\ forall m, dict_get rnd m <> Some n).
Proof.
  apply (duplicate_payload_binds_last twice_in ["a"%string] single_out
           ["a"%string] (Node 2 "a") (Node 3 "a") "a"%string).
  - simpl. intuition discriminate.
  - simpl. intuition discriminate.
  - intros q Hq. exists (Node 2 "a"). simpl in Hq.
    destruct Hq as [<-|[]]. split; [simpl; auto | reflexivity].
  - simpl. auto.
  - simpl. auto.
  - discriminate.
  - reflexivity.
  - reflexivity.
  - simpl. auto.
Defined.

(** C10, counterexample: in [f(f(a))] two input nodes carry [f], which is no
    payload of the intersection; building returns and the [f] node of the
    output pattern [f(a)] is bound to neither. *)
Lemma duplicates_bind_last_counterexample :
  ~ duplicates_bind_last nested_in ["a"%string] nested_out ["a"%string].
Proof.
  intros Hd.
  destruct (Hd (Node 1 "f") (Node 2 "f") "f"%string)
    as (nd & rnd & last & Hc & _ & Hbind & _);
    try (simpl; auto; fail); try discriminate.
  assert (Hr : rnd = [(Node 5 "a", Node 3 "a")]).
  { cbv in Hc. congruence. }
  subst rnd.
  specialize (Hbind (Node 4 "f")). simpl in Hbind.
  assert (Hnone : @None vertex = Some last) by (apply Hbind; auto).
  discriminate.
Qed.

(** ** The state-and-exception monad *)

Lemma bind_Ok {A B} (m : M A) (f : A -> M B) s b s' :
  bind m f s = (Ok b, s') ->
  exists a s1, m s = (Ok a, s1) /\ f a s1 = (Ok b, s').
Proof.
  unfold bind. destruct (m s) as [[a|e] s1]; [eauto | discriminate].
Qed.

Lemma bind_Raise {A B} (m : M A) (f : A -> M B) s e s' :
  bind m f s = (Raise e, s') ->
  m s = (Raise e, s') \/
  exists a s1, m s = (Ok a, s1) /\ f a s1 = (Raise e, s').
Proof.
  unfold bind. destruct (m s) as [[a|e1] s1]; [eauto|].
  intros [= -> ->]. auto.
Qed.

(** ** The rules of the examples are what [Rule.__init__] builds *)

Lemma prefix_rule_init :
  Rule_init
    (mkParserObj (_graph_in prefix_rule) (_obj_in prefix_rule))
    (mkParserObj (_graph_out prefix_rule) (_obj_out prefix_rule))
  = Ok prefix_rule.
Proof. reflexivity. Qed.

Lemma drop_rule_init :
  Rule_init
    (mkParserObj (_graph_in drop_rule) (_obj_in drop_rule))
    (mkParserObj (_graph_out drop_rule) (_obj_out drop_rule))
  = Ok drop_rule.
Proof. reflexivity. Qed.

Lemma pair_rule_init :
  Rule_init
    (mkParserObj (_graph_in pair_rule) (_obj_in pair_rule))
    (mkParserObj (_graph_out pair_rule) (_obj_out pair_rule))
  = Ok pair_rule.
Proof. reflexivity. Qed.

Lemma rename_rule_init :
  Rule_init
    (mkParserObj (_graph_in rename_rule) (_obj_in rename_rule))
    (mkParserObj (_graph_out rename_rule) (_obj_out rename_rule))
  = Ok rename_rule.
Proof. reflexivity. Qed.


(** ** Copy mode *)

(** C1: with [deepcopy_graph=True] every call raises TypeError at the call of
    [_copy_apply_graph], before anything is touched: the caller's graph and
    the store are as they were, and no copy is made or returned. *)
Theorem apply_deepcopy_raises self depth graph transform_node_dict s :
  apply self depth graph transform_node_dict true s = (Raise TypeError, s).
Proof. reflexivity. Qed.

(** ** The returned value *)




(** ** Graph operations *)

Lemma has_node_In (g : DiGraph) (n : vertex) :
  has_node g n = true <-> In n (nodes g).
Proof. apply mem_In. Qed.

Lemma remove_node_Ok (n : vertex) (g : DiGraph) :
  has_node g n = true ->
  remove_node n g =
  Ok (mkDiGraph (filter (fun m => negb (eqb m n)) (nodes g))
        (filter (fun e => negb (eqb (esrc e) n) && negb (eqb (etgt e) n))
           (edges g))).
Proof. unfold remove_node. now intros ->. Qed.

Lemma has_node_remove_node (n : vertex) (g g' : DiGraph) :
  remove_node n g = Ok g' -> has_node g' n = false.
Proof.
  unfold remove_node. destruct (has_node g n); [|discriminate].
  intros [= <-]. apply mem_not_In. simpl. rewrite filter_In.
  intros [_ Hn]. now rewrite eqb_refl in Hn.
Qed.

Lemma length_0_nil {A} (l : list A) : (List.length l =? 0) = true <-> l = [].
Proof.
  destruct l; simpl; split; try reflexivity; discriminate.
Qed.

Lemma in_edges_root (g : DiGraph) (x : vertex) :
  In root_node (map esrc (in_edges g x)) <->
  exists o, In (root_node, x, o) (edges g).
Proof.
  unfold in_edges. rewrite in_map_iff. split.
  - intros ([[u v] o] & Hu & He). apply filter_In in He.
    destruct He as [He Hv]. apply eqb_eq in Hv.
    unfold esrc, etgt in *. simpl in *. subst. eauto.
  - intros [o Ho]. exists (root_node, x, o). split; [reflexivity|].
    apply filter_In. split; [assumption | apply eqb_refl].
Qed.

(** ** Orphan collection *)

(** The run of [drop_rule] on [shared_target]: the matched node [x], an
    argument of [G] and a child of the root, is deleted. *)
Lemma drop_run :
  apply drop_rule 50 shared_target [(Node 1 "a", Node 10 "x")] false
    (fresh_store 100) =
  (Ok None,
   mkStore
     (mkDiGraph [root_node; Node 11 "G"; Node 100 "h"]
        [(root_node, Node 11 "G", 1%Z); (root_node, Node 100 "h", (-1)%Z)])
     [(Node 1 "a", Node 10 "x")] [] 101).
Proof. reflexivity. Qed.

(** C5 (as amended): a matched node of the graph that is no key of
    [cur_node_dict] is visited without raising, and it is deleted exactly
    when, at the visit, it has out-degree zero and either in-degree zero or
    the root among its predecessors; in every other case the graph is left
    as it was. *)
Theorem orphan_collection rtd cnd x s :
  dict_get cnd x = None ->
  has_node (_cur_graph s) x = true ->
  exists s',
    apply_graph_node rtd cnd x s = (Ok tt, s') /\
    (has_node (_cur_graph s') x = false <->
     out_edges (_cur_graph s) x = [] /\
     (in_edges (_cur_graph s) x = [] \/
      exists o, In (root_node, x, o) (edges (_cur_graph s)))) /\
    (has_node (_cur_graph s') x = true -> s' = s).
Proof.
  intros Hcnd Hx. unfold apply_graph_node. rewrite Hcnd.
  unfold collect_orphan, bind, gets, lift, out_degree_is_0, in_degree_is_0.
  rewrite Hx. simpl.
  assert (Hdel : exists s',
             graph_try (remove_node x) s = (Ok tt, s') /\
             has_node (_cur_graph s') x = false).
  { unfold graph_try. rewrite (remove_node_Ok _ _ Hx).
    eexists. split; [reflexivity|]. simpl.
    eapply has_node_remove_node. apply (remove_node_Ok _ _ Hx). }
  destruct Hdel as (sd & Hrun & Hgone).
  destruct (List.length (out_edges (_cur_graph s) x) =? 0) eqn:Hout.
  - apply length_0_nil in Hout.
    destruct (List.length (in_edges (_cur_graph s) x) =? 0) eqn:Hin.
    + apply length_0_nil in Hin. exists sd.
      split; [assumption|]. split; [tauto|].
      rewrite Hgone. discriminate.
    + unfold lift, predecessors. rewrite Hx.
      destruct (mem root_node (map esrc (in_edges (_cur_graph s) x))) eqn:Hr.
      * apply mem_In, in_edges_root in Hr. exists sd.
        split; [assumption|]. split; [tauto|].
        rewrite Hgone. discriminate.
      * exists s. split; [reflexivity|]. split; [|reflexivity]. split.
        -- rewrite Hx. discriminate.
        -- intros [_ [Hnil|Hroot]].
           ++ rewrite Hnil in Hin. discriminate.
           ++ apply in_edges_root, mem_In in Hroot. congruence.
  - exists s. split; [reflexivity|]. split; [|reflexivity]. split.
    + rewrite Hx. discriminate.
    + intros [Hnil _]. rewrite Hnil in Hout. discriminate.
Qed.

(** C5, witness: the visit of [x] in the run of [drop_rule]. *)
Lemma orphan_collection_witness :
  exists s',
    apply_graph_node [(Node 10 "x", Node 1 "a")] [] (Node 10 "x")
      drop_visit_store = (Ok tt, s') /\
    (has_node (_cur_graph s') (Node 10 "x") = false <->
     out_edges (_cur_graph drop_visit_store) (Node 10 "x") = [] /\
     (in_edges (_cur_graph drop_visit_store) (Node 10 "x") = [] \/
      exists o,
        In (root_node, Node 10 "x", o) (edges (_cur_graph drop_visit_store)))) /\
    (has_node (_cur_graph s') (Node 10 "x") = true -> s' = drop_visit_store).
Proof.
  apply (orphan_collection [(Node 10 "x", Node 1 "a")] [] (Node 10 "x")
           drop_visit_store); reflexivity.
Defined.

(** C5, counterexample: [x] has out-degree zero and the two predecessors
    root and [G]; the root is not its only predecessor, and the visit deletes
    it. *)
Lemma orphan_iff_only_root_counterexample :
  ~ orphan_iff_only_root [(Node 10 "x", Node 1 "a")] [] (Node 10 "x")
      drop_visit_store.
Proof.
  intros Hiff.
  destruct (Hiff (mkStore
                    (mkDiGraph [root_node; Node 11 "G"; Node 100 "h"]
                       [(root_node, Node 11 "G", 1%Z);
                        (root_node, Node 100 "h", (-1)%Z)])
                    [(Node 1 "a", Node 10 "x")] [] 101) eq_refl)
    as [Hdel _].
  destruct (Hdel eq_refl) as [_ [Hin|Hpred]]; cbv in Hin || cbv in Hpred;
    discriminate.
Qed.

(** ** Duplication and reachability on the runs of the examples *)

(** C7: the run of [a -> pair(a, a)] on the target [G(x)].  Two new nodes
    101 and 102 carry the payload of [x], but the visit of [x] looks the
    target node up in [cur_node_dict], whose keys are input-pattern nodes
    (line 85 against line 137): [x] is not found, [G], the predecessor of [x]
    outside the match, is wired to neither copy, and [x] stays. *)
Theorem pair_run_copies_not_rewired :
  apply pair_rule 50 call_target [(Node 1 "a", Node 10 "x")] false
    (fresh_store 100) =
  (Ok None,
   mkStore
     (mkDiGraph
        [root_node; Node 11 "G"; Node 10 "x";
         Node 100 "pair"; Node 101 "x"; Node 102 "x"]
        [(root_node, Node 11 "G", 0%Z); (Node 11 "G", Node 10 "x", 0%Z);
         (root_node, Node 100 "pair", (-1)%Z);
         (Node 100 "pair", Node 101 "x", 0%Z);
         (Node 100 "pair", Node 102 "x", 1%Z)])
     [(Node 1 "a", Node 10 "x")]
     [(Node 1 "a", [Node 101 "x"; Node 102 "x"])]
     103).
Proof. reflexivity. Qed.

(** C8: the run of [f(a) -> h(a)] on the target [F(x(y))], all of whose nodes
    are reachable from the root.  The call completes; the old node [x] is
    still in the graph with its successor [y], and has no path from the root
    any more. *)
Theorem rename_run_leaves_unreachable :
  all_reachable nested_target /\
  exists s',
    apply rename_rule 50 nested_target
      [(Node 1 "f", Node 10 "F"); (Node 2 "a", Node 11 "x")] false
      (fresh_store 100) = (Ok None, s') /\
    In (Node 11 "x") (nodes (_cur_graph s')) /\
    ~ reachable (_cur_graph s') (Node 11 "x").
Proof.
  split.
  - assert (H0 : reachable nested_target root_node) by constructor.
    assert (H1 : reachable nested_target (Node 10 "F")).
    { apply (reach_step nested_target root_node _ 0%Z H0). simpl. auto. }
    assert (H2 : reachable nested_target (Node 11 "x")).
    { apply (reach_step nested_target (Node 10 "F") _ 0%Z H1). simpl. auto. }
    assert (H3 : reachable nested_target (Node 12 "y")).
    { apply (reach_step nested_target (Node 11 "x") _ 0%Z H2). simpl. auto. }
    intros n Hn. simpl in Hn.
    destruct Hn as [<-|[<-|[<-|[<-|[]]]]]; assumption.
  - eexists. split; [reflexivity|]. simpl. split; [auto|].
    intros Hr. inversion Hr as [|u v o _ He Hv]. simpl in He.
    destruct He as [He|[He|[He|[]]]]; discriminate.
Qed.

(** ** Exception kinds *)

Lemma nb_ret {A} (a : A) : no_BadGraph (ret a).
Proof. intros s s'. unfold ret. congruence. Qed.

Lemma nb_raise {A} (e : exn) : e <> BadGraph -> no_BadGraph (@raise A e).
Proof. intros He s s'. unfold raise. congruence. Qed.

Lemma nb_bind {A B} (m : M A) (f : A -> M B) :
  no_BadGraph m -> (forall a, no_BadGraph (f a)) -> no_BadGraph (bind m f).
Proof.
  intros Hm Hf s s' Hrun. apply bind_Raise in Hrun.
  destruct Hrun as [Hrun|(a & s1 & _ & Hrun)].
  - exact (Hm _ _ Hrun).
  - exact (Hf _ _ _ Hrun).
Qed.

Lemma nb_lift {A} (r : result A) : r <> Raise BadGraph -> no_BadGraph (lift r).
Proof. intros Hr s s'. unfold lift. congruence. Qed.

Lemma nb_gets {A} (f : store -> A) : no_BadGraph (gets f).
Proof. intros s s'. unfold gets. congruence. Qed.

Lemma nb_modify (f : store -> store) : no_BadGraph (modify f).
Proof. intros s s'. unfold modify. congruence. Qed.

Lemma nb_graph_do (f : DiGraph -> DiGraph) : no_BadGraph (graph_do f).
Proof. apply nb_modify. Qed.

Lemma nb_graph_get {A} (f : DiGraph -> result A) :
  (forall g, f g <> Raise BadGraph) -> no_BadGraph (graph_get f).
Proof. intros Hf s s'. unfold graph_get. intros [= Hr _]. exact (Hf _ Hr). Qed.

Lemma nb_graph_try (f : DiGraph -> result DiGraph) :
  (forall g, f g <> Raise BadGraph) -> no_BadGraph (graph_try f).
Proof.
  intros Hf s s'. unfold graph_try.
  destruct (f (_cur_graph s)) as [g|e] eqn:Hr; [congruence|].
  intros [= -> _]. exact (Hf _ Hr).
Qed.

Lemma nb_new_Node (v : string) : no_BadGraph (new_Node v).
Proof. intros s s'. unfold new_Node. congruence. Qed.

Lemma nb_forM_ {A} (l : list A) (f : A -> M unit) :
  (forall x, no_BadGraph (f x)) -> no_BadGraph (forM_ l f).
Proof.
  intros Hf. induction l as [|x r IH]; simpl.
  - apply nb_ret.
  - apply nb_bind; [apply Hf | intros _; exact IH].
Qed.

Lemma successors_not_BadGraph g n : successors g n <> Raise BadGraph.
Proof. unfold successors. destruct (has_node g n); discriminate. Qed.

Lemma predecessors_not_BadGraph g n : predecessors g n <> Raise BadGraph.
Proof. unfold predecessors. destruct (has_node g n); discriminate. Qed.

Lemma edge_order_not_BadGraph g u v : edge_order g u v <> Raise BadGraph.
Proof. unfold edge_order. destruct (get_edge_data g u v); discriminate. Qed.

Lemma remove_edge_not_BadGraph u v g : remove_edge u v g <> Raise BadGraph.
Proof. unfold remove_edge. destruct (get_edge_data g u v); discriminate. Qed.

Lemma remove_node_not_BadGraph n g : remove_node n g <> Raise BadGraph.
Proof. unfold remove_node. destruct (has_node g n); discriminate. Qed.

Lemma dict_getitem_not_BadGraph {K V} `{EqDec K} (d : dict K V) (k : K) :
  dict_getitem d k <> Raise BadGraph.
Proof. unfold dict_getitem. destruct (dict_get d k); discriminate. Qed.

Lemma node_value_not_BadGraph n : node_value n <> Raise BadGraph.
Proof. destruct n; discriminate. Qed.

Lemma out_degree_not_BadGraph g n : out_degree_is_0 g n <> Raise BadGraph.
Proof.
  unfold out_degree_is_0. destruct (has_node g n), n; discriminate.
Qed.

Lemma in_degree_not_BadGraph g n : in_degree_is_0 g n <> Raise BadGraph.
Proof.
  unfold in_degree_is_0. destruct (has_node g n), n; discriminate.
Qed.

Create HintDb nb.

#[local] Hint Resolve nb_ret nb_gets nb_modify nb_graph_do nb_new_Node
  successors_not_BadGraph predecessors_not_BadGraph edge_order_not_BadGraph
  remove_edge_not_BadGraph remove_node_not_BadGraph dict_getitem_not_BadGraph
  node_value_not_BadGraph out_degree_not_BadGraph in_degree_not_BadGraph : nb.

Ltac nb_steps :=
  repeat match goal with
    | |- forall _, _ => intro
    | |- _ <> _ => solve [discriminate | auto with nb]
    | |- no_BadGraph (if ?b then _ else _) => destruct b
    | |- no_BadGraph (match ?o with Some _ => _ | None => _ end) => destruct o
    | |- no_BadGraph _ =>
        first [ solve [auto with nb]
              | apply nb_raise; discriminate
              | apply nb_bind
              | apply nb_forM_
              | apply nb_lift
              | apply nb_graph_get
              | apply nb_graph_try ]
    end.

Lemma nb_remove_mapped_edges_rec self depth :
  forall node, no_BadGraph (_remove_mapped_edges_rec self depth node).
Proof.
  induction depth as [|d IH]; intros node; simpl; nb_steps.
Qed.

Lemma nb_copy_output_node self node :
  no_BadGraph (_copy_output_node self node).
Proof.
  unfold _copy_output_node, cur_node_dict_append. nb_steps.
Qed.

Lemma nb_add_output_graph_rec self depth :
  forall n c, no_BadGraph (_add_output_graph_rec self depth n c).
Proof.
  pose proof (nb_copy_output_node self) as Hcopy.
  induction depth as [|d IH]; intros n c; simpl; nb_steps.
Qed.

Lemma nb_add_output_graph self depth :
  no_BadGraph (_add_output_graph self depth).
Proof.
  pose proof (nb_copy_output_node self) as Hcopy.
  pose proof (nb_add_output_graph_rec self depth) as Hrec.
  unfold _add_output_graph. nb_steps.
Qed.

Lemma nb_apply_graph_node rtd cnd x : no_BadGraph (apply_graph_node rtd cnd x).
Proof.
  unfold apply_graph_node, reattach_pred, reattach_suc, collect_orphan.
  nb_steps.
Qed.

Lemma nb_apply self depth g m copy : no_BadGraph (apply self depth g m copy).
Proof.
  pose proof (nb_remove_mapped_edges_rec self depth) as Hrem.
  pose proof (nb_add_output_graph self depth) as Hadd.
  pose proof nb_apply_graph_node as Hnode.
  unfold apply, _copy_apply_graph. nb_steps.
Qed.

Lemma fill_graph_in_node_dict_raises ns : forall d e,
  fill_graph_in_node_dict ns d = Raise e -> e = AttributeError.
Proof.
  induction ns as [|x r IH]; simpl; intros d e Hf; [discriminate|].
  destruct x as [|i v]; simpl in Hf; [congruence | eauto].
Qed.

Lemma scan_unmatched_raises gind obj : forall unmatched rnd acc e,
  scan_unmatched gind obj unmatched rnd acc = Raise e ->
  e = AttributeError \/ e = KeyError.
Proof.
  induction unmatched as [|x r IH]; simpl; intros rnd acc e Hs; [discriminate|].
  destruct x as [|i v]; simpl in Hs; [left; congruence|].
  destruct (eqb v obj); [|eauto].
  unfold dict_getitem in Hs. destruct (dict_get gind obj); simpl in Hs;
    [eauto | right; congruence].
Qed.

Lemma for_common_obj_raises gind : forall common unmatched nd rnd e,
  for_common_obj gind common unmatched nd rnd = Raise e ->
  e = AttributeError \/ e = KeyError.
Proof.
  induction common as [|obj r IH]; simpl; intros unmatched nd rnd e Hf;
    [discriminate|].
  destruct (scan_unmatched gind obj unmatched rnd []) as [[rnd1 objs]|e1]
    eqn:Hscan; simpl in Hf.
  - unfold dict_getitem in Hf. destruct (dict_get gind obj); simpl in Hf;
      [eauto | right; congruence].
  - injection Hf as <-. eapply scan_unmatched_raises; eassumption.
Qed.

Lemma Rule_init_raises pin pout e :
  Rule_init pin pout = Raise e -> e = AttributeError \/ e = KeyError.
Proof.
  unfold Rule_init, _create_node_dict. intros Hr.
  destruct (fill_graph_in_node_dict (tl (nodes (graph pin))) [])
    as [gind|e1] eqn:Hfill; simpl in Hr.
  - destruct (for_common_obj gind
                (set_and (variables_constants pin) (variables_constants pout))
                (tl (nodes (graph pout))) [] []) as [[nd rnd]|e2] eqn:Hloop;
      simpl in Hr; [discriminate|].
    injection Hr as <-. eapply for_common_obj_raises; eassumption.
  - injection Hr as <-. left. eapply fill_graph_in_node_dict_raises; eassumption.
Qed.

(** ** Out-edges under the graph operations *)

Lemma out_edges_In (g : DiGraph) (n : vertex) e :
  In e (out_edges g n) <-> In e (edges g) /\ esrc e = n.
Proof. unfold out_edges. rewrite filter_In, eqb_eq. tauto. Qed.

Lemma filter_all {A} (f : A -> bool) (l : list A) :
  (forall x, In x l -> f x = true) -> filter f l = l.
Proof.
  induction l as [|x r IH]; simpl; intros Hall; [reflexivity|].
  rewrite Hall by auto. f_equal. apply IH. auto.
Qed.

Lemma filter_none {A} (f : A -> bool) (l : list A) :
  (forall x, In x l -> f x = false) -> filter f l = [].
Proof.
  induction l as [|x r IH]; simpl; intros Hall; [reflexivity|].
  rewrite Hall by auto. apply IH. auto.
Qed.

Lemma filter_same_or_drops {A} (f : A -> bool) (l : list A) :
  filter f l = l \/ exists x, In x l /\ f x = false.
Proof.
  induction l as [|x r IH]; simpl; [auto|].
  destruct (f x) eqn:Hx.
  - destruct IH as [->|(y & Hy & Hfy)]; [auto|]. right. eauto.
  - right. eauto.
Qed.

Lemma filter_twice {A} (f h : A -> bool) (l : list A) :
  filter f (filter h l) = filter (fun x => h x && f x) l.
Proof.
  induction l as [|x r IH]; simpl; [reflexivity|].
  destruct (h x); simpl; [destruct (f x)|]; now rewrite IH.
Qed.

Lemma filter_same_test {A} (f h : A -> bool) (l : list A) :
  (forall x, In x l -> f x = h x) -> filter f l = filter h l.
Proof.
  induction l as [|x r IH]; simpl; intros Hall; [reflexivity|].
  rewrite (Hall x) by auto. destruct (h x); rewrite IH; auto.
Qed.

Lemma set_edge_In (es : list (vertex * vertex * Z)) u v o e :
  In e (set_edge es u v o) -> e = (u, v, o) \/ In e es.
Proof.
  induction es as [|a r IH]; simpl.
  - intros [<-|[]]. auto.
  - destruct (eqb (esrc a) u && eqb (etgt a) v); simpl.
    + intros [<-|Hr]; auto.
    + intros [<-|Hr]; [auto|]. destruct (IH Hr); auto.
Qed.

Lemma set_edge_In_new (es : list (vertex * vertex * Z)) u v o :
  In (u, v, o) (set_edge es u v o).
Proof.
  induction es as [|a r IH]; simpl; [auto|].
  destruct (eqb (esrc a) u && eqb (etgt a) v); simpl; auto.
Qed.

Lemma set_edge_In_old (es : list (vertex * vertex * Z)) u v o e :
  In e es -> esrc e <> u \/ etgt e <> v -> In e (set_edge es u v o).
Proof.
  induction es as [|a r IH]; simpl; [tauto|].
  intros [->|Hr] Hne.
  - replace (eqb (esrc e) u && eqb (etgt e) v) with false; [simpl; auto|].
    symmetry. apply andb_false_iff. rewrite !eqb_neq. exact Hne.
  - destruct (eqb (esrc a) u && eqb (etgt a) v) eqn:Ha; simpl; [|auto].
    right. exact Hr.
Qed.

Lemma out_edges_add_edge_other u v o g n :
  u <> n -> out_edges (add_edge u v o g) n = out_edges g n.
Proof.
  intros Hu. unfold out_edges, add_edge. simpl.
  induction (edges g) as [|a r IH]; simpl.
  - unfold esrc at 1. simpl. now rewrite (proj2 (eqb_neq u n) Hu).
  - destruct (eqb (esrc a) u && eqb (etgt a) v) eqn:Ha; simpl.
    + apply andb_true_iff in Ha. destruct Ha as [Ha _]. apply eqb_eq in Ha.
      unfold esrc at 1. simpl.
      rewrite (proj2 (eqb_neq u n) Hu).
      rewrite Ha. now rewrite (proj2 (eqb_neq u n) Hu).
    + now rewrite IH.
Qed.

Lemma out_edges_remove_edge u v g g' n :
  remove_edge u v g = Ok g' ->
  out_edges g' n =
  if eqb u n then filter (fun e => negb (eqb (etgt e) v)) (out_edges g n)
  else out_edges g n.
Proof.
  unfold remove_edge. destruct (get_edge_data g u v); [|discriminate].
  intros [= <-]. unfold out_edges. simpl. rewrite filter_twice.
  destruct (eqb u n) eqn:Hun.
  - apply eqb_eq in Hun. subst u. rewrite filter_twice.
    apply filter_same_test. intros e _.
    destruct (eqb (esrc e) n), (eqb (etgt e) v); reflexivity.
  - apply filter_same_test. intros e _.
    destruct (eqb (esrc e) n) eqn:Hen.
    + apply eqb_eq in Hen. rewrite Hen, (eqb_sym n u), Hun. reflexivity.
    + now rewrite andb_false_r.
Qed.

Lemma out_edges_remove_node x g g' n :
  remove_node x g = Ok g' ->
  out_edges g' n =
  if eqb x n then []
  else filter (fun e => negb (eqb (etgt e) x)) (out_edges g n).
Proof.
  unfold remove_node. destruct (has_node g x); [|discriminate].
  intros [= <-]. unfold out_edges. simpl. rewrite filter_twice.
  destruct (eqb x n) eqn:Hxn.
  - apply eqb_eq in Hxn. subst x. apply filter_none. intros e _.
    destruct (eqb (esrc e) n), (eqb (etgt e) n); reflexivity.
  - rewrite filter_twice. apply filter_same_test. intros e _.
    destruct (eqb (esrc e) n) eqn:Hen.
    + apply eqb_eq in Hen. rewrite Hen, (eqb_sym n x), Hxn.
      now destruct (eqb (etgt e) x).
    + now rewrite !andb_false_r.
Qed.

Lemma shifted_etgt c d e : etgt (shifted c d e) = etgt e.
Proof. unfold shifted. destruct (c <? eord e)%Z; reflexivity. Qed.

Lemma shifted_esrc c d e : esrc (shifted c d e) = esrc e.
Proof. unfold shifted. destruct (c <? eord e)%Z; reflexivity. Qed.

Lemma out_edges_shift_orders pre c d g n :
  out_edges (shift_orders pre c d g) n =
  if eqb pre n then map (shifted c d) (out_edges g n) else out_edges g n.
Proof.
  unfold out_edges, shift_orders. simpl.
  induction (edges g) as [|a r IH]; simpl.
  - now destruct (eqb pre n).
  - destruct (eqb pre n) eqn:Hpn.
    + apply eqb_eq in Hpn. subst pre.
      destruct (eqb (esrc a) n) eqn:Han; simpl.
      * unfold shifted at 1.
        destruct (c <? eord a)%Z; simpl; unfold esrc at 1; simpl;
          fold (esrc a); rewrite Han; simpl; now rewrite IH.
      * rewrite Han. exact IH.
    + destruct (eqb (esrc a) pre && (c <? eord a)%Z) eqn:Hc; simpl.
      * apply andb_true_iff in Hc. destruct Hc as [Hc _].
        apply eqb_eq in Hc. unfold esrc at 1. simpl. fold (esrc a).
        rewrite Hc, Hpn. exact IH.
      * now rewrite IH.
Qed.

(** ** The out-edge invariant of one node *)

Section OutInv.
Variable N : nat.
Variable l0 : list (vertex * vertex * Z).

Lemma out_inv_refl : out_inv N l0 l0.
Proof.
  split.
  - intros e He _. eauto.
  - left. reflexivity.
Qed.

Lemma out_inv_filter (l : list (vertex * vertex * Z)) (w : vertex) :
  allocated N w -> out_inv N l0 l ->
  out_inv N l0 (filter (fun e => negb (eqb (etgt e) w)) l).
Proof.
  intros Hw [Hk Hs]. split.
  - intros e He Ha. apply filter_In in He. apply Hk; tauto.
  - destruct Hs as [->|[(e & He & Hf)|(e0 & He0 & Hgone)]].
    + destruct (filter_same_or_drops (fun e => negb (eqb (etgt e) w)) l0)
        as [->|(e & He & Hd)]; [left; reflexivity|].
      right. right. exists e. split; [assumption|].
      intros e' He'. apply filter_In in He'. destruct He' as [_ He'].
      apply negb_false_iff, eqb_eq in Hd. rewrite Hd.
      apply negb_true_iff, eqb_neq in He'. exact He'.
    + right. left. exists e. split; [|assumption].
      apply filter_In. split; [assumption|].
      apply negb_true_iff, eqb_neq. intros Heq. apply Hf. now rewrite Heq.
    + right. right. exists e0. split; [assumption|].
      intros e He. apply filter_In in He. apply Hgone. tauto.
Qed.

Lemma out_inv_nil : out_inv N l0 [].
Proof.
  split.
  - intros e [].
  - destruct l0 as [|e0 r] eqn:Hl0; [left; reflexivity|].
    right. right. exists e0. split; [simpl; auto | intros e []].
Qed.

Lemma out_inv_fresh (l l' : list (vertex * vertex * Z)) enew :
  targets_known N l0 l ->
  (forall e, In e l' -> In e l \/ e = enew) ->
  In enew l' -> ~ allocated N (etgt enew) ->
  out_inv N l0 l'.
Proof.
  intros Hk Hsub Hnew Hfresh. split.
  - intros e He Ha. destruct (Hsub e He) as [Hl| ->]; [auto | contradiction].
  - right. left. eauto.
Qed.

Lemma targets_known_shifted (l : list (vertex * vertex * Z)) c d :
  targets_known N l0 l -> targets_known N l0 (map (shifted c d) l).
Proof.
  intros Hk e He Ha. apply in_map_iff in He. destruct He as (e1 & <- & He1).
  rewrite shifted_etgt in *. auto.
Qed.
End OutInv.

Lemma out_inv_add_edge N l0 u w o g n :
  targets_known N l0 (out_edges g n) ->
  u = n -> ~ allocated N w ->
  out_inv N l0 (out_edges (add_edge u w o g) n).
Proof.
  intros Hk -> Hw.
  apply (out_inv_fresh N l0 (out_edges g n) _ (n, w, o)); auto.
  - intros e He. apply out_edges_In in He. destruct He as [He Hsrc].
    simpl in He. apply set_edge_In in He. destruct He as [->|He]; [auto|].
    left. apply out_edges_In. auto.
  - apply out_edges_In. split; [apply set_edge_In_new | reflexivity].
Qed.

Lemma out_inv_add_edge_any N l0 u w o g n :
  out_inv N l0 (out_edges g n) ->
  u <> n \/ ~ allocated N w ->
  out_inv N l0 (out_edges (add_edge u w o g) n).
Proof.
  intros Hinv Hor. destruct (eq_dec u n) as [Hu|Hu].
  - destruct Hor as [Hne|Hw]; [contradiction|].
    apply out_inv_add_edge; [apply Hinv | assumption | assumption].
  - now rewrite out_edges_add_edge_other.
Qed.

Lemma out_inv_remove_edge N l0 u w g g' n :
  out_inv N l0 (out_edges g n) -> allocated N w ->
  remove_edge u w g = Ok g' ->
  out_inv N l0 (out_edges g' n).
Proof.
  intros Hinv Hw Hrm. rewrite (out_edges_remove_edge _ _ _ _ n Hrm).
  destruct (eqb u n); [now apply out_inv_filter | assumption].
Qed.

Lemma out_inv_remove_node N l0 x g g' n :
  out_inv N l0 (out_edges g n) -> allocated N x ->
  remove_node x g = Ok g' ->
  out_inv N l0 (out_edges g' n).
Proof.
  intros Hinv Hx Hrm. rewrite (out_edges_remove_node _ _ _ n Hrm).
  destruct (eqb x n); [apply out_inv_nil | now apply out_inv_filter].
Qed.

Lemma out_edges_add_copies_other pre c i_nodes : forall g n,
  pre <> n -> out_edges (add_copies pre c i_nodes g) n = out_edges g n.
Proof.
  unfold add_copies.
  induction i_nodes as [|x r IH]; simpl; intros g n Hne; [reflexivity|].
  rewrite IH by assumption. now apply out_edges_add_edge_other.
Qed.

Lemma out_inv_add_copies N l0 pre c i_nodes : forall g n,
  out_inv N l0 (out_edges g n) ->
  (forall x, In x i_nodes -> ~ allocated N (snd x)) ->
  out_inv N l0 (out_edges (add_copies pre c i_nodes g) n).
Proof.
  unfold add_copies.
  induction i_nodes as [|x r IH]; simpl; intros g n Hinv Hf; [assumption|].
  apply IH; [|auto]. apply out_inv_add_edge_any; auto.
Qed.

Lemma enumerate_cons {A} (x : A) (l : list A) :
  enumerate (x :: l) = (0, x) :: combine (seq 1 (List.length l)) l.
Proof. reflexivity. Qed.

Lemma enumerate_snd {A} (l : list A) (x : nat * A) :
  In x (enumerate l) -> In (snd x) l.
Proof.
  unfold enumerate. destruct x as [i a]. intros Hx.
  apply in_combine_r in Hx. exact Hx.
Qed.

(** Lines 145-149 keep the invariant of any old node [n]: a predecessor other
    than [n] leaves the out-edges of [n] alone, and [n] itself gains an edge
    to a copy. *)
Lemma out_inv_reattach N l0 pre c d out_nodes g n :
  out_inv N l0 (out_edges g n) ->
  out_nodes <> [] -> (forall v, In v out_nodes -> ~ allocated N v) ->
  out_inv N l0
    (out_edges (add_copies pre c (enumerate out_nodes)
                  (shift_orders pre c d g)) n).
Proof.
  intros Hinv Hne Hfresh. destruct (eq_dec pre n) as [->|Hpn].
  - destruct out_nodes as [|v r]; [congruence|].
    rewrite enumerate_cons. unfold add_copies. simpl.
    apply (out_inv_add_copies N l0 n c (combine (seq 1 (List.length r)) r)).
    + apply out_inv_add_edge; [|reflexivity|apply Hfresh; simpl; auto].
      rewrite out_edges_shift_orders, eqb_refl.
      apply targets_known_shifted, Hinv.
    + intros [i a] Hx. apply in_combine_r in Hx. apply Hfresh. simpl. auto.
  - rewrite out_edges_add_copies_other by assumption.
    rewrite out_edges_shift_orders.
    now rewrite (proj2 (eqb_neq pre n) Hpn).
Qed.

(** ** Runs that return *)

Lemma ret_Ok {A} (a b : A) s s' : ret a s = (Ok b, s') -> b = a /\ s' = s.
Proof. unfold ret. intros [= -> ->]. auto. Qed.

Lemma gets_Ok {A} (f : store -> A) a s s' :
  gets f s = (Ok a, s') -> a = f s /\ s' = s.
Proof. unfold gets. intros [= <- <-]. auto. Qed.

Lemma lift_Ok {A} (r : result A) a s s' :
  lift r s = (Ok a, s') -> r = Ok a /\ s' = s.
Proof. unfold lift. intros [= -> ->]. auto. Qed.

Lemma modify_Ok (f : store -> store) u s s' :
  modify f s = (Ok u, s') -> s' = f s.
Proof. unfold modify. intros [= _ <-]. reflexivity. Qed.

Lemma graph_get_Ok {A} (f : DiGraph -> result A) a s s' :
  graph_get f s = (Ok a, s') -> f (_cur_graph s) = Ok a /\ s' = s.
Proof. unfold graph_get. intros [= -> ->]. auto. Qed.

Lemma graph_do_Ok (f : DiGraph -> DiGraph) u s s' :
  graph_do f s = (Ok u, s') -> s' = set_cur_graph (f (_cur_graph s)) s.
Proof. unfold graph_do, modify. intros [= _ <-]. reflexivity. Qed.

Lemma graph_try_Ok (f : DiGraph -> result DiGraph) u s s' :
  graph_try f s = (Ok u, s') ->
  exists g, f (_cur_graph s) = Ok g /\ s' = set_cur_graph g s.
Proof.
  unfold graph_try. destruct (f (_cur_graph s)) as [g|e]; [|discriminate].
  intros [= _ <-]. eauto.
Qed.

Lemma dict_getitem_Ok {K V} `{EqDec K} (d : dict K V) k v :
  dict_getitem d k = Ok v -> dict_get d k = Some v.
Proof.
  unfold dict_getitem. destruct (dict_get d k); [|discriminate].
  now intros [= ->].
Qed.

Lemma forM__inv {A} (I : store -> Prop) (l : list A) (f : A -> M unit) :
  (forall x s1 s2, In x l -> I s1 -> f x s1 = (Ok tt, s2) -> I s2) ->
  forall s s' u, I s -> forM_ l f s = (Ok u, s') -> I s'.
Proof.
  induction l as [|x r IH]; simpl; intros Hbody s s' u Hs Hrun.
  - apply ret_Ok in Hrun. destruct Hrun as [_ ->]. exact Hs.
  - apply bind_Ok in Hrun. destruct Hrun as ([] & s1 & Hx & Hrun).
    eapply IH; [| |exact Hrun]; eauto.
Qed.

Lemma set_cur_graph_twice g g' s :
  set_cur_graph g' (set_cur_graph g s) = set_cur_graph g' s.
Proof. reflexivity. Qed.

Lemma set_cur_graph_same s : set_cur_graph (_cur_graph s) s = s.
Proof. now destruct s. Qed.

Lemma forM__graph_do {A} (f : A -> DiGraph -> DiGraph) (l : list A) : forall s,
  forM_ l (fun x => graph_do (f x)) s =
  (Ok tt,
   set_cur_graph (fold_left (fun g x => f x g) l (_cur_graph s)) s).
Proof.
  induction l as [|x r IH]; simpl; intros s.
  - unfold ret. now rewrite set_cur_graph_same.
  - unfold bind, graph_do at 1, modify. rewrite IH. reflexivity.
Qed.

(** One turn of the loop of lines 140-149, as a function of the graph. *)
Lemma reattach_pred_run rtd x out_nodes p s s' u :
  reattach_pred rtd x out_nodes p s = (Ok u, s') ->
  (dict_mem rtd p = true /\ s' = s) \/
  (dict_mem rtd p = false /\
   exists c, edge_order (_cur_graph s) p x = Ok c /\
     s' = set_cur_graph
            (add_copies p c (enumerate out_nodes)
               (shift_orders p c (Z.of_nat (List.length out_nodes) - 1)
                  (_cur_graph s))) s).
Proof.
  unfold reattach_pred. destruct (dict_mem rtd p).
  - intros Hrun. apply ret_Ok in Hrun. left. tauto.
  - intros Hrun. right. split; [reflexivity|].
    apply bind_Ok in Hrun. destruct Hrun as (c & s1 & Hc & Hrun).
    apply graph_get_Ok in Hc. destruct Hc as [Hc ->].
    apply bind_Ok in Hrun. destruct Hrun as ([] & s2 & Hsh & Hrun).
    apply graph_do_Ok in Hsh. subst s2.
    rewrite (forM__graph_do
               (fun i_node => add_edge p (snd i_node)
                                (c + Z.of_nat (fst i_node)))) in Hrun.
    injection Hrun as _ <-. exists c. split; [assumption | reflexivity].
Qed.

(** ** Order preservation *)

Section OrderInv.
Variable N : nat.
Variable g0 : DiGraph.
Variable n : vertex.
Hypothesis n_allocated : allocated N n.

Lemma order_inv_set_cur_graph g s :
  N <= next_id s -> out_inv N (out_edges g0 n) (out_edges g n) ->
  order_inv N g0 n (set_cur_graph g s).
Proof. intros Hid Hinv. split; assumption. Qed.

Lemma remove_mapped_edges_rec_inv self depth : forall node s s' u,
  transform_below N s -> order_inv N g0 n s ->
  _remove_mapped_edges_rec self depth node s = (Ok u, s') ->
  order_inv N g0 n s' /\ _cur_transform_dict s' = _cur_transform_dict s.
Proof.
  induction depth as [|d IH]; intros node s s' u Htr Hinv Hrun; simpl in Hrun;
    [discriminate|].
  apply bind_Ok in Hrun. destruct Hrun as (tr & s1 & Hg & Hrun).
  apply gets_Ok in Hg. destruct Hg as [-> ->].
  apply bind_Ok in Hrun. destruct Hrun as (succs & s1 & Hs & Hrun).
  apply lift_Ok in Hs. destruct Hs as [_ ->].
  revert Hrun.
  apply (forM__inv (fun t => order_inv N g0 n t /\
                             _cur_transform_dict t = _cur_transform_dict s));
    [|auto].
  intros x s1 s2 _ [Hi Ht] Hb.
  apply bind_Ok in Hb. destruct Hb as (a & s3 & Ha & Hb).
  apply lift_Ok in Ha. destruct Ha as [_ ->].
  apply bind_Ok in Hb. destruct Hb as (b & s3 & Hv & Hb).
  apply lift_Ok in Hv. destruct Hv as [Hv ->].
  apply dict_getitem_Ok in Hv.
  apply bind_Ok in Hb. destruct Hb as ([] & s3 & Hrm & Hb).
  apply graph_try_Ok in Hrm. destruct Hrm as (g & Hrm & ->).
  apply IH in Hb.
  - destruct Hb as [Hb1 Hb2]. split; [assumption|]. now rewrite Hb2.
  - intros k v Hk. simpl in Hk. rewrite Ht in Hk. eapply Htr; eassumption.
  - apply order_inv_set_cur_graph; [apply Hi|].
    eapply out_inv_remove_edge; [apply Hi | | exact Hrm].
    eapply Htr; eassumption.
Qed.

Lemma phase_inv_set_cur_graph g s :
  phase_inv N g0 n s -> out_inv N (out_edges g0 n) (out_edges g n) ->
  phase_inv N g0 n (set_cur_graph g s).
Proof.
  intros (Ho & Ht & Hc) Hinv. destruct Ho as [Hid _].
  split; [split; [exact Hid | exact Hinv] | split; assumption].
Qed.

Lemma copy_output_node_inv self node s s' c :
  phase_inv N g0 n s ->
  _copy_output_node self node s = (Ok c, s') ->
  phase_inv N g0 n s' /\ ~ allocated N c.
Proof.
  intros (Ho & Ht & Hc) Hrun. unfold _copy_output_node in Hrun.
  destruct (dict_get (reverse_node_dict self) node) as [in_node|].
  - apply bind_Ok in Hrun. destruct Hrun as (tr & s1 & Hg & Hrun).
    apply gets_Ok in Hg. destruct Hg as [-> ->].
    apply bind_Ok in Hrun. destruct Hrun as (t & s1 & Hl & Hrun).
    apply lift_Ok in Hl. destruct Hl as [_ ->].
    apply bind_Ok in Hrun. destruct Hrun as (v & s1 & Hl & Hrun).
    apply lift_Ok in Hl. destruct Hl as [_ ->].
    apply bind_Ok in Hrun. destruct Hrun as (nc & s1 & Hnew & Hrun).
    unfold new_Node in Hnew. injection Hnew as <- <-.
    apply bind_Ok in Hrun. destruct Hrun as ([] & s2 & Happ & Hrun).
    unfold cur_node_dict_append in Happ. apply modify_Ok in Happ. subst s2.
    apply ret_Ok in Hrun. destruct Hrun as [-> ->].
    assert (Hfresh : ~ allocated N (Node (next_id s) v)).
    { simpl. destruct Ho as [Hid _]. lia. }
    split; [|exact Hfresh].
    split; [|split].
    + destruct Ho as [Hid Hout]. split; simpl; [lia | exact Hout].
    + exact Ht.
    + simpl. intros k l Hk. rewrite dict_get_set in Hk.
      destruct (eq_dec k in_node) as [->|Hne]; [|eauto].
      injection Hk as <-. split.
      * intros Hnil. apply app_eq_nil in Hnil. destruct Hnil. discriminate.
      * intros w Hw. apply in_app_or in Hw. destruct Hw as [Hw|[<-|[]]];
          [|exact Hfresh].
        destruct (dict_get (_cur_node_dict s) in_node) as [l0|] eqn:Hl0;
          [|contradiction].
        apply (Hc in_node l0 Hl0). exact Hw.
  - apply bind_Ok in Hrun. destruct Hrun as (v & s1 & Hl & Hrun).
    apply lift_Ok in Hl. destruct Hl as [_ ->].
    unfold new_Node in Hrun. injection Hrun as <- <-.
    destruct Ho as [Hid Hout]. split.
    + split; [|split]; [split; simpl; [lia | exact Hout] | exact Ht | exact Hc].
    + simpl. lia.
Qed.

Lemma add_output_graph_rec_inv self depth : forall m c s s' u,
  phase_inv N g0 n s ->
  _add_output_graph_rec self depth m c s = (Ok u, s') ->
  phase_inv N g0 n s'.
Proof.
  induction depth as [|d IH]; intros m c s s' u Hinv Hrun; simpl in Hrun;
    [discriminate|].
  apply bind_Ok in Hrun. destruct Hrun as (succs & s1 & Hs & Hrun).
  apply lift_Ok in Hs. destruct Hs as [_ ->].
  revert Hrun. apply forM__inv; [|assumption].
  intros x s1 s2 _ Hi Hb.
  apply bind_Ok in Hb. destruct Hb as (nc & s3 & Hcopy & Hb).
  apply copy_output_node_inv in Hcopy; [|assumption].
  destruct Hcopy as [Hi3 Hfresh].
  apply bind_Ok in Hb. destruct Hb as (o & s4 & Ho & Hb).
  apply lift_Ok in Ho. destruct Ho as [_ ->].
  apply bind_Ok in Hb. destruct Hb as ([] & s4 & Hadd & Hb).
  apply graph_do_Ok in Hadd. subst s4.
  eapply IH; [|exact Hb].
  apply phase_inv_set_cur_graph; [assumption|].
  apply out_inv_add_edge_any; [apply Hi3 | auto].
Qed.

Lemma add_output_graph_inv self depth s s' u :
  order_inv N g0 n s -> transform_below N s ->
  _add_output_graph self depth s = (Ok u, s') ->
  phase_inv N g0 n s'.
Proof.
  intros Ho Ht Hrun. unfold _add_output_graph in Hrun.
  apply bind_Ok in Hrun. destruct Hrun as ([] & s1 & Hm & Hrun).
  apply modify_Ok in Hm. subst s1.
  apply bind_Ok in Hrun. destruct Hrun as (succs & s1 & Hs & Hrun).
  apply lift_Ok in Hs. destruct Hs as [_ ->].
  revert Hrun. apply forM__inv.
  - intros x s1 s2 _ Hi Hb.
    apply bind_Ok in Hb. destruct Hb as (nc & s3 & Hcopy & Hb).
    apply copy_output_node_inv in Hcopy; [|assumption].
    destruct Hcopy as [Hi3 Hfresh].
    apply bind_Ok in Hb. destruct Hb as ([] & s4 & Hadd & Hb).
    eapply add_output_graph_rec_inv; [|exact Hb].
    destruct (dict_mem (reverse_node_dict self) x).
    + apply ret_Ok in Hadd. destruct Hadd as [_ ->]. assumption.
    + apply graph_do_Ok in Hadd. subst s4.
      apply phase_inv_set_cur_graph; [assumption|].
      apply out_inv_add_edge_any; [apply Hi3 | auto].
  - split; [exact Ho|]. split; [exact Ht|]. intros k l Hk. discriminate.
Qed.

Lemma allocated_neq v : ~ allocated N v -> v <> n.
Proof. intros Hv ->. contradiction. Qed.

Lemma apply_graph_node_inv rtd cnd x s s' u :
  copies_fresh N cnd -> allocated N x ->
  order_inv N g0 n s ->
  apply_graph_node rtd cnd x s = (Ok u, s') ->
  order_inv N g0 n s'.
Proof.
  intros Hcnd Hx Hinv Hrun. unfold apply_graph_node in Hrun.
  destruct (dict_get cnd x) as [out_nodes|] eqn:Hget.
  - destruct (Hcnd x out_nodes Hget) as [Hne Hfresh].
    apply bind_Ok in Hrun. destruct Hrun as (preds & s1 & Hp & Hrun).
    apply graph_get_Ok in Hp. destruct Hp as [_ ->].
    apply bind_Ok in Hrun. destruct Hrun as ([] & s1 & Hloop & Hrun).
    assert (H1 : order_inv N g0 n s1).
    { revert Hloop. apply forM__inv; [|assumption].
      intros p t1 t2 _ Hi Hb. apply reattach_pred_run in Hb.
      destruct Hb as [[_ ->]|(_ & c & _ & ->)]; [assumption|].
      apply order_inv_set_cur_graph; [apply Hi|].
      apply out_inv_reattach; [apply Hi | assumption | assumption]. }
    apply bind_Ok in Hrun. destruct Hrun as (succs & s2 & Hs & Hrun).
    apply graph_get_Ok in Hs. destruct Hs as [_ ->].
    apply bind_Ok in Hrun. destruct Hrun as ([] & s2 & Hloop2 & Hrun).
    assert (H2 : order_inv N g0 n s2).
    { revert Hloop2. apply forM__inv; [|assumption].
      intros q t1 t2 _ Hi Hb. unfold reattach_suc in Hb.
      destruct (dict_mem rtd q).
      - apply ret_Ok in Hb. destruct Hb as [_ ->]. assumption.
      - revert Hb. apply forM__inv; [|assumption].
        intros v r1 r2 Hv Hj Hc.
        apply bind_Ok in Hc. destruct Hc as (o & r3 & Ho & Hc).
        apply graph_get_Ok in Ho. destruct Ho as [_ ->].
        apply graph_do_Ok in Hc. subst r2.
        apply order_inv_set_cur_graph; [apply Hj|].
        apply out_inv_add_edge_any; [apply Hj|].
        left. apply allocated_neq. auto. }
    apply graph_try_Ok in Hrun. destruct Hrun as (g & Hrm & ->).
    apply order_inv_set_cur_graph; [apply H2|].
    eapply out_inv_remove_node; [apply H2 | exact Hx | exact Hrm].
  - unfold collect_orphan in Hrun.
    apply bind_Ok in Hrun. destruct Hrun as (g & s1 & Hg & Hrun).
    apply gets_Ok in Hg. destruct Hg as [-> ->].
    assert (Hdel : forall w t,
               graph_try (remove_node x) s = (Ok w, t) -> order_inv N g0 n t).
    { intros w t Ht. apply graph_try_Ok in Ht. destruct Ht as (g & Hrm & ->).
      apply order_inv_set_cur_graph; [apply Hinv|].
      eapply out_inv_remove_node; [apply Hinv | exact Hx | exact Hrm]. }
    apply bind_Ok in Hrun. destruct Hrun as (no_out & s1 & Hd & Hrun).
    apply lift_Ok in Hd. destruct Hd as [_ ->].
    destruct no_out.
    + apply bind_Ok in Hrun. destruct Hrun as (no_in & s1 & Hd & Hrun).
      apply lift_Ok in Hd. destruct Hd as [_ ->].
      destruct no_in; [eauto|].
      apply bind_Ok in Hrun. destruct Hrun as (preds & s1 & Hp & Hrun).
      apply lift_Ok in Hp. destruct Hp as [_ ->].
      destruct (mem root_node preds); [eauto|].
      apply ret_Ok in Hrun. destruct Hrun as [_ ->]. assumption.
    + apply ret_Ok in Hrun. destruct Hrun as [_ ->]. assumption.
Qed.
End OrderInv.

Lemma dict_get_In {K V} `{EqDec K} (d : dict K V) k v :
  dict_get d k = Some v -> In (k, v) d.
Proof.
  induction d as [|[k0 v0] r IH]; simpl; [discriminate|].
  destruct (eq_dec k k0) as [->|Hne].
  - intros [= ->]. auto.
  - auto.
Qed.

Lemma dict_keys_set {K V} `{EqDec K} (d : dict K V) k v x :
  In x (dict_keys (dict_set d k v)) <-> x = k \/ In x (dict_keys d).
Proof.
  rewrite !dict_keys_get. setoid_rewrite dict_get_set.
  destruct (eq_dec x k) as [->|Hne].
  - split; eauto.
  - split; [auto|]. intros [Heq|Hin]; [contradiction | assumption].
Qed.

Lemma reverse_dict_keys (m : dict vertex vertex) (x : vertex) :
  In x (dict_keys (reverse_dict m)) -> exists k, In (k, x) m.
Proof.
  unfold reverse_dict.
  assert (Hgen : forall acc,
             In x (dict_keys
                     (fold_left (fun acc kv => dict_set acc (snd kv) (fst kv))
                        m acc)) ->
             In x (dict_keys acc) \/ exists k, In (k, x) m).
  { induction m as [|[k v] r IH]; simpl; intros acc Hx; [auto|].
    apply IH in Hx. destruct Hx as [Hx|[k' Hk']]; [|eauto].
    apply dict_keys_set in Hx. destruct Hx as [->|Hx]; eauto. }
  intros Hx. apply Hgen in Hx. destruct Hx as [[]|Hx]. exact Hx.
Qed.

Lemma out_edges_shape (g : DiGraph) (n : vertex) e :
  In e (out_edges g n) -> e = (n, etgt e, eord e) /\ In e (edges g).
Proof.
  intros He. apply out_edges_In in He. destruct He as [He Hsrc].
  destruct e as [[u v] o]. unfold esrc, etgt, eord in *. simpl in *.
  subst. auto.
Qed.

(** C9: a node of the target graph that has the same successors after a
    completed [apply] call as before it (no child added, removed or
    reattached under it) has the very same out-edges, order values included,
    in the same enumeration; in particular its order values stay pairwise
    distinct if they were.  The graph and the images of the match are those
    the caller built before the call (allocated below the allocator). *)
Theorem apply_keeps_untouched_orders self depth g m copy s r s' n :
  graph_below (next_id s) g ->
  match_below (next_id s) m ->
  In n (nodes g) ->
  apply self depth g m copy s = (Ok r, s') ->
  same_successors g (_cur_graph s') n ->
  out_edges (_cur_graph s') n = out_edges g n /\
  (NoDup (map eord (out_edges g n)) ->
   NoDup (map eord (out_edges (_cur_graph s') n))).
Proof.
  intros [Hnodes Hedges] Hm Hn Hrun Hsame.
  assert (Hout : out_edges (_cur_graph s') n = out_edges g n);
    [|split; [exact Hout | now rewrite Hout]].
  destruct copy; [discriminate|].
  set (N := next_id s) in *.
  assert (Hn_alloc : allocated N n) by auto.
  unfold apply in Hrun.
  apply bind_Ok in Hrun. destruct Hrun as (gm & s1 & Hr & Hrun).
  apply ret_Ok in Hr. destruct Hr as [-> ->]. simpl in Hrun.
  apply bind_Ok in Hrun. destruct Hrun as ([] & s1 & Hs & Hrun).
  apply modify_Ok in Hs. subst s1.
  apply bind_Ok in Hrun. destruct Hrun as ([] & s1 & Hs & Hrun).
  apply modify_Ok in Hs. subst s1.
  apply bind_Ok in Hrun. destruct Hrun as (in_nodes & s1 & Hs & Hrun).
  apply lift_Ok in Hs. destruct Hs as [_ ->].
  apply bind_Ok in Hrun. destruct Hrun as ([] & s1 & Hphase1 & Hrun).
  assert (H1 : order_inv N g n s1 /\ _cur_transform_dict s1 = m).
  { revert Hphase1.
    apply (forM__inv (fun t => order_inv N g n t /\ _cur_transform_dict t = m)).
    - intros x t1 t2 _ [Hi Ht] Hb.
      apply (remove_mapped_edges_rec_inv N g n) in Hb; [| |assumption].
      + destruct Hb as [Hb1 Hb2]. split; [assumption | congruence].
      + intros k v Hk. rewrite Ht in Hk. apply dict_get_In in Hk. eauto.
    - split; [|reflexivity]. split; [simpl; lia|]. simpl. apply out_inv_refl. }
  destruct H1 as [H1 Htr].
  apply bind_Ok in Hrun. destruct Hrun as ([] & s2 & Hphase2 & Hrun).
  apply (add_output_graph_inv N g n) in Hphase2; [|assumption|].
  2:{ intros k v Hk. rewrite Htr in Hk. apply dict_get_In in Hk. eauto. }
  destruct Hphase2 as (H2 & _ & Hcnd).
  apply bind_Ok in Hrun. destruct Hrun as (cnd & s3 & Hg & Hrun).
  apply gets_Ok in Hg. destruct Hg as [-> ->].
  apply bind_Ok in Hrun. destruct Hrun as ([] & s3 & Hphase3 & Hrun).
  apply ret_Ok in Hrun. destruct Hrun as [_ ->].
  assert (H3 : order_inv N g n s3).
  { revert Hphase3. apply forM__inv; [|assumption].
    intros x t1 t2 Hx Hi Hb.
    apply (apply_graph_node_inv N g n Hn_alloc) in Hb; auto.
    apply reverse_dict_keys in Hx. destruct Hx as [k Hk]. eauto. }
  destruct H3 as [_ [Hknown [Hsame_list|[Hfresh|Hgone]]]].
  - exact Hsame_list.
  - exfalso. destruct Hfresh as (e & He & Hf). apply Hf.
    apply out_edges_shape in He. destruct He as [He Hin].
    destruct (proj2 (Hsame (etgt e))) as [o Ho].
    { exists (eord e). now rewrite <- He. }
    apply (Hedges _ Ho).
  - exfalso. destruct Hgone as (e0 & He0 & Hnone).
    apply out_edges_shape in He0. destruct He0 as [He0 Hin0].
    destruct (proj1 (Hsame (etgt e0))) as [o Ho].
    { exists (eord e0). now rewrite <- He0. }
    apply (Hnone (n, etgt e0, o)); [|reflexivity].
    apply out_edges_In. auto.
Qed.

(** C9, witness: the out-edges of [G] in the run of [a -> pair(a, a)] on
    [G(x)]. *)
Lemma apply_keeps_untouched_orders_witness :
  out_edges
    (mkDiGraph
       [root_node; Node 11 "G"; Node 10 "x";
        Node 100 "pair"; Node 101 "x"; Node 102 "x"]
       [(root_node, Node 11 "G", 0%Z); (Node 11 "G", Node 10 "x", 0%Z);
        (root_node, Node 100 "pair", (-1)%Z);
        (Node 100 "pair", Node 101 "x", 0%Z);
        (Node 100 "pair", Node 102 "x", 1%Z)])
    (Node 11 "G") = out_edges call_target (Node 11 "G") /\
  (NoDup (map eord (out_edges call_target (Node 11 "G"))) ->
   NoDup
     (map eord
        (out_edges
           (mkDiGraph
              [root_node; Node 11 "G"; Node 10 "x";
               Node 100 "pair"; Node 101 "x"; Node 102 "x"]
              [(root_node, Node 11 "G", 0%Z); (Node 11 "G", Node 10 "x", 0%Z);
               (root_node, Node 100 "pair", (-1)%Z);
               (Node 100 "pair", Node 101 "x", 0%Z);
               (Node 100 "pair", Node 102 "x", 1%Z)])
           (Node 11 "G")))).
Proof.
  apply (apply_keeps_untouched_orders pair_rule 50 call_target
           [(Node 1 "a", Node 10 "x")] false (fresh_store 100) None
           (mkStore
              (mkDiGraph
                 [root_node; Node 11 "G"; Node 10 "x";
                  Node 100 "pair"; Node 101 "x"; Node 102 "x"]
                 [(root_node, Node 11 "G", 0%Z);
                  (Node 11 "G", Node 10 "x", 0%Z);
                  (root_node, Node 100 "pair", (-1)%Z);
                  (Node 100 "pair", Node 101 "x", 0%Z);
                  (Node 100 "pair", Node 102 "x", 1%Z)])
              [(Node 1 "a", Node 10 "x")]
              [(Node 1 "a", [Node 101 "x"; Node 102 "x"])]
              103)
           (Node 11 "G")).
  - split.
    + intros v Hv. simpl in Hv.
      repeat (destruct Hv as [<-|Hv]; [simpl; lia || exact I|]).
      contradiction.
    + intros e He. simpl in He.
      repeat (destruct He as [<-|He];
              [unfold esrc, etgt; simpl; split; lia || exact I|]).
      contradiction.
  - intros k v Hk. simpl in Hk. destruct Hk as [[= <- <-]|[]]. simpl. lia.
  - simpl. auto.
  - reflexivity.
  - intros v. split; intros [o Ho]; simpl in Ho;
      repeat (destruct Ho as [Ho|Ho];
              [try discriminate; injection Ho as <- <-;
               eexists; simpl; eauto 10|]);
      contradiction.
Defined.

(** ** Reattachment of boundary edges *)

Lemma NoDup_map_In_eq {A B} (f : A -> B) (l : list A) a b :
  NoDup (map f l) -> In a l -> In b l -> f a = f b -> a = b.
Proof.
  induction l as [|x r IH]; simpl; [tauto|].
  intros Hnd Ha Hb Hf. inversion_clear Hnd as [|? ? Hx Hr].
  destruct Ha as [->|Ha], Hb as [->|Hb]; auto.
  - exfalso. apply Hx. rewrite Hf. now apply in_map.
  - exfalso. apply Hx. rewrite <- Hf. now apply in_map.
Qed.

Lemma filter_keeps_NoDup_map {A B} (keep : A -> bool) (f : A -> B)
    (xs : list A) (Hnd : NoDup (map f xs)) :
  NoDup (map f (filter keep xs)).
Proof.
  revert Hnd. induction xs as [|x r IH]; simpl; [auto|].
  intros Hnd. inversion_clear Hnd as [|? ? Hx Hr].
  destruct (keep x); simpl; [|auto]. constructor; [|auto].
  intros Hin. apply Hx. apply in_map_iff in Hin.
  destruct Hin as (y & Hy & Hin). apply filter_In in Hin.
  rewrite <- Hy. apply in_map. tauto.
Qed.

Lemma simple_out_targets (g : DiGraph) (u : vertex) :
  simple_edges g -> NoDup (map etgt (out_edges g u)).
Proof.
  unfold simple_edges, out_edges.
  induction (edges g) as [|e r IH]; simpl; [constructor|].
  intros Hnd. inversion_clear Hnd as [|? ? He Hr].
  destruct (eqb (esrc e) u) eqn:Hsrc; simpl; [|auto].
  constructor; [|auto]. intros Hin. apply He.
  apply in_map_iff in Hin. destruct Hin as (e' & Ht & Hin).
  apply filter_In in Hin. destruct Hin as [Hin Hs'].
  apply eqb_eq in Hsrc, Hs'. apply in_map_iff. exists e'.
  split; [|assumption]. congruence.
Qed.

Lemma simple_in_sources (g : DiGraph) (x : vertex) :
  simple_edges g -> NoDup (map esrc (in_edges g x)).
Proof.
  unfold simple_edges, in_edges.
  induction (edges g) as [|e r IH]; simpl; [constructor|].
  intros Hnd. inversion_clear Hnd as [|? ? He Hr].
  destruct (eqb (etgt e) x) eqn:Htgt; simpl; [|auto].
  constructor; [|auto]. intros Hin. apply He.
  apply in_map_iff in Hin. destruct Hin as (e' & Ht & Hin).
  apply filter_In in Hin. destruct Hin as [Hin Hs'].
  apply eqb_eq in Htgt, Hs'. apply in_map_iff. exists e'.
  split; [|assumption]. congruence.
Qed.

Lemma get_edge_data_out_edges (g : DiGraph) (u v : vertex) :
  get_edge_data g u v =
  option_map eord (find (fun e => eqb (etgt e) v) (out_edges g u)).
Proof.
  unfold get_edge_data, out_edges. f_equal.
  induction (edges g) as [|e r IH]; simpl; [reflexivity|].
  destruct (eqb (esrc e) u); simpl; [|exact IH].
  destruct (eqb (etgt e) v); [reflexivity | exact IH].
Qed.

(** The order read on line 142 or 153 is the order recorded in the out-edges
    of the source. *)
Lemma edge_order_from_out_edges (g : DiGraph) (u v : vertex) (c : Z) :
  NoDup (map etgt (out_edges g u)) ->
  In (u, v, c) (out_edges g u) ->
  edge_order g u v = Ok c.
Proof.
  intros Hnd Hin. unfold edge_order. rewrite get_edge_data_out_edges.
  destruct (find (fun e => eqb (etgt e) v) (out_edges g u)) as [e|] eqn:Hf.
  - apply find_some in Hf. destruct Hf as [He Hv]. apply eqb_eq in Hv.
    assert (e = (u, v, c)).
    { eapply NoDup_map_In_eq; eauto. }
    subst e. reflexivity.
  - exfalso. apply (find_none _ _ Hf) in Hin.
    unfold etgt in Hin. simpl in Hin. now rewrite eqb_refl in Hin.
Qed.

Lemma out_edges_add_edge_new u v o g :
  (forall e, In e (out_edges g u) -> etgt e <> v) ->
  out_edges (add_edge u v o g) u = out_edges g u ++ [(u, v, o)].
Proof.
  unfold out_edges, add_edge. simpl.
  induction (edges g) as [|e r IH]; simpl; intros Hnew.
  - unfold esrc at 1. simpl. now rewrite eqb_refl.
  - destruct (eqb (esrc e) u) eqn:Hsrc; simpl in *.
    + assert (Hv : eqb (etgt e) v = false).
      { apply eqb_neq. apply Hnew. auto. }
      rewrite Hv. simpl. rewrite Hsrc. f_equal. apply IH. auto.
    + rewrite Hsrc. apply IH. exact Hnew.
Qed.

Lemma out_edges_add_copies_same pre c i_nodes : forall g,
  NoDup (map snd i_nodes) ->
  (forall x e, In x i_nodes -> In e (out_edges g pre) -> etgt e <> snd x) ->
  out_edges (add_copies pre c i_nodes g) pre =
  out_edges g pre ++
  map (fun x => (pre, snd x, (c + Z.of_nat (fst x))%Z)) i_nodes.
Proof.
  unfold add_copies.
  induction i_nodes as [|x r IH]; simpl; intros g Hnd Hnew.
  - now rewrite app_nil_r.
  - inversion_clear Hnd as [|? ? Hx Hr]. rewrite IH; [| assumption |].
    + rewrite out_edges_add_edge_new by (intros e He; apply Hnew; auto).
      now rewrite <- app_assoc.
    + intros y e Hy He.
      rewrite out_edges_add_edge_new in He by (intros e' He'; apply Hnew; auto).
      apply in_app_or in He. destruct He as [He|[<-|[]]]; [auto|].
      unfold etgt. simpl. intros Heq. apply Hx. rewrite Heq.
      now apply in_map.
Qed.

Lemma enumerate_from_snd {A} (l : list A) : forall a,
  map snd (combine (seq a (List.length l)) l) = l.
Proof.
  induction l as [|x r IH]; simpl; intros a; [reflexivity|].
  now rewrite IH.
Qed.

Lemma enumerate_from_nth {A} (l : list A) : forall a i v,
  nth_error l i = Some v -> In (a + i, v) (combine (seq a (List.length l)) l).
Proof.
  induction l as [|x r IH]; intros a i v Hn; destruct i as [|i]; simpl in *;
    try discriminate.
  - injection Hn as ->. left. f_equal. lia.
  - right. replace (a + S i) with (S a + i) by lia. now apply IH.
Qed.

Lemma enumerate_from_bounds {A} (l : list A) : forall a i v,
  In (i, v) (combine (seq a (List.length l)) l) ->
  a <= i < a + List.length l.
Proof.
  induction l as [|x r IH]; simpl; intros a i v Hin; [contradiction|].
  destruct Hin as [[= <- <-]|Hin]; [lia|].
  apply IH in Hin. lia.
Qed.

Lemma enumerate_from_fst_NoDup {A} (l : list A) : forall a,
  NoDup (map fst (combine (seq a (List.length l)) l)).
Proof.
  induction l as [|x r IH]; simpl; intros a; constructor.
  - intros Hin. apply in_map_iff in Hin. destruct Hin as ([i v] & Hi & Hin).
    simpl in Hi. subst i. apply enumerate_from_bounds in Hin. lia.
  - apply IH.
Qed.

Lemma forM__inv_prefix {A} (I : list A -> store -> Prop) (l : list A)
    (f : A -> M unit) :
  (forall done x rest s1 s2,
     l = done ++ x :: rest -> I done s1 -> f x s1 = (Ok tt, s2) ->
     I (done ++ [x]) s2) ->
  forall s s' u, I [] s -> forM_ l f s = (Ok u, s') -> I l s'.
Proof.
  intros Hbody.
  assert (Hgen : forall rest done s s' u,
             l = done ++ rest -> I done s ->
             forM_ rest f s = (Ok u, s') -> I l s').
  { induction rest as [|x r IH]; simpl; intros done s s' u Hl Hi Hrun.
    - apply ret_Ok in Hrun. destruct Hrun as [_ ->].
      rewrite app_nil_r in Hl. now subst.
    - apply bind_Ok in Hrun. destruct Hrun as ([] & s1 & Hx & Hrun).
      apply (IH (done ++ [x]) s1 s' u); [| |exact Hrun].
      + now rewrite <- app_assoc.
      + eapply Hbody; eauto. }
  intros s s' u Hi Hrun. eapply (Hgen l []); eauto.
Qed.

Lemma forM__each {A B} (I : store -> Prop) (P : B -> store -> Prop)
    (key : A -> B) (l : list A) (f : A -> M unit) :
  (forall x s1 s2, In x l -> I s1 -> f x s1 = (Ok tt, s2) ->
     I s2 /\ P (key x) s2 /\ forall b, P b s1 -> P b s2) ->
  forall s s' u, I s -> forM_ l f s = (Ok u, s') ->
    I s' /\ (forall x, In x l -> P (key x) s') /\
    (forall b, P b s -> P b s').
Proof.
  induction l as [|x r IH]; simpl; intros Hbody s s' u Hi Hrun.
  - apply ret_Ok in Hrun. destruct Hrun as [_ ->]. tauto.
  - apply bind_Ok in Hrun. destruct Hrun as ([] & s1 & Hx & Hrun).
    destruct (Hbody x s s1) as (Hi1 & Hp1 & Hk1); auto.
    destruct (IH (fun y t1 t2 Hy => Hbody y t1 t2 (or_intror Hy))
                s1 s' u Hi1 Hrun) as (Hi2 & Hp2 & Hk2).
    split; [assumption|]. split; [|auto].
    intros y [<-|Hy]; auto.
Qed.

Lemma mem_app {A} `{EqDec A} (a : A) (l1 l2 : list A) :
  mem a (l1 ++ l2) = mem a l1 || mem a l2.
Proof. unfold mem. apply existsb_app. Qed.

Lemma NoDup_map_inj_in {A B C} (f : A -> B) (h : A -> C) (l : list A) :
  NoDup (map f l) ->
  (forall a b, In a l -> In b l -> h a = h b -> f a = f b) ->
  NoDup (map h l).
Proof.
  induction l as [|x r IH]; simpl; intros Hnd Hinj; [constructor|].
  inversion_clear Hnd as [|? ? Hx Hr]. constructor.
  - intros Hin. apply in_map_iff in Hin. destruct Hin as (y & Hy & Hin).
    apply Hx. rewrite (Hinj x y) by auto. now apply in_map.
  - apply IH; auto.
Qed.

Section Reattach.
Variable rtd : dict vertex vertex.
Variable g : DiGraph.
Variables x pre : vertex.
Variable c : Z.
Variable out_nodes : list vertex.
Hypothesis g_simple : simple_edges g.
Hypothesis x_matched : dict_mem rtd x = true.
Hypothesis pre_outside : dict_mem rtd pre = false.
Hypothesis pre_edge : In (pre, x, c) (edges g).
Hypothesis copies_distinct : NoDup out_nodes.
Hypothesis copies_new :
  forall v, In v out_nodes ->
    v <> pre /\ v <> x /\ forall e, In e (out_edges g pre) -> etgt e <> v.

Lemma pre_neq_x : pre <> x.
Proof. intros Heq. rewrite Heq in pre_outside. congruence. Qed.

(** The loop of lines 140-149 renumbers and extends the out-edges of [pre]
    once, and leaves those of the matched node alone. *)
Lemma preds_loop s s' u :
  _cur_graph s = g ->
  forM_ (map esrc (in_edges g x)) (reattach_pred rtd x out_nodes) s =
    (Ok u, s') ->
  out_edges (_cur_graph s') x = out_edges g x /\
  out_edges (_cur_graph s') pre =
  reattached pre c out_nodes (out_edges g pre).
Proof.
  intros Hg Hrun.
  assert (Hpre_in : In pre (map esrc (in_edges g x))).
  { apply in_map_iff. exists (pre, x, c). split; [reflexivity|].
    apply filter_In. split; [assumption | apply eqb_refl]. }
  pose proof (simple_in_sources g x g_simple) as Hnd.
  set (I := fun (done : list vertex) (t : store) =>
       out_edges (_cur_graph t) x = out_edges g x /\
       out_edges (_cur_graph t) pre =
       (if mem pre done then reattached pre c out_nodes (out_edges g pre)
        else out_edges g pre)).
  assert (Hinv : I (map esrc (in_edges g x)) s').
  { revert Hrun. apply (forM__inv_prefix I); [|unfold I; simpl; now rewrite Hg].
    unfold I. intros done p rest t1 t2 Hsplit [Hx Hp] Hb.
    rewrite mem_app. simpl. rewrite orb_false_r.
    apply reattach_pred_run in Hb.
    destruct Hb as [[Hmem ->]|(Hmem & c' & Hc' & ->)].
    - split; [assumption|]. rewrite Hp.
      replace (eqb pre p) with false; [now rewrite orb_false_r|].
      symmetry. apply eqb_neq. intros <-. congruence.
    - assert (Hpx : p <> x) by (intros ->; congruence).
      simpl. split.
      + rewrite out_edges_add_copies_other by assumption.
        rewrite out_edges_shift_orders.
        now rewrite (proj2 (eqb_neq p x) Hpx).
      + destruct (eq_dec pre p) as [<-|Hne].
        * rewrite eqb_refl, orb_true_r.
          assert (Hdone : mem pre done = false).
          { apply mem_not_In. rewrite Hsplit in Hnd.
            apply NoDup_remove_2 in Hnd. intros Hin. apply Hnd.
            apply in_or_app. auto. }
          rewrite Hdone in Hp.
          assert (c' = c).
          { assert (Hok : edge_order (_cur_graph t1) pre x = Ok c).
            { apply edge_order_from_out_edges; rewrite Hp.
              - now apply simple_out_targets.
              - apply out_edges_In. auto. }
            congruence. }
          subst c'. rewrite out_edges_add_copies_same.
          -- rewrite out_edges_shift_orders, eqb_refl, Hp. reflexivity.
          -- unfold enumerate. now rewrite enumerate_from_snd.
          -- intros [i v] e Hiv He. simpl.
             rewrite out_edges_shift_orders, eqb_refl, Hp in He.
             apply in_map_iff in He. destruct He as (e0 & <- & He0).
             rewrite shifted_etgt. apply in_combine_r in Hiv.
             now apply copies_new.
        * rewrite (proj2 (eqb_neq pre p) Hne), orb_false_r.
          assert (Hpn : p <> pre) by congruence.
          rewrite out_edges_add_copies_other by assumption.
          rewrite out_edges_shift_orders.
          now rewrite (proj2 (eqb_neq p pre) Hpn). }
  unfold I in Hinv. rewrite (proj2 (mem_In pre _) Hpre_in) in Hinv. exact Hinv.
Qed.

Lemma wire_copy l v q t t' u :
  In v out_nodes ->
  boundary_kept g x pre l t ->
  bind (graph_get (fun g' => edge_order g' x q))
    (fun o => graph_do (add_edge v q o)) t = (Ok u, t') ->
  boundary_kept g x pre l t' /\
  copy_wired g x (_cur_graph t') v q /\
  forall b, copy_wired g x (_cur_graph t) (fst b) (snd b) ->
            copy_wired g x (_cur_graph t') (fst b) (snd b).
Proof.
  intros Hv [Hx Hp] Hrun.
  destruct (copies_new v Hv) as (Hvp & Hvx & _).
  apply bind_Ok in Hrun. destruct Hrun as (o' & t1 & Ho & Hrun).
  apply graph_get_Ok in Ho. destruct Ho as [Ho ->].
  apply graph_do_Ok in Hrun. subst t'. simpl.
  assert (Hord : forall o, In (x, q, o) (edges g) -> o = o').
  { intros o Hin.
    assert (Hok : edge_order (_cur_graph t) x q = Ok o).
    { apply edge_order_from_out_edges; rewrite Hx.
      - now apply simple_out_targets.
      - apply out_edges_In. auto. }
    congruence. }
  split; [|split].
  - unfold boundary_kept. simpl. split; rewrite out_edges_add_edge_other; auto.
  - intros o Hin. rewrite (Hord o Hin). apply set_edge_In_new.
  - intros [v' y] Hw o Hin. simpl in *.
    destruct (eq_dec v' v) as [->|Hne1]; [destruct (eq_dec y q) as [->|Hne2]|].
    + rewrite (Hord o Hin). apply set_edge_In_new.
    + apply set_edge_In_old; [auto | right; exact Hne2].
    + apply set_edge_In_old; [auto | left; exact Hne1].
Qed.

Lemma succs_loop l succs s s' u :
  boundary_kept g x pre l s ->
  forM_ succs (reattach_suc rtd x out_nodes) s = (Ok u, s') ->
  boundary_kept g x pre l s' /\
  forall q, In q succs -> dict_mem rtd q = false ->
            forall v, In v out_nodes -> copy_wired g x (_cur_graph s') v q.
Proof.
  intros Hk Hrun.
  destruct (forM__each (boundary_kept g x pre l)
              (fun q t => dict_mem rtd q = false ->
                          forall v, In v out_nodes ->
                                    copy_wired g x (_cur_graph t) v q)
              (fun q => q) succs (reattach_suc rtd x out_nodes))
    with (s := s) (s' := s') (u := u) as (Hk' & Hall & _); auto.
  intros q t1 t2 _ Hk1 Hb. unfold reattach_suc in Hb.
  destruct (dict_mem rtd q) eqn:Hq.
  - apply ret_Ok in Hb. destruct Hb as [_ ->].
    split; [assumption|]. split; [discriminate | auto].
  - destruct (forM__each (boundary_kept g x pre l)
                (fun b t => copy_wired g x (_cur_graph t) (fst b) (snd b))
                (fun v => (v, q)) out_nodes
                (fun node =>
                   bind (graph_get (fun g' => edge_order g' x q))
                     (fun o => graph_do (add_edge node q o))))
      with (s := t1) (s' := t2) (u := tt) as (Hk2 & Hw & Hkeep); auto.
    + intros v r1 r2 Hv Hr Hc. eapply wire_copy; eauto.
    + split; [assumption|]. split.
      * intros _ v Hv. exact (Hw v Hv).
      * intros y Hy Hyq v Hv. apply (Hkeep (v, y)). simpl. auto.
Qed.
End Reattach.

Lemma remove_node_edges x g g' e :
  remove_node x g = Ok g' ->
  (In e (edges g') <-> In e (edges g) /\ esrc e <> x /\ etgt e <> x).
Proof.
  unfold remove_node. destruct (has_node g x); [|discriminate].
  intros [= <-]. simpl. rewrite filter_In, andb_true_iff, !negb_true_iff.
  rewrite !eqb_neq. tauto.
Qed.

Lemma shifted_triple c d u v o :
  shifted c d (u, v, o) = (u, v, if (c <? o)%Z then (o + d)%Z else o).
Proof.
  unfold shifted, eord, esrc, etgt. simpl. now destruct (c <? o)%Z.
Qed.

(** The orders under a predecessor after reattachment and removal of the old
    node: the untouched ones below [c], the [k] copies on [c .. c+k-1], the
    moved ones from [c+k] on. *)
Lemma reattached_orders_NoDup pre x c out_nodes l :
  NoDup (map eord l) -> In (pre, x, c) l -> out_nodes <> [] ->
  NoDup (map eord
           (filter (fun e => negb (eqb (etgt e) x))
              (reattached pre c out_nodes l))).
Proof.
  intros Hnd Hin Hne. unfold reattached.
  assert (Hk : (0 < Z.of_nat (List.length out_nodes))%Z).
  { destruct out_nodes; [congruence | simpl; lia]. }
  set (d := (Z.of_nat (List.length out_nodes) - 1)%Z) in *.
  rewrite filter_app, map_app. apply NoDup_app.
  - apply filter_keeps_NoDup_map. rewrite map_map.
    apply (NoDup_map_inj_in eord); [assumption|].
    intros a b _ _. unfold shifted.
    destruct (c <? eord a)%Z eqn:Ha, (c <? eord b)%Z eqn:Hb;
      unfold eord in *; simpl;
      try apply Z.ltb_lt in Ha; try apply Z.ltb_lt in Hb;
      try apply Z.ltb_ge in Ha; try apply Z.ltb_ge in Hb; lia.
  - apply filter_keeps_NoDup_map. rewrite map_map.
    apply (NoDup_map_inj_in fst).
    + apply enumerate_from_fst_NoDup.
    + intros a b _ _. unfold eord. simpl. lia.
  - intros o Ho1 Ho2.
    apply in_map_iff in Ho1. destruct Ho1 as (e1 & <- & He1).
    apply filter_In in He1. destruct He1 as [He1 Hx1].
    apply in_map_iff in He1. destruct He1 as (e & <- & He).
    rewrite shifted_etgt in Hx1. apply negb_true_iff, eqb_neq in Hx1.
    apply in_map_iff in Ho2. destruct Ho2 as (e2 & Heq & He2).
    apply filter_In in He2. destruct He2 as [He2 _].
    apply in_map_iff in He2. destruct He2 as ([i v] & <- & Hiv).
    apply enumerate_from_bounds in Hiv. simpl in Heq.
    assert (Hc : eord e <> c).
    { intros Hc. apply Hx1.
      replace e with (pre, x, c); [reflexivity|].
      eapply NoDup_map_In_eq; eauto. }
    revert Heq. unfold shifted.
    destruct (c <? eord e)%Z eqn:Hlt; unfold eord in *; simpl;
      [apply Z.ltb_lt in Hlt | apply Z.ltb_ge in Hlt]; lia.
Qed.

(** The body of the last loop on a visited node [x] that is a key of
    [cur_node_dict], with the copies [out_nodes]: when the visit completes,
    for a predecessor [pre] outside the match whose edge to [x] had order
    [c]: every other out-edge of [pre] above [c] has moved up by
    [k - 1] (the others keep their order), the copies sit under [pre] with
    the orders [c], [c+1], ..., [c+k-1], every copy has, for each successor
    of [x] outside the match, an edge with the order of the old edge, and the
    order values under [pre] are pairwise distinct if they were.  The copies
    are distinct nodes, new to [pre] and other than [pre] and [x], and the
    graph has at most one edge per ordered pair. *)
Theorem reattach_renumbers rtd cnd x out_nodes pre c s s' u :
  dict_get cnd x = Some out_nodes ->
  out_nodes <> [] -> NoDup out_nodes ->
  simple_edges (_cur_graph s) ->
  dict_mem rtd x = true -> dict_mem rtd pre = false ->
  In (pre, x, c) (edges (_cur_graph s)) ->
  (forall v, In v out_nodes ->
     v <> pre /\ v <> x /\ forall o, ~ In (pre, v, o) (edges (_cur_graph s))) ->
  apply_graph_node rtd cnd x s = (Ok u, s') ->
  (forall v o, In (pre, v, o) (edges (_cur_graph s)) -> v <> x ->
     In (pre, v,
         if (c <? o)%Z then (o + (Z.of_nat (List.length out_nodes) - 1))%Z
         else o)
       (edges (_cur_graph s'))) /\
  (forall i v, nth_error out_nodes i = Some v ->
     In (pre, v, (c + Z.of_nat i)%Z) (edges (_cur_graph s'))) /\
  (forall suc o v, In (x, suc, o) (edges (_cur_graph s)) ->
     dict_mem rtd suc = false -> In v out_nodes ->
     In (v, suc, o) (edges (_cur_graph s'))) /\
  (NoDup (map eord (out_edges (_cur_graph s) pre)) ->
   NoDup (map eord (out_edges (_cur_graph s') pre))).
Proof.
  intros Hget Hne Hnd Hsimple Hx Hpre Hedge Hnew Hrun.
  set (g := _cur_graph s) in *.
  assert (Hnew' : forall v, In v out_nodes ->
            v <> pre /\ v <> x /\
            forall e, In e (out_edges g pre) -> etgt e <> v).
  { intros v Hv. destruct (Hnew v Hv) as (H1 & H2 & H3).
    split; [assumption|]. split; [assumption|].
    intros e He Heq. apply out_edges_shape in He. destruct He as [He Hin].
    apply (H3 (eord e)). rewrite <- Heq, <- He. exact Hin. }
  assert (Hpx : pre <> x) by (intros ->; congruence).
  unfold apply_graph_node in Hrun. rewrite Hget in Hrun.
  apply bind_Ok in Hrun. destruct Hrun as (preds & s1 & Hp & Hrun).
  apply graph_get_Ok in Hp. destruct Hp as [Hp ->].
  unfold predecessors in Hp. fold g in Hp.
  destruct (has_node g x); [|discriminate]. injection Hp as <-.
  apply bind_Ok in Hrun. destruct Hrun as ([] & s1 & Hloop & Hrun).
  destruct (preds_loop rtd g x pre c out_nodes Hsimple Hx Hpre Hedge Hnd Hnew'
              s s1 tt eq_refl Hloop) as [Hx1 Hp1].
  apply bind_Ok in Hrun. destruct Hrun as (succs & s2 & Hs & Hrun).
  apply graph_get_Ok in Hs. destruct Hs as [Hs ->].
  unfold successors in Hs. destruct (has_node (_cur_graph s1) x); [|discriminate].
  injection Hs as <-. rewrite Hx1 in Hrun.
  apply bind_Ok in Hrun. destruct Hrun as ([] & s2 & Hloop2 & Hrun).
  destruct (succs_loop rtd g x pre out_nodes Hsimple Hnew'
              (reattached pre c out_nodes (out_edges g pre))
              (map etgt (out_edges g x)) s1 s2 tt (conj Hx1 Hp1) Hloop2)
    as [[Hx2 Hp2] Hwired].
  apply graph_try_Ok in Hrun. destruct Hrun as (g' & Hrm & ->). simpl.
  assert (Hout : out_edges g' pre =
                 filter (fun e => negb (eqb (etgt e) x))
                   (reattached pre c out_nodes (out_edges g pre))).
  { rewrite (out_edges_remove_node _ _ _ pre Hrm), Hp2.
    assert (Hxp : x <> pre) by congruence.
    now rewrite (proj2 (eqb_neq x pre) Hxp). }
  assert (Hkeep : forall e, In e (reattached pre c out_nodes (out_edges g pre)) ->
                            etgt e <> x -> In e (edges g')).
  { intros e He Het. apply (out_edges_In g' pre). rewrite Hout.
    apply filter_In. split; [assumption|].
    now apply negb_true_iff, eqb_neq. }
  split; [|split; [|split]].
  - intros v o Hin Hvx. rewrite <- shifted_triple. apply Hkeep.
    + unfold reattached. apply in_or_app. left. apply in_map.
      apply out_edges_In. auto.
    + now rewrite shifted_etgt.
  - intros i v Hnth. apply Hkeep.
    + unfold reattached. apply in_or_app. right.
      apply in_map_iff. exists (i, v). split; [reflexivity|].
      apply (enumerate_from_nth out_nodes 0 i v Hnth).
    + unfold etgt. simpl. apply Hnew'. eapply nth_error_In; eassumption.
  - intros suc o v Hin Hsuc Hv.
    apply (remove_node_edges _ _ _ (v, suc, o) Hrm). split; [|split].
    + apply (Hwired suc); auto.
      apply in_map_iff. exists (x, suc, o). split; [reflexivity|].
      apply out_edges_In. auto.
    + unfold esrc. simpl. now apply Hnew'.
    + unfold etgt. simpl. intros ->. congruence.
  - intros Hdist. rewrite Hout. apply reattached_orders_NoDup; auto.
    apply out_edges_In. auto.
Qed.

(** The run of [a -> pair(a, a)] on [alias_target]: the matched node is a key
    of [cur_node_dict], its two copies take its place under [G] with orders 0
    and 1, [w] moves from 1 to 2, and both copies point to [y]. *)
Lemma alias_run :
  apply pair_rule 50 alias_target [(Node 1 "a", Node 1 "a")] false
    (fresh_store 100) = (Ok None, alias_done_store).
Proof. reflexivity. Qed.

Lemma alias_visit :
  bind (modify (set_cur_graph alias_target))
    (fun _ => bind (modify (set_cur_transform_dict [(Node 1 "a", Node 1 "a")]))
                (fun _ => _add_output_graph pair_rule 50))
    (fresh_store 100) = (Ok tt, alias_visit_store).
Proof. reflexivity. Qed.

(** The visit of the matched node in the run on [alias_target], with [G]
    the predecessor outside the match and [c = 0]. *)
Lemma reattach_renumbers_witness :
  (forall v o,
     In (Node 11 "G", v, o) (edges (_cur_graph alias_visit_store)) ->
     v <> Node 1 "a" ->
     In (Node 11 "G", v,
         if (0 <? o)%Z
         then (o + (Z.of_nat (List.length [Node 101 "a"; Node 102 "a"]) - 1))%Z
         else o)
       (edges (_cur_graph alias_done_store))) /\
  (forall i v, nth_error [Node 101 "a"; Node 102 "a"] i = Some v ->
     In (Node 11 "G", v, (0 + Z.of_nat i)%Z)
       (edges (_cur_graph alias_done_store))) /\
  (forall suc o v,
     In (Node 1 "a", suc, o) (edges (_cur_graph alias_visit_store)) ->
     dict_mem [(Node 1 "a", Node 1 "a")] suc = false ->
     In v [Node 101 "a"; Node 102 "a"] ->
     In (v, suc, o) (edges (_cur_graph alias_done_store))) /\
  (NoDup (map eord (out_edges (_cur_graph alias_visit_store) (Node 11 "G"))) ->
   NoDup (map eord (out_edges (_cur_graph alias_done_store) (Node 11 "G")))).
Proof.
  apply (reattach_renumbers [(Node 1 "a", Node 1 "a")]
           [(Node 1 "a", [Node 101 "a"; Node 102 "a"])]
           (Node 1 "a") [Node 101 "a"; Node 102 "a"] (Node 11 "G") 0%Z
           alias_visit_store alias_done_store tt).
  - reflexivity.
  - discriminate.
  - repeat constructor; simpl; intuition discriminate.
  - unfold simple_edges. simpl.
    repeat constructor; simpl; intuition discriminate.
  - reflexivity.
  - reflexivity.
  - simpl. auto.
  - intros v Hv. simpl in Hv.
    destruct Hv as [<-|[<-|[]]];
      (split; [discriminate|]; split; [discriminate|];
       intros o Ho; simpl in Ho; intuition discriminate).
  - reflexivity.
Defined.

(** * Further properties of the code *)

(** ** The reversed match of line 121 *)

Lemma dict_keys_set_NoDup {K V} `{EqDec K} (d : dict K V) k v :
  NoDup (dict_keys d) -> NoDup (dict_keys (dict_set d k v)).
Proof.
  unfold dict_keys. induction d as [|[k0 v0] r IH]; simpl; intros Hnd.
  - constructor; [tauto | constructor].
  - destruct (eq_dec k k0) as [->|Hne]; simpl; [assumption|].
    inversion_clear Hnd as [|? ? Hk0 Hr]. constructor; [|auto].
    intros Hin. apply Hk0.
    change (In k0 (dict_keys (dict_set r k v))) in Hin.
    apply dict_keys_set in Hin. destruct Hin as [->|Hin]; [congruence|].
    exact Hin.
Qed.

Lemma reverse_fold_keys (m : dict vertex vertex) : forall acc x,
  In x (dict_keys
          (fold_left (fun acc kv => dict_set acc (snd kv) (fst kv)) m acc)) <->
  In x (dict_keys acc) \/ image m x.
Proof.
  unfold image. induction m as [|[k v] r IH]; simpl; intros acc x.
  - split; [auto | intros [Hx|[k []]]; exact Hx].
  - rewrite IH, dict_keys_set. split.
    + intros [[->|Hx]|[k' Hk']]; eauto.
    + intros [Hx|[k' [[= <- <-]|Hk']]]; eauto.
Qed.

Lemma reverse_fold_NoDup (m : dict vertex vertex) : forall acc,
  NoDup (dict_keys acc) ->
  NoDup (dict_keys
           (fold_left (fun acc kv => dict_set acc (snd kv) (fst kv)) m acc)).
Proof.
  induction m as [|[k v] r IH]; simpl; intros acc Hnd; [assumption|].
  apply IH. now apply dict_keys_set_NoDup.
Qed.

Lemma reverse_fold_get (m : dict vertex vertex) : forall acc v,
  NoDup (map snd m) ->
  (forall k, In (k, v) m ->
     dict_get (fold_left (fun acc kv => dict_set acc (snd kv) (fst kv)) m acc)
       v = Some k) /\
  ((forall k, ~ In (k, v) m) ->
     dict_get (fold_left (fun acc kv => dict_set acc (snd kv) (fst kv)) m acc)
       v = dict_get acc v).
Proof.
  induction m as [|[k0 v0] r IH]; simpl; intros acc v Hnd.
  - split; [tauto | reflexivity].
  - inversion_clear Hnd as [|? ? Hv0 Hr].
    destruct (IH (dict_set acc v0 k0) v Hr) as [IH1 IH2]. split.
    + intros k [[= <- <-]|Hin]; [|auto].
      rewrite IH2; [apply dict_get_set_same|].
      intros k' Hk'. apply Hv0. apply in_map_iff. exists (k', v0). auto.
    + intros Hnone. rewrite IH2 by (intros k Hk; apply (Hnone k); auto).
      apply dict_get_set_other. intros ->. apply (Hnone k0). auto.
Qed.

(** X1: for a match that sends no two pattern nodes to one target node, the
    reversed match looks a target node up to the pattern node matched to it,
    and to nothing when no pattern node is. *)
Theorem reverse_dict_lookup m k v :
  NoDup (map snd m) ->
  (dict_get (reverse_dict m) v = Some k <-> In (k, v) m).
Proof.
  intros Hnd. unfold reverse_dict.
  destruct (reverse_fold_get m [] v Hnd) as [H1 H2]. split.
  - intros Hget.
    destruct (in_dec eq_dec v (map snd m)) as [Hin|Hout].
    + apply in_map_iff in Hin. destruct Hin as ([k' v'] & Hv & Hin).
      simpl in Hv. subst v'. rewrite (H1 k' Hin) in Hget. congruence.
    + rewrite H2 in Hget; [discriminate|].
      intros k' Hk'. apply Hout. apply in_map_iff. exists (k', v). auto.
  - apply H1.
Qed.

Lemma reverse_dict_lookup_witness :
  dict_get (reverse_dict prefix_match) (Node 11 "banana") = Some (Node 2 "b")
  <-> In (Node 2 "b", Node 11 "banana") prefix_match.
Proof.
  apply (reverse_dict_lookup prefix_match (Node 2 "b") (Node 11 "banana")).
  simpl. repeat constructor; simpl; intuition discriminate.
Defined.

(** X2: the loop of line 136 visits every image of the match, and each of
    them once, whether or not the match is one-to-one: the keys of the
    reversed match are the images, without repetition. *)
Theorem reverse_dict_keys_once m :
  NoDup (dict_keys (reverse_dict m)) /\
  forall x, In x (dict_keys (reverse_dict m)) <-> image m x.
Proof.
  unfold reverse_dict. split.
  - apply reverse_fold_NoDup. constructor.
  - intros x. rewrite reverse_fold_keys. simpl. tauto.
Qed.

(** ** Failures of rule construction *)

Lemma fill_graph_in_node_dict_root ns : forall d,
  In root_node ns -> fill_graph_in_node_dict ns d = Raise AttributeError.
Proof.
  induction ns as [|x r IH]; simpl; intros d Hin; [contradiction|].
  destruct x as [|i v]; simpl; [reflexivity|].
  apply IH. destruct Hin as [Hx|Hin]; [discriminate | exact Hin].
Qed.

(** X3: a pattern descriptor whose input graph enumerates the sentinel
    anywhere but first (the slice [[1:]] assumes it is first, and only
    there) makes rule construction raise AttributeError, whatever the output
    pattern. *)
Theorem Rule_init_sentinel_misplaced pin pout :
  In root_node (tl (nodes (graph pin))) ->
  Rule_init pin pout = Raise AttributeError.
Proof.
  intros Hin. unfold Rule_init, _create_node_dict.
  now rewrite (fill_graph_in_node_dict_root _ [] Hin).
Qed.

Lemma Rule_init_sentinel_misplaced_witness :
  Rule_init
    (mkParserObj (mkDiGraph [Node 1 "a"; root_node] []) ["a"%string])
    hollow_out = Raise AttributeError.
Proof.
  apply (Rule_init_sentinel_misplaced
           (mkParserObj (mkDiGraph [Node 1 "a"; root_node] []) ["a"%string])
           hollow_out).
  simpl. auto.
Defined.

Lemma scan_unmatched_raises_KeyError gind obj : forall unmatched rnd acc e,
  ~ In root_node unmatched ->
  scan_unmatched gind obj unmatched rnd acc = Raise e ->
  e = KeyError /\ dict_get gind obj = None.
Proof.
  induction unmatched as [|x r IH]; simpl; intros rnd acc e Hroot Hs;
    [discriminate|].
  destruct x as [|i v]; [tauto|]. simpl in Hs.
  destruct (eqb v obj); [|eapply IH; eauto].
  unfold dict_getitem in Hs. destruct (dict_get gind obj) eqn:Hg; simpl in Hs.
  - eapply IH in Hs; [|tauto]. destruct Hs as [_ Hs]. discriminate.
  - injection Hs as <-. auto.
Qed.

Lemma for_common_obj_outcome gind : forall common unmatched nd rnd,
  ~ In root_node unmatched ->
  (exists p, In p common /\ dict_get gind p = None /\
             for_common_obj gind common unmatched nd rnd = Raise KeyError) \/
  ((forall p, In p common -> dict_get gind p <> None) /\
   exists r, for_common_obj gind common unmatched nd rnd = Ok r).
Proof.
  induction common as [|obj r IH]; simpl; intros unmatched nd rnd Hroot.
  - right. split; [tauto | eauto].
  - destruct (scan_unmatched gind obj unmatched rnd []) as [[rnd1 objs]|e]
      eqn:Hscan; simpl.
    + unfold dict_getitem. destruct (dict_get gind obj) as [src|] eqn:Hg; simpl.
      * apply scan_unmatched_spec in Hscan. destruct Hscan as [-> _]. simpl.
        rewrite (fold_list_remove_filter (has_value obj) unmatched [])
          by (simpl; tauto).
        simpl.
        destruct (IH (filter (fun x => negb (has_value obj x)) unmatched)
                    (dict_set nd src (filter (has_value obj) unmatched)) rnd1)
          as [(p & Hp & Hnone & Hr)|[Hall Hok]].
        -- rewrite filter_In. tauto.
        -- left. exists p. auto.
        -- right. split; [|exact Hok].
           intros p [<-|Hp]; [congruence | auto].
      * left. exists obj. auto.
    + apply scan_unmatched_raises_KeyError in Hscan; [|assumption].
      destruct Hscan as [-> Hnone]. left. exists obj. auto.
Qed.

(** X4: when the sentinel is nowhere but first in both node enumerations,
    rule construction succeeds exactly when every payload common to the two
    payload sets is carried by some non-root input node, and raises KeyError
    otherwise. *)
Theorem Rule_init_outcome pin pout :
  ~ In root_node (tl (nodes (graph pin))) ->
  ~ In root_node (tl (nodes (graph pout))) ->
  ((exists r, Rule_init pin pout = Ok r) <->
   forall p, In p (set_and (variables_constants pin) (variables_constants pout)) ->
             exists n, In n (tl (nodes (graph pin))) /\ has_value p n = true) /\
  ((exists r, Rule_init pin pout = Ok r) \/ Rule_init pin pout = Raise KeyError).
Proof.
  intros Hin Hout. unfold Rule_init, _create_node_dict.
  destruct (fill_graph_in_node_dict_total (tl (nodes (graph pin))) [] Hin)
    as [gind Hfill].
  rewrite Hfill. simpl.
  assert (Hgind : forall q, dict_get gind q = last_carrier (tl (nodes (graph pin))) q).
  { intros q. rewrite (fill_graph_in_node_dict_get _ _ _ q Hfill).
    now destruct (last_carrier (tl (nodes (graph pin))) q). }
  destruct (for_common_obj_outcome gind
              (set_and (variables_constants pin) (variables_constants pout))
              (tl (nodes (graph pout))) [] [] Hout)
    as [(p & Hp & Hnone & Hr)|[Hall [[nd rnd] Hok]]].
  - rewrite Hr. simpl. split; [|auto]. split.
    + intros [r Hr']. discriminate.
    + intros Hcar. exfalso. destruct (Hcar p Hp) as (n & Hn & Hv).
      destruct (last_carrier_exists _ _ _ Hn Hv) as [m Hm].
      rewrite Hgind in Hnone. congruence.
  - rewrite Hok. simpl. split; [|eauto]. split; [|eauto].
    intros _ p Hp. specialize (Hall p Hp). rewrite Hgind in Hall.
    destruct (last_carrier (tl (nodes (graph pin))) p) as [n|] eqn:Hl;
      [|congruence].
    apply last_carrier_In in Hl. eauto.
Qed.

Lemma Rule_init_outcome_witness :
  ((exists r, Rule_init hollow_in hollow_out = Ok r) <->
   forall p,
     In p (set_and (variables_constants hollow_in)
             (variables_constants hollow_out)) ->
     exists n, In n (tl (nodes (graph hollow_in))) /\ has_value p n = true) /\
  ((exists r, Rule_init hollow_in hollow_out = Ok r) \/
   Rule_init hollow_in hollow_out = Raise KeyError).
Proof.
  apply (Rule_init_outcome hollow_in hollow_out); simpl; intuition discriminate.
Defined.

(** ** What [apply] leaves alone *)

Lemma copy_output_node_frame self node s s' c :
  _copy_output_node self node s = (Ok c, s') ->
  _cur_graph s' = _cur_graph s /\
  _cur_transform_dict s' = _cur_transform_dict s.
Proof.
  unfold _copy_output_node. intros Hrun.
  destruct (dict_get (reverse_node_dict self) node) as [in_node|].
  - apply bind_Ok in Hrun. destruct Hrun as (tr & s1 & Hg & Hrun).
    apply gets_Ok in Hg. destruct Hg as [-> ->].
    apply bind_Ok in Hrun. destruct Hrun as (t & s1 & Hl & Hrun).
    apply lift_Ok in Hl. destruct Hl as [_ ->].
    apply bind_Ok in Hrun. destruct Hrun as (v & s1 & Hl & Hrun).
    apply lift_Ok in Hl. destruct Hl as [_ ->].
    apply bind_Ok in Hrun. destruct Hrun as (nc & s1 & Hnew & Hrun).
    unfold new_Node in Hnew. injection Hnew as <- <-.
    apply bind_Ok in Hrun. destruct Hrun as ([] & s2 & Happ & Hrun).
    unfold cur_node_dict_append in Happ. apply modify_Ok in Happ. subst s2.
    apply ret_Ok in Hrun. destruct Hrun as [_ ->]. auto.
  - apply bind_Ok in Hrun. destruct Hrun as (v & s1 & Hl & Hrun).
    apply lift_Ok in Hl. destruct Hl as [_ ->].
    unfold new_Node in Hrun. injection Hrun as _ <-. auto.
Qed.

Section GraphInvariant.
Variable m : dict vertex vertex.
Variable J : DiGraph -> Prop.
Hypothesis J_add_edge : forall u w o g, J g -> J (add_edge u w o g).
Hypothesis J_shift_orders : forall p c d g, J g -> J (shift_orders p c d g).
Hypothesis J_remove_edge : forall u w g g',
  image m u -> image m w -> J g -> remove_edge u w g = Ok g' -> J g'.
Hypothesis J_remove_node : forall x g g',
  image m x -> J g -> remove_node x g = Ok g' -> J g'.

(** The state kept by the helpers: the graph satisfies [J] and the match in
    use is [m]. *)
Lemma remove_mapped_edges_rec_keeps self depth : forall node s s' u,
  J (_cur_graph s) -> _cur_transform_dict s = m ->
  _remove_mapped_edges_rec self depth node s = (Ok u, s') ->
  J (_cur_graph s') /\ _cur_transform_dict s' = m.
Proof.
  induction depth as [|d IH]; intros node s s' u Hj Hm Hrun; simpl in Hrun;
    [discriminate|].
  apply bind_Ok in Hrun. destruct Hrun as (tr & s1 & Hg & Hrun).
  apply gets_Ok in Hg. destruct Hg as [-> ->].
  apply bind_Ok in Hrun. destruct Hrun as (succs & s1 & Hs & Hrun).
  apply lift_Ok in Hs. destruct Hs as [_ ->].
  revert Hrun.
  apply (forM__inv (fun t => J (_cur_graph t) /\ _cur_transform_dict t = m));
    [|auto].
  intros x s1 s2 _ [Hi Ht] Hb.
  apply bind_Ok in Hb. destruct Hb as (a & s3 & Ha & Hb).
  apply lift_Ok in Ha. destruct Ha as [Ha ->].
  apply bind_Ok in Hb. destruct Hb as (b & s3 & Hv & Hb).
  apply lift_Ok in Hv. destruct Hv as [Hv ->].
  apply dict_getitem_Ok, dict_get_In in Ha, Hv. rewrite Hm in Ha, Hv.
  apply bind_Ok in Hb. destruct Hb as ([] & s3 & Hrm & Hb).
  apply graph_try_Ok in Hrm. destruct Hrm as (g & Hrm & ->).
  apply IH in Hb; [assumption | | assumption].
  simpl. eapply J_remove_edge; [| |exact Hi|exact Hrm]; eexists; eassumption.
Qed.

Lemma add_output_graph_rec_keeps self depth : forall n c s s' u,
  J (_cur_graph s) -> _cur_transform_dict s = m ->
  _add_output_graph_rec self depth n c s = (Ok u, s') ->
  J (_cur_graph s') /\ _cur_transform_dict s' = m.
Proof.
  induction depth as [|d IH]; intros n c s s' u Hj Hm Hrun; simpl in Hrun;
    [discriminate|].
  apply bind_Ok in Hrun. destruct Hrun as (succs & s1 & Hs & Hrun).
  apply lift_Ok in Hs. destruct Hs as [_ ->].
  revert Hrun.
  apply (forM__inv (fun t => J (_cur_graph t) /\ _cur_transform_dict t = m));
    [|auto].
  intros x s1 s2 _ [Hi Ht] Hb.
  apply bind_Ok in Hb. destruct Hb as (nc & s3 & Hcopy & Hb).
  apply copy_output_node_frame in Hcopy. destruct Hcopy as [Hg3 Ht3].
  apply bind_Ok in Hb. destruct Hb as (o & s4 & Ho & Hb).
  apply lift_Ok in Ho. destruct Ho as [_ ->].
  apply bind_Ok in Hb. destruct Hb as ([] & s4 & Hadd & Hb).
  apply graph_do_Ok in Hadd. subst s4.
  apply IH in Hb; [assumption | | simpl; congruence].
  simpl. apply J_add_edge. now rewrite Hg3.
Qed.

Lemma add_output_graph_keeps self depth s s' u :
  J (_cur_graph s) -> _cur_transform_dict s = m ->
  _add_output_graph self depth s = (Ok u, s') ->
  J (_cur_graph s') /\ _cur_transform_dict s' = m.
Proof.
  intros Hj Hm Hrun. unfold _add_output_graph in Hrun.
  apply bind_Ok in Hrun. destruct Hrun as ([] & s1 & Hmod & Hrun).
  apply modify_Ok in Hmod. subst s1.
  apply bind_Ok in Hrun. destruct Hrun as (succs & s1 & Hs & Hrun).
  apply lift_Ok in Hs. destruct Hs as [_ ->].
  revert Hrun.
  apply (forM__inv (fun t => J (_cur_graph t) /\ _cur_transform_dict t = m));
    [|auto].
  intros x s1 s2 _ [Hi Ht] Hb.
  apply bind_Ok in Hb. destruct Hb as (nc & s3 & Hcopy & Hb).
  apply copy_output_node_frame in Hcopy. destruct Hcopy as [Hg3 Ht3].
  apply bind_Ok in Hb. destruct Hb as ([] & s4 & Hadd & Hb).
  eapply add_output_graph_rec_keeps; [| |exact Hb].
  - destruct (dict_mem (reverse_node_dict self) x).
    + apply ret_Ok in Hadd. destruct Hadd as [_ ->]. now rewrite Hg3.
    + apply graph_do_Ok in Hadd. subst s4. simpl.
      apply J_add_edge. now rewrite Hg3.
  - destruct (dict_mem (reverse_node_dict self) x).
    + apply ret_Ok in Hadd. destruct Hadd as [_ ->]. congruence.
    + apply graph_do_Ok in Hadd. subst s4. simpl. congruence.
Qed.

Lemma add_copies_keeps pre c i_nodes : forall g,
  J g -> J (add_copies pre c i_nodes g).
Proof.
  unfold add_copies. induction i_nodes as [|x r IH]; simpl; intros g Hj; auto.
Qed.

Lemma apply_graph_node_keeps rtd cnd x s s' u :
  image m x -> J (_cur_graph s) ->
  apply_graph_node rtd cnd x s = (Ok u, s') ->
  J (_cur_graph s').
Proof.
  intros Hx Hj Hrun. unfold apply_graph_node in Hrun.
  assert (Hdel : forall t w t', J (_cur_graph t) ->
             graph_try (remove_node x) t = (Ok w, t') -> J (_cur_graph t')).
  { intros t w t' Ht Hrm. apply graph_try_Ok in Hrm.
    destruct Hrm as (g & Hrm & ->). simpl. eapply J_remove_node; eauto. }
  destruct (dict_get cnd x) as [out_nodes|].
  - apply bind_Ok in Hrun. destruct Hrun as (preds & s1 & Hp & Hrun).
    apply graph_get_Ok in Hp. destruct Hp as [_ ->].
    apply bind_Ok in Hrun. destruct Hrun as ([] & s1 & Hloop & Hrun).
    assert (H1 : J (_cur_graph s1)).
    { revert Hloop. apply (forM__inv (fun t => J (_cur_graph t))); [|assumption].
      intros p t1 t2 _ Hi Hb. apply reattach_pred_run in Hb.
      destruct Hb as [[_ ->]|(_ & c & _ & ->)]; [assumption|].
      simpl. apply add_copies_keeps, J_shift_orders, Hi. }
    apply bind_Ok in Hrun. destruct Hrun as (succs & s2 & Hs & Hrun).
    apply graph_get_Ok in Hs. destruct Hs as [_ ->].
    apply bind_Ok in Hrun. destruct Hrun as ([] & s2 & Hloop2 & Hrun).
    assert (H2 : J (_cur_graph s2)).
    { revert Hloop2. apply (forM__inv (fun t => J (_cur_graph t)));
        [|assumption].
      intros q t1 t2 _ Hi Hb. unfold reattach_suc in Hb.
      destruct (dict_mem rtd q).
      - apply ret_Ok in Hb. destruct Hb as [_ ->]. assumption.
      - revert Hb. apply (forM__inv (fun t => J (_cur_graph t))); [|assumption].
        intros v r1 r2 _ Hjr Hc.
        apply bind_Ok in Hc. destruct Hc as (o & r3 & Ho & Hc).
        apply graph_get_Ok in Ho. destruct Ho as [_ ->].
        apply graph_do_Ok in Hc. subst r2. simpl. now apply J_add_edge. }
    eauto.
  - unfold collect_orphan in Hrun.
    apply bind_Ok in Hrun. destruct Hrun as (g & s1 & Hg & Hrun).
    apply gets_Ok in Hg. destruct Hg as [-> ->].
    apply bind_Ok in Hrun. destruct Hrun as (no_out & s1 & Hd & Hrun).
    apply lift_Ok in Hd. destruct Hd as [_ ->].
    destruct no_out.
    + apply bind_Ok in Hrun. destruct Hrun as (no_in & s1 & Hd & Hrun).
      apply lift_Ok in Hd. destruct Hd as [_ ->].
      destruct no_in; [eauto|].
      apply bind_Ok in Hrun. destruct Hrun as (preds & s1 & Hp & Hrun).
      apply lift_Ok in Hp. destruct Hp as [_ ->].
      destruct (mem root_node preds); [eauto|].
      apply ret_Ok in Hrun. destruct Hrun as [_ ->]. assumption.
    + apply ret_Ok in Hrun. destruct Hrun as [_ ->]. assumption.
Qed.

Lemma apply_keeps self depth g copy s r s' :
  J g -> apply self depth g m copy s = (Ok r, s') -> J (_cur_graph s').
Proof.
  intros Hj Hrun. destruct copy; [discriminate|].
  unfold apply in Hrun.
  apply bind_Ok in Hrun. destruct Hrun as (gm & s1 & Hr & Hrun).
  apply ret_Ok in Hr. destruct Hr as [-> ->]. simpl in Hrun.
  apply bind_Ok in Hrun. destruct Hrun as ([] & s1 & Hs & Hrun).
  apply modify_Ok in Hs. subst s1.
  apply bind_Ok in Hrun. destruct Hrun as ([] & s1 & Hs & Hrun).
  apply modify_Ok in Hs. subst s1.
  apply bind_Ok in Hrun. destruct Hrun as (in_nodes & s1 & Hs & Hrun).
  apply lift_Ok in Hs. destruct Hs as [_ ->].
  apply bind_Ok in Hrun. destruct Hrun as ([] & s1 & Hphase1 & Hrun).
  assert (H1 : J (_cur_graph s1) /\ _cur_transform_dict s1 = m).
  { revert Hphase1.
    apply (forM__inv (fun t => J (_cur_graph t) /\ _cur_transform_dict t = m));
      [|auto].
    intros x t1 t2 _ [Hi Ht] Hb.
    eapply remove_mapped_edges_rec_keeps; eauto. }
  destruct H1 as [H1 Ht1].
  apply bind_Ok in Hrun. destruct Hrun as ([] & s2 & Hphase2 & Hrun).
  apply add_output_graph_keeps in Hphase2; [|assumption|assumption].
  destruct Hphase2 as [H2 _].
  apply bind_Ok in Hrun. destruct Hrun as (cnd & s3 & Hg & Hrun).
  apply gets_Ok in Hg. destruct Hg as [-> ->].
  apply bind_Ok in Hrun. destruct Hrun as ([] & s3 & Hphase3 & Hrun).
  apply ret_Ok in Hrun. destruct Hrun as [_ ->].
  revert Hphase3. apply (forM__inv (fun t => J (_cur_graph t))); [|assumption].
  intros x t1 t2 Hx Hi Hb.
  eapply apply_graph_node_keeps; [|exact Hi|exact Hb].
  apply reverse_dict_keys in Hx. exact Hx.
Qed.
End GraphInvariant.

Lemma add_node_nodes g n v : In v (nodes g) -> In v (nodes (add_node g n)).
Proof.
  unfold add_node. destruct (has_node g n); simpl; [auto|].
  intros Hv. apply in_or_app. auto.
Qed.

Lemma set_edge_keeps_pair (es : list (vertex * vertex * Z)) a b o u v o1 :
  In (u, v, o1) es -> exists o', In (u, v, o') (set_edge es a b o).
Proof.
  intros Hin. destruct (eq_dec u a) as [->|Hu].
  - destruct (eq_dec v b) as [->|Hv].
    + exists o. apply set_edge_In_new.
    + exists o1. apply set_edge_In_old; [assumption | right; exact Hv].
  - exists o1. apply set_edge_In_old; [assumption | left; exact Hu].
Qed.

(** X5: a completed [apply] deletes no node outside the image of the match:
    every node of the target graph that no pattern node is matched to is
    still a node afterwards (the sentinel included, when it is no image). *)
Theorem apply_keeps_outside_nodes self depth g m copy s r s' v :
  apply self depth g m copy s = (Ok r, s') ->
  In v (nodes g) -> ~ image m v ->
  In v (nodes (_cur_graph s')).
Proof.
  intros Hrun Hv Hout.
  apply (apply_keeps m (fun g' => In v (nodes g'))) with (6 := Hrun);
    [| | | |exact Hv].
  - intros u w o g' Hin. unfold add_edge. simpl.
    now apply add_node_nodes, add_node_nodes.
  - intros p c d g' Hin. exact Hin.
  - intros u w g1 g2 _ _ Hin Hrm. unfold remove_edge in Hrm.
    destruct (get_edge_data g1 u w); [|discriminate].
    injection Hrm as <-. exact Hin.
  - intros x g1 g2 Hx Hin Hrm. unfold remove_node in Hrm.
    destruct (has_node g1 x); [|discriminate]. injection Hrm as <-.
    simpl. apply filter_In. split; [assumption|].
    apply negb_true_iff, eqb_neq. intros ->. contradiction.
Qed.

Lemma apply_keeps_outside_nodes_witness :
  In (Node 11 "G") (nodes (_cur_graph alias_done_store)).
Proof.
  apply (apply_keeps_outside_nodes pair_rule 50 alias_target
           [(Node 1 "a", Node 1 "a")] false (fresh_store 100) None
           alias_done_store (Node 11 "G")).
  - reflexivity.
  - simpl. auto.
  - intros [k Hk]. simpl in Hk. destruct Hk as [Hk|[]]. discriminate.
Defined.

(** X6: a completed [apply] removes no edge between two nodes outside the
    image of the match: such an edge is still there afterwards, possibly
    with a new order value. *)
Theorem apply_keeps_outside_edges self depth g m copy s r s' u v o :
  apply self depth g m copy s = (Ok r, s') ->
  In (u, v, o) (edges g) -> ~ image m u -> ~ image m v ->
  exists o', In (u, v, o') (edges (_cur_graph s')).
Proof.
  intros Hrun Hin Hu Hv.
  apply (apply_keeps m (fun g' => exists o', In (u, v, o') (edges g')))
    with (6 := Hrun); [| | | |eauto].
  - intros a b o1 g' [o' Ho']. unfold add_edge. simpl.
    eapply set_edge_keeps_pair. exact Ho'.
  - intros p c d g' [o' Ho']. unfold shift_orders. simpl.
    destruct (eqb u p && (c <? o')%Z) eqn:Hc.
    + exists (o' + d)%Z. apply in_map_iff. exists (u, v, o').
      split; [|assumption]. unfold esrc, etgt, eord. simpl. now rewrite Hc.
    + exists o'. apply in_map_iff. exists (u, v, o').
      split; [|assumption]. unfold esrc, etgt, eord. simpl. now rewrite Hc.
  - intros a b g1 g2 Ha _ [o' Ho'] Hrm. unfold remove_edge in Hrm.
    destruct (get_edge_data g1 a b); [|discriminate].
    injection Hrm as <-. exists o'. simpl. apply filter_In.
    split; [assumption|]. unfold esrc, etgt. simpl.
    apply negb_true_iff, andb_false_iff. left. apply eqb_neq.
    intros ->. contradiction.
  - intros x g1 g2 Hx [o' Ho'] Hrm. unfold remove_node in Hrm.
    destruct (has_node g1 x); [|discriminate]. injection Hrm as <-.
    exists o'. simpl. apply filter_In. split; [assumption|].
    unfold esrc, etgt. simpl. apply andb_true_iff.
    split; apply negb_true_iff, eqb_neq; intros ->; contradiction.
Qed.

Lemma apply_keeps_outside_edges_witness :
  exists o',
    In (Node 11 "G", Node 12 "w", o') (edges (_cur_graph alias_done_store)).
Proof.
  apply (apply_keeps_outside_edges pair_rule 50 alias_target
           [(Node 1 "a", Node 1 "a")] false (fresh_store 100) None
           alias_done_store (Node 11 "G") (Node 12 "w") 1%Z).
  - reflexivity.
  - simpl. auto.
  - intros [k Hk]. simpl in Hk. destruct Hk as [Hk|[]]. discriminate.
  - intros [k Hk]. simpl in Hk. destruct Hk as [Hk|[]]. discriminate.
Defined.

(** X7: when the input pattern graph of the rule has no root sentinel,
    [apply] in place raises NetworkXError at line 128, having done nothing
    but record the graph and the match: the graph is as the caller passed
    it and nothing was allocated. *)
Theorem apply_rootless_input self depth g m s :
  has_node (_graph_in self) root_node = false ->
  apply self depth g m false s =
  (Raise NetworkXError, mkStore g m (_cur_node_dict s) (next_id s)).
Proof.
  intros Hroot. unfold apply, bind, ret, modify, lift, successors.
  simpl. now rewrite Hroot.
Qed.

Lemma apply_rootless_input_witness :
  apply rootless_rule 50 prefix_target [(Node 1 "a", Node 10 "hello")] false
    (fresh_store 100) =
  (Raise NetworkXError,
   mkStore prefix_target [(Node 1 "a", Node 10 "hello")]
     (_cur_node_dict (fresh_store 100)) (next_id (fresh_store 100))).
Proof.
  apply (apply_rootless_input rootless_rule 50 prefix_target
           [(Node 1 "a", Node 10 "hello")] (fresh_store 100)).
  reflexivity.
Defined.

(** ** What the instantiation of the output pattern records *)

Lemma recorded_copies_set_cur_graph self N g t :
  recorded_copies self N t -> recorded_copies self N (set_cur_graph g t).
Proof. intros Hr. exact Hr. Qed.

Lemma copy_output_node_records self N node s s' c :
  recorded_copies self N s -> N <= next_id s ->
  _copy_output_node self node s = (Ok c, s') ->
  recorded_copies self N s' /\ N <= next_id s'.
Proof.
  intros Hrec Hid Hrun. unfold _copy_output_node in Hrun.
  assert (Hgrow : forall t,
             _cur_node_dict t = _cur_node_dict s ->
             _cur_transform_dict t = _cur_transform_dict s ->
             next_id t = S (next_id s) -> recorded_copies self N t).
  { intros t Hc Ht Hn k l Hk. rewrite Hc in Hk.
    destruct (Hrec k l Hk) as (Hout & Hne & Hall).
    split; [assumption|]. split; [assumption|].
    intros c' Hc'. destruct (Hall c' Hc') as (tgt & v & i & H1 & H2 & H3 & H4).
    exists tgt, v, i. rewrite Ht, Hn. repeat split; auto; lia. }
  destruct (dict_get (reverse_node_dict self) node) as [in_node|] eqn:Hrnd.
  - apply bind_Ok in Hrun. destruct Hrun as (tr & s1 & Hg & Hrun).
    apply gets_Ok in Hg. destruct Hg as [-> ->].
    apply bind_Ok in Hrun. destruct Hrun as (t & s1 & Hl & Hrun).
    apply lift_Ok in Hl. destruct Hl as [Ht ->].
    apply dict_getitem_Ok in Ht.
    apply bind_Ok in Hrun. destruct Hrun as (v & s1 & Hl & Hrun).
    apply lift_Ok in Hl. destruct Hl as [Hv ->].
    apply bind_Ok in Hrun. destruct Hrun as (nc & s1 & Hnew & Hrun).
    unfold new_Node in Hnew. injection Hnew as <- <-.
    apply bind_Ok in Hrun. destruct Hrun as ([] & s2 & Happ & Hrun).
    unfold cur_node_dict_append in Happ. apply modify_Ok in Happ. subst s2.
    apply ret_Ok in Hrun. destruct Hrun as [_ ->].
    split; [|simpl; lia].
    intros k l Hk. simpl in Hk. rewrite dict_get_set in Hk.
    destruct (eq_dec k in_node) as [->|Hne].
    + injection Hk as <-. split; [eauto|]. split.
      * intros Hnil. apply app_eq_nil in Hnil. destruct Hnil. discriminate.
      * intros c' Hc'. apply in_app_or in Hc'.
        destruct Hc' as [Hc'|[<-|[]]].
        -- destruct (dict_get (_cur_node_dict s) in_node) as [l0|] eqn:Hl0;
             [|contradiction].
           destruct (Hrec in_node l0 Hl0) as (_ & _ & Hall).
           destruct (Hall c' Hc') as (tgt & v' & i & H1 & H2 & H3 & H4).
           exists tgt, v', i. simpl. repeat split; auto; lia.
        -- exists t, v, (next_id s). simpl. repeat split; auto; lia.
    + destruct (Hrec k l Hk) as (Hout & Hnel & Hall).
      split; [assumption|]. split; [assumption|].
      intros c' Hc'. destruct (Hall c' Hc') as (tgt & v' & i & H1 & H2 & H3 & H4).
      exists tgt, v', i. simpl. repeat split; auto; lia.
  - apply bind_Ok in Hrun. destruct Hrun as (v & s1 & Hl & Hrun).
    apply lift_Ok in Hl. destruct Hl as [_ ->].
    unfold new_Node in Hrun. injection Hrun as _ <-.
    split; [|simpl; lia]. apply Hgrow; reflexivity.
Qed.

Lemma add_output_graph_rec_records self N depth : forall n c s s' u,
  recorded_copies self N s -> N <= next_id s ->
  _add_output_graph_rec self depth n c s = (Ok u, s') ->
  recorded_copies self N s' /\ N <= next_id s'.
Proof.
  induction depth as [|d IH]; intros n c s s' u Hrec Hid Hrun; simpl in Hrun;
    [discriminate|].
  apply bind_Ok in Hrun. destruct Hrun as (succs & s1 & Hs & Hrun).
  apply lift_Ok in Hs. destruct Hs as [_ ->].
  revert Hrun.
  apply (forM__inv (fun t => recorded_copies self N t /\ N <= next_id t));
    [|auto].
  intros x s1 s2 _ [Hi1 Hi2] Hb.
  apply bind_Ok in Hb. destruct Hb as (nc & s3 & Hcopy & Hb).
  apply (copy_output_node_records self N) in Hcopy; [|assumption|assumption].
  destruct Hcopy as [Hr3 Hn3].
  apply bind_Ok in Hb. destruct Hb as (o & s4 & Ho & Hb).
  apply lift_Ok in Ho. destruct Ho as [_ ->].
  apply bind_Ok in Hb. destruct Hb as ([] & s4 & Hadd & Hb).
  apply graph_do_Ok in Hadd. subst s4.
  eapply IH; [| |exact Hb]; assumption.
Qed.

(** X8: when [_add_output_graph] returns, every key of [_cur_node_dict] is an
    input-pattern node (a value of [reverse_node_dict], never a node of the
    target graph as such), and its list is non-empty and made of nodes
    allocated by this call, each carrying the payload of the target node the
    match gives for the key. *)
Theorem add_output_graph_records self depth s s' u :
  _add_output_graph self depth s = (Ok u, s') ->
  recorded_copies self (next_id s) s'.
Proof.
  intros Hrun. unfold _add_output_graph in Hrun.
  apply bind_Ok in Hrun. destruct Hrun as ([] & s1 & Hmod & Hrun).
  apply modify_Ok in Hmod. subst s1.
  apply bind_Ok in Hrun. destruct Hrun as (succs & s1 & Hs & Hrun).
  apply lift_Ok in Hs. destruct Hs as [_ ->].
  assert (Hboth : recorded_copies self (next_id s) s' /\ next_id s <= next_id s');
    [|tauto].
  revert Hrun.
  apply (forM__inv (fun t => recorded_copies self (next_id s) t /\
                             next_id s <= next_id t)).
  - intros x s1 s2 _ [Hi1 Hi2] Hb.
    apply bind_Ok in Hb. destruct Hb as (nc & s3 & Hcopy & Hb).
    apply (copy_output_node_records self (next_id s)) in Hcopy;
      [|assumption|assumption].
    destruct Hcopy as [Hr3 Hn3].
    apply bind_Ok in Hb. destruct Hb as ([] & s4 & Hadd & Hb).
    eapply add_output_graph_rec_records; [| |exact Hb].
    + destruct (dict_mem (reverse_node_dict self) x).
      * apply ret_Ok in Hadd. destruct Hadd as [_ ->]. assumption.
      * apply graph_do_Ok in Hadd. subst s4. assumption.
    + destruct (dict_mem (reverse_node_dict self) x).
      * apply ret_Ok in Hadd. destruct Hadd as [_ ->]. assumption.
      * apply graph_do_Ok in Hadd. subst s4. assumption.
  - split; [|simpl; lia]. intros k l Hk. discriminate.
Qed.

Lemma add_output_graph_records_witness :
  recorded_copies pair_rule
    (next_id (mkStore call_target [(Node 1 "a", Node 10 "x")] [] 100))
    (mkStore
       (mkDiGraph
          [root_node; Node 11 "G"; Node 10 "x";
           Node 100 "pair"; Node 101 "x"; Node 102 "x"]
          [(root_node, Node 11 "G", 0%Z); (Node 11 "G", Node 10 "x", 0%Z);
           (root_node, Node 100 "pair", (-1)%Z);
           (Node 100 "pair", Node 101 "x", 0%Z);
           (Node 100 "pair", Node 102 "x", 1%Z)])
       [(Node 1 "a", Node 10 "x")]
       [(Node 1 "a", [Node 101 "x"; Node 102 "x"])]
       103).
Proof.
  apply (add_output_graph_records pair_rule 50
           (mkStore call_target [(Node 1 "a", Node 10 "x")] [] 100) _ tt).
  reflexivity.
Defined.

(** ** The recursion limit *)

Lemma refines_refl {A} (f : M A) : refines f f.
Proof. intros s r s' Hrun _. exact Hrun. Qed.

Lemma refines_bind {A B} (m m' : M A) (f f' : A -> M B) :
  refines m m' -> (forall a, refines (f a) (f' a)) ->
  refines (bind m f) (bind m' f').
Proof.
  intros Hm Hf s r s' Hrun Hne. unfold bind in *.
  destruct (m s) as [[a|e] s1] eqn:Hms.
  - rewrite (Hm s (Ok a) s1 Hms) by discriminate. now apply Hf.
  - injection Hrun as <- <-.
    assert (He : @Raise A e <> Raise RecursionError).
    { intros [= ->]. now apply Hne. }
    now rewrite (Hm s (Raise e) s1 Hms He).
Qed.

Lemma refines_forM_ {A} (l : list A) (f f' : A -> M unit) :
  (forall x, refines (f x) (f' x)) -> refines (forM_ l f) (forM_ l f').
Proof.
  intros Hf. induction l as [|x r IH]; simpl.
  - apply refines_refl.
  - apply refines_bind; [apply Hf | intros _; exact IH].
Qed.

Lemma remove_mapped_edges_rec_refines self : forall d d' node,
  d <= d' ->
  refines (_remove_mapped_edges_rec self d node)
    (_remove_mapped_edges_rec self d' node).
Proof.
  induction d as [|d IH]; intros d' node Hle.
  - intros s r s' Hrun Hne. simpl in Hrun. unfold raise in Hrun.
    injection Hrun as <- _. congruence.
  - destruct d' as [|d']; [lia|]. simpl.
    apply refines_bind; [apply refines_refl|]. intros tr.
    apply refines_bind; [apply refines_refl|]. intros succs.
    apply refines_forM_. intros x.
    apply refines_bind; [apply refines_refl|]. intros a.
    apply refines_bind; [apply refines_refl|]. intros b.
    apply refines_bind; [apply refines_refl|]. intros _.
    apply IH. lia.
Qed.

Lemma add_output_graph_rec_refines self : forall d d' n c,
  d <= d' ->
  refines (_add_output_graph_rec self d n c)
    (_add_output_graph_rec self d' n c).
Proof.
  induction d as [|d IH]; intros d' n c Hle.
  - intros s r s' Hrun Hne. simpl in Hrun. unfold raise in Hrun.
    injection Hrun as <- _. congruence.
  - destruct d' as [|d']; [lia|]. simpl.
    apply refines_bind; [apply refines_refl|]. intros succs.
    apply refines_forM_. intros x.
    apply refines_bind; [apply refines_refl|]. intros nc.
    apply refines_bind; [apply refines_refl|]. intros o.
    apply refines_bind; [apply refines_refl|]. intros _.
    apply IH. lia.
Qed.

(** X9: the outcome of [apply] does not depend on the recursion limit unless
    the limit is hit: a call that ends (returning, or raising anything but
    RecursionError) ends the same way, in the same store, under every larger
    limit. *)
Theorem apply_recursion_limit self d d' g m copy s r s' :
  d <= d' ->
  apply self d g m copy s = (r, s') -> r <> Raise RecursionError ->
  apply self d' g m copy s = (r, s').
Proof.
  intros Hle. revert s r s'. change (refines (apply self d g m copy)
                                       (apply self d' g m copy)).
  unfold apply.
  apply refines_bind; [apply refines_refl|]. intros gm.
  apply refines_bind; [apply refines_refl|]. intros _.
  apply refines_bind; [apply refines_refl|]. intros _.
  apply refines_bind; [apply refines_refl|]. intros in_nodes.
  apply refines_bind.
  { apply refines_forM_. intros x. now apply remove_mapped_edges_rec_refines. }
  intros _. apply refines_bind; [|intros _; apply refines_refl].
  unfold _add_output_graph.
  apply refines_bind; [apply refines_refl|]. intros _.
  apply refines_bind; [apply refines_refl|]. intros succs.
  apply refines_forM_. intros x.
  apply refines_bind; [apply refines_refl|]. intros nc.
  apply refines_bind; [apply refines_refl|]. intros _.
  now apply add_output_graph_rec_refines.
Qed.

Lemma apply_recursion_limit_witness :
  apply prefix_rule 1000 prefix_target prefix_match false (fresh_store 100) =
  (Ok None,
   mkStore
     (mkDiGraph
        [root_node; Node 100 "add_prefix"; Node 101 "hello"; Node 102 "banana"]
        [(root_node, Node 100 "add_prefix", (-1)%Z);
         (Node 100 "add_prefix", Node 101 "hello", 0%Z);
         (Node 100 "add_prefix", Node 102 "banana", 1%Z)])
     prefix_match
     [(Node 1 "a", [Node 101 "hello"]); (Node 2 "b", [Node 102 "banana"])]
     103).
Proof.
  apply (apply_recursion_limit prefix_rule 3 1000 prefix_target prefix_match
           false (fresh_store 100)).
  - lia.
  - reflexivity.
  - discriminate.
Defined.

(** ** The representation built by [predict] *)

Lemma padded_length dfs n g :
  List.length (dfs g) <= n -> List.length (padded dfs n g) = n.
Proof.
  intros Hle. unfold padded. rewrite length_app, repeat_length. lia.
Qed.

(** The loop on any list of graphs and any list built so far: it ends with a
    list exactly when no graph is too long, and the list is then the one
    built so far followed by the padded blocks in order. *)
Lemma predict_loop_inr dfs n graphs acc rep :
  predict_loop dfs n graphs acc = inr rep <->
  Forall (fun g => List.length (dfs g) <= n) graphs /\
  rep = acc ++ flat_map (padded dfs n) graphs.
Proof.
  revert acc. induction graphs as [|g rest IH]; intros acc; simpl.
  - rewrite app_nil_r. split.
    + intros [= <-]. split; [constructor | reflexivity].
    + intros [_ ->]. reflexivity.
  - destruct (n <? List.length (dfs g)) eqn:Hlt.
    + apply Nat.ltb_lt in Hlt. split; [discriminate|].
      intros [Hall _]. inversion Hall; subst. lia.
    + apply Nat.ltb_ge in Hlt. rewrite IH. fold (padded dfs n g).
      rewrite <- app_assoc. split.
      * intros [Hall ->]. split; [constructor; assumption | reflexivity].
      * intros [Hall ->]. inversion Hall; subst. split; [assumption | reflexivity].
Qed.

(** The loop raises for the first graph that is too long, whatever was built
    before. *)
Lemma predict_loop_inl dfs n graphs acc e :
  predict_loop dfs n graphs acc = inl e <->
  exists before g after,
    graphs = before ++ g :: after /\
    Forall (fun g' => List.length (dfs g') <= n) before /\
    n < List.length (dfs g) /\
    e = TooManyNodes g (List.length (dfs g)) n.
Proof.
  revert acc. induction graphs as [|g rest IH]; intros acc; simpl.
  - split; [discriminate|].
    intros (before & g & after & Heq & _). destruct before; discriminate.
  - destruct (n <? List.length (dfs g)) eqn:Hlt.
    + apply Nat.ltb_lt in Hlt. split.
      * intros [= <-]. exists [], g, rest. repeat split; auto.
      * intros (before & g' & after & Heq & Hall & Hgt & ->).
        destruct before as [|b before]; simpl in Heq.
        -- injection Heq as <- _. reflexivity.
        -- injection Heq as <- _. inversion Hall; subst. lia.
    + apply Nat.ltb_ge in Hlt. rewrite IH. split.
      * intros (before & g' & after & -> & Hall & Hgt & ->).
        exists (g :: before), g', after. repeat split; auto.
      * intros (before & g' & after & Heq & Hall & Hgt & ->).
        destruct before as [|b before]; simpl in Heq.
        -- injection Heq as <- _. lia.
        -- injection Heq as <- ->. inversion Hall; subst.
           exists before, g', after. repeat split; auto.
Qed.

(** X10: when [predict] gets as far as the network, the list it hands over
    is made of three blocks, one per graph in the order before, after,
    final; each block is the representation of its graph followed by zeros
    and has [_input_len] entries, so that the list has the [3 * _input_len]
    entries the first layer of the network takes. *)
Theorem predict_representation_blocks dfs n gb ga gf rep :
  predict_representation dfs n gb ga gf = inr rep ->
  rep = padded dfs n gb ++ padded dfs n ga ++ padded dfs n gf /\
  List.length (padded dfs n gb) = n /\
  List.length (padded dfs n ga) = n /\
  List.length (padded dfs n gf) = n /\
  List.length rep = 3 * n.
Proof.
  unfold predict_representation. intros Hrun.
  apply predict_loop_inr in Hrun. destruct Hrun as [Hall ->].
  inversion Hall as [|? ? Hb Hall1]; subst.
  inversion Hall1 as [|? ? Ha Hall2]; subst.
  inversion Hall2 as [|? ? Hf _]; subst.
  simpl. rewrite app_nil_r.
  pose proof (padded_length dfs n gb Hb) as Lb.
  pose proof (padded_length dfs n ga Ha) as La.
  pose proof (padded_length dfs n gf Hf) as Lf.
  split; [reflexivity|]. split; [assumption|]. split; [assumption|].
  split; [assumption|]. rewrite !length_app. lia.
Qed.

Lemma predict_representation_blocks_witness :
  predict_representation node_marks 5 twice_in single_out nested_in =
    inr (padded node_marks 5 twice_in ++ padded node_marks 5 single_out ++
         padded node_marks 5 nested_in) /\
  List.length (padded node_marks 5 twice_in ++ padded node_marks 5 single_out ++
               padded node_marks 5 nested_in) = 3 * 5.
Proof.
  split; [vm_compute; reflexivity|].
  apply (predict_representation_blocks node_marks 5 twice_in single_out
           nested_in).
  vm_compute. reflexivity.
Defined.

(** X11: [predict] raises exactly when one of the three representations is
    longer than [_input_len]; the error is then about the first such graph in
    the order before, after, final, and reports the length found and the
    length allowed; otherwise the list for the network is built. *)
Theorem predict_representation_outcome dfs n gb ga gf :
  match predict_representation dfs n gb ga gf with
  | inr rep =>
      List.length (dfs gb) <= n /\ List.length (dfs ga) <= n /\
      List.length (dfs gf) <= n
  | inl (TooManyNodes g found allowed) =>
      found = List.length (dfs g) /\ allowed = n /\ n < found /\
      (g = gb \/
       (List.length (dfs gb) <= n /\ g = ga) \/
       (List.length (dfs gb) <= n /\ List.length (dfs ga) <= n /\ g = gf))
  end.
Proof.
  destruct (predict_representation dfs n gb ga gf) as [e|rep] eqn:Hrun;
    unfold predict_representation in Hrun.
  - apply predict_loop_inl in Hrun.
    destruct Hrun as (before & g & after & Heq & Hall & Hgt & ->).
    split; [reflexivity|]. split; [reflexivity|]. split; [assumption|].
    destruct before as [|b0 before]; simpl in Heq.
    { injection Heq as <- _. now left. }
    injection Heq as <- Heq. inversion Hall as [|? ? Hb Hall1]; subst.
    destruct before as [|b1 before]; simpl in Heq.
    { injection Heq as <- _. right. left. now split. }
    injection Heq as <- Heq. inversion Hall1 as [|? ? Ha Hall2]; subst.
    destruct before as [|b2 before]; simpl in Heq.
    { injection Heq as <- _. right. right. now repeat split. }
    injection Heq as _ Heq. destruct before; discriminate.
  - apply predict_loop_inr in Hrun. destruct Hrun as [Hall _].
    inversion Hall as [|? ? Hb Hall1]; subst.
    inversion Hall1 as [|? ? Ha Hall2]; subst.
    inversion Hall2 as [|? ? Hf _]; subst.
    now repeat split.
Qed.

(** ** The functions of the string example *)

Lemma list_ascii_of_string_app (a b : string) :
  list_ascii_of_string (a ++ b) =
  list_ascii_of_string a ++ list_ascii_of_string b.
Proof.
  induction a as [|c a IH]; simpl; [reflexivity | now rewrite IH].
Qed.

(** X12: [split_str] loses nothing: joining its result with the empty string
    gives the argument back; the result has one entry per character of the
    argument and each entry is a string of one character. *)
Theorem split_str_round_trip (x : string) :
  String.concat "" (split_str x) = x /\
  List.length (split_str x) = String.length x /\
  Forall (fun c => String.length c = 1) (split_str x).
Proof.
  unfold split_str. induction x as [|c x (IHj & IHl & IHc)]; simpl.
  - split; [reflexivity|]. split; [reflexivity | constructor].
  - split; [|split].
    + destruct x as [|c' x]; [reflexivity|].
      simpl in IHj |- *. now rewrite IHj.
    + now rewrite IHl.
    + constructor; [reflexivity | assumption].
Qed.

Lemma joined_has_underscore (a b : string) :
  In "_"%char (list_ascii_of_string (a ++ "_" ++ b)).
Proof.
  rewrite list_ascii_of_string_app. apply in_or_app. right. now left.
Qed.

Lemma underscore_not_banana (s : string) :
  In "_"%char (list_ascii_of_string s) -> prefix_check s = false.
Proof.
  intros Hin. unfold prefix_check. apply eqb_neq. intros ->.
  simpl in Hin. intuition discriminate.
Qed.

Lemma underscore_not_apple (s : string) :
  In "_"%char (list_ascii_of_string s) -> postfix_check s = false.
Proof.
  intros Hin. unfold postfix_check. apply eqb_neq. intros ->.
  simpl in Hin. intuition discriminate.
Qed.

(** X13: neither predicate of the example accepts a string built by
    [add_prefix], [add_postfix] or [combine_str], whatever the arguments: a
    built string holds an underscore, and "banana" and "apple" hold none. *)
Theorem checks_reject_built_strings (x y : string) :
  prefix_check (add_prefix x y) = false /\
  postfix_check (add_prefix x y) = false /\
  prefix_check (add_postfix x y) = false /\
  postfix_check (add_postfix x y) = false /\
  prefix_check (combine_str x y) = false /\
  postfix_check (combine_str x y) = false.
Proof.
  assert (Hc : In "_"%char (list_ascii_of_string (combine_str x y))).
  { unfold combine_str.
    change (x ++ "_combined_" ++ y)%string
      with (x ++ "_" ++ ("combined_" ++ y))%string.
    apply joined_has_underscore. }
  unfold add_prefix, add_postfix.
  split; [apply underscore_not_banana, joined_has_underscore|].
  split; [apply underscore_not_apple, joined_has_underscore|].
  split; [apply underscore_not_banana, joined_has_underscore|].
  split; [apply underscore_not_apple, joined_has_underscore|].
  split; [apply underscore_not_banana | apply underscore_not_apple]; exact Hc.
Qed.

(** ** What a completed [apply] says of the match *)

Lemma get_edge_data_Some (g : DiGraph) (u v : vertex) (o : Z) :
  get_edge_data g u v = Some o -> In (u, v, o) (edges g).
Proof.
  unfold get_edge_data.
  destruct (find (fun e => eqb (esrc e) u && eqb (etgt e) v) (edges g))
    as [[[a b] c]|] eqn:Hf; [|discriminate].
  intros [= <-]. apply find_some in Hf. destruct Hf as [Hin Htest].
  apply andb_true_iff in Htest. unfold esrc, etgt in Htest. simpl in Htest.
  destruct Htest as [Ha Hb]. apply eqb_eq in Ha, Hb. subst. exact Hin.
Qed.

Lemma remove_edge_Ok (u v : vertex) (g g' : DiGraph) :
  remove_edge u v g = Ok g' ->
  (exists o, In (u, v, o) (edges g)) /\
  nodes g' = nodes g /\ incl (edges g') (edges g).
Proof.
  unfold remove_edge. destruct (get_edge_data g u v) as [o|] eqn:Hd;
    [|discriminate].
  intros [= <-]. simpl. split; [|split].
  - exists o. now apply get_edge_data_Some.
  - reflexivity.
  - intros e He. apply filter_In in He. tauto.
Qed.

Lemma successors_Ok (g : DiGraph) (n : vertex) (l : list vertex) :
  successors g n = Ok l ->
  forall v, In v l <-> exists o, In (n, v, o) (edges g).
Proof.
  unfold successors. destruct (has_node g n); [|discriminate].
  intros [= <-] v. rewrite in_map_iff. split.
  - intros ([[a b] o] & Hv & He). apply out_edges_In in He.
    unfold esrc, etgt in *. simpl in *. destruct He as [He <-]. subst b.
    eauto.
  - intros [o Ho]. exists (n, v, o). split; [reflexivity|].
    apply out_edges_In. auto.
Qed.

Lemma edge_matched_incl m es es' u v :
  incl es es' -> edge_matched m es u v -> edge_matched m es' u v.
Proof.
  intros Hsub (mu & mv & o & Hu & Hv & Hin). exists mu, mv, o. auto.
Qed.

(** A call of [_remove_mapped_edges_rec] that returns has found, for every
    pattern edge below its argument, the images of both ends and an edge
    between them; it leaves the match alone and only takes edges away. *)
Lemma remove_mapped_edges_rec_matched self depth : forall node s s' w,
  _remove_mapped_edges_rec self depth node s = (Ok w, s') ->
  (_cur_transform_dict s' = _cur_transform_dict s /\
   incl (edges (_cur_graph s')) (edges (_cur_graph s))) /\
  forall u v o, descends (_graph_in self) node u ->
    In (u, v, o) (edges (_graph_in self)) ->
    edge_matched (_cur_transform_dict s) (edges (_cur_graph s)) u v.
Proof.
  induction depth as [|d IH]; intros node s s' w Hrun; simpl in Hrun;
    [discriminate|].
  apply bind_Ok in Hrun. destruct Hrun as (tr & s1 & Hg & Hrun).
  apply gets_Ok in Hg. destruct Hg as [-> ->].
  apply bind_Ok in Hrun. destruct Hrun as (succs & s1 & Hs & Hrun).
  apply lift_Ok in Hs. destruct Hs as [Hsuccs ->].
  set (m0 := _cur_transform_dict s) in *.
  set (E0 := edges (_cur_graph s)).
  pose (I := fun t : store =>
               _cur_transform_dict t = m0 /\ incl (edges (_cur_graph t)) E0).
  pose (P := fun (c : vertex) (_ : store) =>
               edge_matched m0 E0 node c /\
               forall u v o, descends (_graph_in self) c u ->
                 In (u, v, o) (edges (_graph_in self)) ->
                 edge_matched m0 E0 u v).
  assert (Hloop : I s' /\ (forall c, In c succs -> P c s') /\
                  (forall b, P b s -> P b s')).
  2:{ destruct Hloop as (Hi' & Hall & _). split; [exact Hi'|].
      intros u v o Hdesc Hedge.
      inversion Hdesc as [|? c o1 ? Hfirst Hrest]; subst.
      - apply (Hall v). apply (successors_Ok _ _ _ Hsuccs). eauto.
      - apply (Hall c) with (o := o); [|assumption|assumption].
        apply (successors_Ok _ _ _ Hsuccs). eauto. }
  revert Hrun.
  apply (forM__each I P (fun c => c)); [|split; [reflexivity|apply incl_refl]].
  intros c t1 t2 _ Hi Hb.
  destruct Hi as [Ht1 Hsub1].
  apply bind_Ok in Hb. destruct Hb as (a & s3 & Ha & Hb).
  apply lift_Ok in Ha. destruct Ha as [Ha ->].
  apply bind_Ok in Hb. destruct Hb as (b & s3 & Hv & Hb).
  apply lift_Ok in Hv. destruct Hv as [Hv ->].
  apply dict_getitem_Ok in Ha, Hv.
  apply bind_Ok in Hb. destruct Hb as ([] & s3 & Hrm & Hb).
  apply graph_try_Ok in Hrm. destruct Hrm as (g' & Hrm & ->).
  apply remove_edge_Ok in Hrm. destruct Hrm as ([o' Ho'] & _ & Hsub').
  apply IH in Hb. destruct Hb as ([Ht2 Hsub2] & Hbelow). simpl in *.
  assert (Hsub3 : incl (edges g') E0).
  { intros e He. apply Hsub1, Hsub', He. }
  split; [|split].
  - split; [congruence|]. intros e He. apply Hsub3, Hsub2, He.
  - split.
    + exists a, b, o'. split; [assumption|]. split; [assumption|].
      apply Hsub1, Ho'.
    + intros u v o Hdesc Hedge.
      apply (edge_matched_incl _ _ _ _ _ Hsub3).
      rewrite <- Ht1. eapply Hbelow; eassumption.
  - intros b0 Hb0. exact Hb0.
Qed.

(** X14: [apply] completes only on a match that covers the input pattern
    below its first level: every pattern node visited by the removal of
    lines 128-129 and each of its successors have an image, and the target
    graph has an edge from the one image to the other. *)
Theorem apply_ok_match_covers self depth g m copy s r s' u v o :
  apply self depth g m copy s = (Ok r, s') ->
  visited self u -> In (u, v, o) (edges (_graph_in self)) ->
  edge_matched m (edges g) u v.
Proof.
  intros Hrun (n & o1 & Hfirst & Hdesc) Hedge. destruct copy; [discriminate|].
  unfold apply in Hrun.
  apply bind_Ok in Hrun. destruct Hrun as (gm & s1 & Hr & Hrun).
  apply ret_Ok in Hr. destruct Hr as [-> ->]. simpl in Hrun.
  apply bind_Ok in Hrun. destruct Hrun as ([] & s1 & Hs & Hrun).
  apply modify_Ok in Hs. subst s1.
  apply bind_Ok in Hrun. destruct Hrun as ([] & s1 & Hs & Hrun).
  apply modify_Ok in Hs. subst s1.
  apply bind_Ok in Hrun. destruct Hrun as (in_nodes & s1 & Hs & Hrun).
  apply lift_Ok in Hs. destruct Hs as [Hsuccs ->].
  apply bind_Ok in Hrun. destruct Hrun as ([] & s1 & Hphase1 & _).
  pose (I := fun t : store =>
               _cur_transform_dict t = m /\ incl (edges (_cur_graph t)) (edges g)).
  pose (P := fun (c : vertex) (_ : store) =>
               forall u v o, descends (_graph_in self) c u ->
                 In (u, v, o) (edges (_graph_in self)) ->
                 edge_matched m (edges g) u v).
  assert (Hloop : I s1 /\ (forall c, In c in_nodes -> P c s1) /\
                  (forall b, P b (set_cur_transform_dict m (set_cur_graph g s)) ->
                             P b s1)).
  2:{ destruct Hloop as (_ & Hall & _).
      apply (Hall n) with (o := o); [|assumption|assumption].
      apply (successors_Ok _ _ _ Hsuccs). eauto. }
  revert Hphase1.
  apply (forM__each I P (fun c => c)); [|split; [reflexivity|apply incl_refl]].
  intros c t1 t2 _ Hi Hb.
  destruct Hi as [Ht1 Hsub1].
  apply remove_mapped_edges_rec_matched in Hb.
  destruct Hb as ([Ht2 Hsub2] & Hbelow).
  split; [|split].
  - split; [congruence|]. intros e He. apply Hsub1, Hsub2, He.
  - intros a b o2 Hd He. rewrite <- Ht1.
    apply (edge_matched_incl _ _ _ _ _ Hsub1). eapply Hbelow; eassumption.
  - intros b0 Hb0. exact Hb0.
Qed.

Lemma apply_ok_match_covers_witness :
  edge_matched [(Node 1 "f", Node 10 "F"); (Node 2 "a", Node 11 "x")]
    (edges nested_target) (Node 1 "f") (Node 2 "a").
Proof.
  eapply (apply_ok_match_covers rename_rule 50 nested_target
           [(Node 1 "f", Node 10 "F"); (Node 2 "a", Node 11 "x")] false
           (fresh_store 100) None _ (Node 1 "f") (Node 2 "a") 0%Z).
  - reflexivity.
  - exists (Node 1 "f"), 0%Z. split; [simpl; auto | constructor].
  - simpl. auto.
Defined.

(** ** Where the nodes and edges of the result come from *)

Section Origin.
Variable N : nat.
Variable g0 : DiGraph.

Lemma known_made v : made N v -> known N g0 v.
Proof. unfold known. auto. Qed.

Lemma known_root : known N g0 root_node.
Proof. unfold known. auto. Qed.

Lemma grown_from_start : grown_from N g0 g0.
Proof.
  split.
  - intros v Hv. left. exact Hv.
  - intros e He. split; [|split].
    + right. left. exists e. auto.
    + right. left. exists e. auto.
    + right. right. exists e. auto.
Qed.

(** Taking nodes and edges away, or renumbering edges, keeps the graph grown
    from [g0]. *)
Lemma grown_from_shrink g g' :
  incl (nodes g') (nodes g) ->
  (forall e', In e' (edges g') ->
     exists e, In e (edges g) /\ esrc e = esrc e' /\ etgt e = etgt e') ->
  grown_from N g0 g -> grown_from N g0 g'.
Proof.
  intros Hn He [Hnodes Hedges]. split.
  - intros v Hv. apply Hnodes, Hn, Hv.
  - intros e' He'. destruct (He e' He') as (e & Hin & Hs & Ht).
    destruct (Hedges e Hin) as (H1 & H2 & H3).
    rewrite <- Hs, <- Ht. split; [assumption|]. split; [assumption|].
    destruct H3 as [H3|[H3|(e0 & H0 & H0s & H0t)]]; auto.
    right. right. exists e0. split; [assumption|]. split; congruence.
Qed.

Lemma grown_from_add_edge u w o g :
  known N g0 u -> known N g0 w -> made N u \/ made N w ->
  grown_from N g0 g -> grown_from N g0 (add_edge u w o g).
Proof.
  intros Hu Hw Hnew [Hnodes Hedges]. split.
  - intros v Hv. unfold add_edge in Hv. simpl in Hv.
    assert (Hin : forall h n x, In x (nodes (add_node h n)) ->
                                In x (nodes h) \/ x = n).
    { intros h n x. unfold add_node. destruct (has_node h n); simpl; [auto|].
      intros Hx. apply in_app_or in Hx. destruct Hx as [Hx|[<-|[]]]; auto. }
    apply Hin in Hv. destruct Hv as [Hv| ->]; [|assumption].
    apply Hin in Hv. destruct Hv as [Hv| ->]; [auto|assumption].
  - intros e He. unfold add_edge in He. simpl in He.
    apply set_edge_In in He. destruct He as [->|He]; [|auto].
    unfold esrc, etgt. simpl. split; [assumption|]. split; [assumption|].
    destruct Hnew; auto.
Qed.

Lemma grown_from_shift_orders p c d g :
  grown_from N g0 g -> grown_from N g0 (shift_orders p c d g).
Proof.
  apply grown_from_shrink.
  - unfold shift_orders. simpl. apply incl_refl.
  - intros e' He'. unfold shift_orders in He'. simpl in He'.
    apply in_map_iff in He'. destruct He' as (e & <- & He).
    exists e. split; [assumption|].
    destruct (eqb (esrc e) p && (c <? eord e)%Z); auto.
Qed.

Lemma grown_from_remove_edge u w g g' :
  remove_edge u w g = Ok g' -> grown_from N g0 g -> grown_from N g0 g'.
Proof.
  intros Hrm. apply remove_edge_Ok in Hrm. destruct Hrm as (_ & Hn & He).
  apply grown_from_shrink.
  - rewrite Hn. apply incl_refl.
  - intros e' He'. exists e'. auto.
Qed.

Lemma grown_from_remove_node x g g' :
  remove_node x g = Ok g' -> grown_from N g0 g -> grown_from N g0 g'.
Proof.
  intros Hrm. apply grown_from_shrink.
  - unfold remove_node in Hrm. destruct (has_node g x); [|discriminate].
    injection Hrm as <-. simpl. intros v Hv. apply filter_In in Hv. tauto.
  - intros e' He'. exists e'. split; [|auto].
    apply (remove_node_edges x g g' e' Hrm) in He'. tauto.
Qed.

Lemma grown_from_add_copies pre c i_nodes : forall g,
  known N g0 pre -> (forall x, In x i_nodes -> made N (snd x)) ->
  grown_from N g0 g -> grown_from N g0 (add_copies pre c i_nodes g).
Proof.
  unfold add_copies. induction i_nodes as [|x r IH]; simpl; intros g Hp Hall Hg;
    [assumption|].
  apply IH; [assumption | auto |].
  apply grown_from_add_edge; auto using known_made.
Qed.

Lemma copy_output_node_made self node s s' c :
  during N g0 s -> _copy_output_node self node s = (Ok c, s') ->
  during N g0 s' /\ made N c.
Proof.
  intros (Hid & Hg & Hc) Hrun. unfold _copy_output_node in Hrun.
  destruct (dict_get (reverse_node_dict self) node) as [in_node|].
  - apply bind_Ok in Hrun. destruct Hrun as (tr & s1 & Hgt & Hrun).
    apply gets_Ok in Hgt. destruct Hgt as [-> ->].
    apply bind_Ok in Hrun. destruct Hrun as (t & s1 & Hl & Hrun).
    apply lift_Ok in Hl. destruct Hl as [_ ->].
    apply bind_Ok in Hrun. destruct Hrun as (v & s1 & Hl & Hrun).
    apply lift_Ok in Hl. destruct Hl as [_ ->].
    apply bind_Ok in Hrun. destruct Hrun as (nc & s1 & Hnew & Hrun).
    unfold new_Node in Hnew. injection Hnew as <- <-.
    apply bind_Ok in Hrun. destruct Hrun as ([] & s2 & Happ & Hrun).
    unfold cur_node_dict_append in Happ. apply modify_Ok in Happ. subst s2.
    apply ret_Ok in Hrun. destruct Hrun as [-> ->].
    assert (Hnew : made N (Node (next_id s) v)) by (exists (next_id s), v; auto).
    split; [|assumption]. split; [simpl; lia|]. split; [exact Hg|].
    intros k l c Hk Hin. simpl in Hk. rewrite dict_get_set in Hk.
    destruct (eq_dec k in_node) as [->|Hne].
    + injection Hk as <-. apply in_app_or in Hin.
      destruct Hin as [Hin|[<-|[]]]; [|assumption].
      destruct (dict_get (_cur_node_dict s) in_node) as [l0|] eqn:Hl0;
        [|contradiction].
      eapply Hc; eassumption.
    + eapply Hc; eassumption.
  - apply bind_Ok in Hrun. destruct Hrun as (v & s1 & Hl & Hrun).
    apply lift_Ok in Hl. destruct Hl as [_ ->].
    unfold new_Node in Hrun. injection Hrun as <- <-.
    split; [|exists (next_id s), v; auto].
    split; [simpl; lia|]. split; assumption.
Qed.

Lemma add_output_graph_rec_made self depth : forall n c s s' u,
  made N c -> during N g0 s ->
  _add_output_graph_rec self depth n c s = (Ok u, s') -> during N g0 s'.
Proof.
  induction depth as [|d IH]; intros n c s s' u Hc Hs Hrun; simpl in Hrun;
    [discriminate|].
  apply bind_Ok in Hrun. destruct Hrun as (succs & s1 & Hsu & Hrun).
  apply lift_Ok in Hsu. destruct Hsu as [_ ->].
  revert Hrun. apply (forM__inv (during N g0)); [|assumption].
  intros x s1 s2 _ Hi Hb.
  apply bind_Ok in Hb. destruct Hb as (nc & s3 & Hcopy & Hb).
  apply copy_output_node_made in Hcopy; [|assumption].
  destruct Hcopy as [(Hid3 & Hg3 & Hc3) Hnc].
  apply bind_Ok in Hb. destruct Hb as (o & s4 & Ho & Hb).
  apply lift_Ok in Ho. destruct Ho as [_ ->].
  apply bind_Ok in Hb. destruct Hb as ([] & s4 & Hadd & Hb).
  apply graph_do_Ok in Hadd. subst s4.
  eapply IH; [exact Hnc| |exact Hb].
  split; [exact Hid3|]. split; [|exact Hc3]. simpl.
  apply grown_from_add_edge; auto using known_made.
Qed.

Lemma add_output_graph_made self depth s s' u :
  N <= next_id s -> grown_from N g0 (_cur_graph s) ->
  _add_output_graph self depth s = (Ok u, s') -> during N g0 s'.
Proof.
  intros Hid Hg Hrun. unfold _add_output_graph in Hrun.
  apply bind_Ok in Hrun. destruct Hrun as ([] & s1 & Hmod & Hrun).
  apply modify_Ok in Hmod. subst s1.
  apply bind_Ok in Hrun. destruct Hrun as (succs & s1 & Hsu & Hrun).
  apply lift_Ok in Hsu. destruct Hsu as [_ ->].
  revert Hrun. apply (forM__inv (during N g0)).
  - intros x s1 s2 _ Hi Hb.
    apply bind_Ok in Hb. destruct Hb as (nc & s3 & Hcopy & Hb).
    apply copy_output_node_made in Hcopy; [|assumption].
    destruct Hcopy as [(Hid3 & Hg3 & Hc3) Hnc].
    apply bind_Ok in Hb. destruct Hb as ([] & s4 & Hadd & Hb).
    eapply add_output_graph_rec_made; [exact Hnc| |exact Hb].
    destruct (dict_mem (reverse_node_dict self) x).
    + apply ret_Ok in Hadd. destruct Hadd as [_ ->].
      split; [exact Hid3|]. split; assumption.
    + apply graph_do_Ok in Hadd. subst s4.
      split; [exact Hid3|]. split; [|exact Hc3]. simpl.
      apply grown_from_add_edge; auto using known_made, known_root.
  - split; [exact Hid|]. split; [exact Hg|]. intros k l c Hk. discriminate.
Qed.

Lemma apply_graph_node_grown rtd cnd x s s' u :
  copies_made N cnd -> grown_from N g0 (_cur_graph s) ->
  apply_graph_node rtd cnd x s = (Ok u, s') ->
  grown_from N g0 (_cur_graph s').
Proof.
  intros Hcnd Hg Hrun. unfold apply_graph_node in Hrun.
  assert (Hdel : forall t w t', grown_from N g0 (_cur_graph t) ->
             graph_try (remove_node x) t = (Ok w, t') ->
             grown_from N g0 (_cur_graph t')).
  { intros t w t' Ht Hrm. apply graph_try_Ok in Hrm.
    destruct Hrm as (g & Hrm & ->). simpl.
    eapply grown_from_remove_node; eauto. }
  destruct (dict_get cnd x) as [out_nodes|] eqn:Hout.
  - assert (Hmade : forall c, In c out_nodes -> made N c).
    { intros c Hc. eapply Hcnd; eassumption. }
    apply bind_Ok in Hrun. destruct Hrun as (preds & s1 & Hp & Hrun).
    apply graph_get_Ok in Hp. destruct Hp as [Hpreds ->].
    assert (Hpk : forall p, In p preds -> known N g0 p).
    { intros p Hp. unfold predecessors in Hpreds.
      destruct (has_node (_cur_graph s) x); [|discriminate].
      injection Hpreds as <-. apply in_map_iff in Hp.
      destruct Hp as (e & <- & He). unfold in_edges in He.
      apply filter_In in He. destruct Hg as [_ He']. apply He'. tauto. }
    apply bind_Ok in Hrun. destruct Hrun as ([] & s1 & Hloop & Hrun).
    assert (H1 : grown_from N g0 (_cur_graph s1)).
    { revert Hloop.
      apply (forM__inv (fun t => grown_from N g0 (_cur_graph t)));
        [|assumption].
      intros p t1 t2 Hp Hi Hb. apply reattach_pred_run in Hb.
      destruct Hb as [[_ ->]|(_ & c & _ & ->)]; [assumption|].
      simpl. apply grown_from_add_copies; [auto | |].
      - intros i_node Hin. apply Hmade. eapply enumerate_snd. exact Hin.
      - apply grown_from_shift_orders, Hi. }
    apply bind_Ok in Hrun. destruct Hrun as (succs & s2 & Hs & Hrun).
    apply graph_get_Ok in Hs. destruct Hs as [Hsuccs ->].
    assert (Hsk : forall q, In q succs -> known N g0 q).
    { intros q Hq. unfold successors in Hsuccs.
      destruct (has_node (_cur_graph s1) x); [|discriminate].
      injection Hsuccs as <-. apply in_map_iff in Hq.
      destruct Hq as (e & <- & He). unfold out_edges in He.
      apply filter_In in He. destruct H1 as [_ He']. apply He'. tauto. }
    apply bind_Ok in Hrun. destruct Hrun as ([] & s2 & Hloop2 & Hrun).
    assert (H2 : grown_from N g0 (_cur_graph s2)).
    { revert Hloop2.
      apply (forM__inv (fun t => grown_from N g0 (_cur_graph t)));
        [|assumption].
      intros q t1 t2 Hq Hi Hb. unfold reattach_suc in Hb.
      destruct (dict_mem rtd q).
      - apply ret_Ok in Hb. destruct Hb as [_ ->]. assumption.
      - revert Hb.
        apply (forM__inv (fun t => grown_from N g0 (_cur_graph t)));
          [|assumption].
        intros v r1 r2 Hv Hjr Hc.
        apply bind_Ok in Hc. destruct Hc as (o & r3 & Ho & Hc).
        apply graph_get_Ok in Ho. destruct Ho as [_ ->].
        apply graph_do_Ok in Hc. subst r2. simpl.
        apply grown_from_add_edge; auto using known_made. }
    eauto.
  - unfold collect_orphan in Hrun.
    apply bind_Ok in Hrun. destruct Hrun as (g & s1 & Hgt & Hrun).
    apply gets_Ok in Hgt. destruct Hgt as [-> ->].
    apply bind_Ok in Hrun. destruct Hrun as (no_out & s1 & Hd & Hrun).
    apply lift_Ok in Hd. destruct Hd as [_ ->].
    destruct no_out.
    + apply bind_Ok in Hrun. destruct Hrun as (no_in & s1 & Hd & Hrun).
      apply lift_Ok in Hd. destruct Hd as [_ ->].
      destruct no_in; [eauto|].
      apply bind_Ok in Hrun. destruct Hrun as (preds & s1 & Hp & Hrun).
      apply lift_Ok in Hp. destruct Hp as [_ ->].
      destruct (mem root_node preds); [eauto|].
      apply ret_Ok in Hrun. destruct Hrun as [_ ->]. assumption.
    + apply ret_Ok in Hrun. destruct Hrun as [_ ->]. assumption.
Qed.

Lemma remove_mapped_edges_rec_grown self depth : forall node s s' u,
  grown_from N g0 (_cur_graph s) ->
  _remove_mapped_edges_rec self depth node s = (Ok u, s') ->
  grown_from N g0 (_cur_graph s') /\ next_id s' = next_id s.
Proof.
  induction depth as [|d IH]; intros node s s' u Hg Hrun; simpl in Hrun;
    [discriminate|].
  apply bind_Ok in Hrun. destruct Hrun as (tr & s1 & Hgt & Hrun).
  apply gets_Ok in Hgt. destruct Hgt as [-> ->].
  apply bind_Ok in Hrun. destruct Hrun as (succs & s1 & Hs & Hrun).
  apply lift_Ok in Hs. destruct Hs as [_ ->].
  revert Hrun.
  apply (forM__inv (fun t => grown_from N g0 (_cur_graph t) /\
                             next_id t = next_id s)); [|auto].
  intros x s1 s2 _ [Hi Hn] Hb.
  apply bind_Ok in Hb. destruct Hb as (a & s3 & Ha & Hb).
  apply lift_Ok in Ha. destruct Ha as [_ ->].
  apply bind_Ok in Hb. destruct Hb as (b & s3 & Hv & Hb).
  apply lift_Ok in Hv. destruct Hv as [_ ->].
  apply bind_Ok in Hb. destruct Hb as ([] & s3 & Hrm & Hb).
  apply graph_try_Ok in Hrm. destruct Hrm as (g & Hrm & ->).
  apply IH in Hb.
  - destruct Hb as [Hb1 Hb2]. split; [assumption|]. simpl in Hb2. congruence.
  - simpl. eapply grown_from_remove_edge; eassumption.
Qed.

End Origin.

(** Every graph of a completed run is grown from the graph given. *)
Lemma apply_grown self depth g m copy s r s' :
  apply self depth g m copy s = (Ok r, s') ->
  grown_from (next_id s) g (_cur_graph s').
Proof.
  intros Hrun. destruct copy; [discriminate|].
  unfold apply in Hrun.
  apply bind_Ok in Hrun. destruct Hrun as (gm & s1 & Hr & Hrun).
  apply ret_Ok in Hr. destruct Hr as [-> ->]. simpl in Hrun.
  apply bind_Ok in Hrun. destruct Hrun as ([] & s1 & Hs & Hrun).
  apply modify_Ok in Hs. subst s1.
  apply bind_Ok in Hrun. destruct Hrun as ([] & s1 & Hs & Hrun).
  apply modify_Ok in Hs. subst s1.
  apply bind_Ok in Hrun. destruct Hrun as (in_nodes & s1 & Hs & Hrun).
  apply lift_Ok in Hs. destruct Hs as [_ ->].
  apply bind_Ok in Hrun. destruct Hrun as ([] & s1 & Hphase1 & Hrun).
  assert (H1 : grown_from (next_id s) g (_cur_graph s1) /\
               next_id s1 = next_id s).
  { revert Hphase1.
    apply (forM__inv (fun t => grown_from (next_id s) g (_cur_graph t) /\
                               next_id t = next_id s)).
    - intros x t1 t2 _ [Hi Hn] Hb.
      apply (remove_mapped_edges_rec_grown (next_id s) g) in Hb;
        [|assumption].
      destruct Hb as [Hb1 Hb2]. split; [assumption | congruence].
    - split; [apply grown_from_start | reflexivity]. }
  destruct H1 as [H1 Hn1].
  apply bind_Ok in Hrun. destruct Hrun as ([] & s2 & Hphase2 & Hrun).
  apply (add_output_graph_made (next_id s) g) in Hphase2;
    [|lia|assumption].
  destruct Hphase2 as (_ & H2 & Hc2).
  apply bind_Ok in Hrun. destruct Hrun as (cnd & s3 & Hg & Hrun).
  apply gets_Ok in Hg. destruct Hg as [-> ->].
  apply bind_Ok in Hrun. destruct Hrun as ([] & s3 & Hphase3 & Hrun).
  apply ret_Ok in Hrun. destruct Hrun as [_ ->].
  revert Hphase3.
  apply (forM__inv (fun t => grown_from (next_id s) g (_cur_graph t)));
    [|assumption].
  intros x t1 t2 _ Hi Hb.
  eapply apply_graph_node_grown; [exact Hc2|exact Hi|exact Hb].
Qed.

(** X15: [apply] brings no pattern node into the target graph.  On a graph
    whose edges join nodes of the graph, every node of the graph a completed
    call leaves is a node of the graph given, the sentinel, or a node object
    created during the call. *)
Theorem apply_nodes_origin self depth g m copy s r s' v :
  endpoints_are_nodes g ->
  apply self depth g m copy s = (Ok r, s') ->
  In v (nodes (_cur_graph s')) ->
  In v (nodes g) \/ v = root_node \/ made (next_id s) v.
Proof.
  intros Hwf Hrun Hv. apply apply_grown in Hrun. destruct Hrun as [Hnodes _].
  destruct (Hnodes v Hv) as [H|[(e & He & Hend)|[H|H]]]; auto.
  left. destruct (Hwf e He) as [H1 H2]. destruct Hend as [<-|<-]; assumption.
Qed.

Lemma apply_nodes_origin_witness :
  In (Node 101 "x") (nodes call_target) \/ Node 101 "x" = root_node \/
  made (next_id (fresh_store 100)) (Node 101 "x").
Proof.
  eapply (apply_nodes_origin pair_rule 50 call_target
            [(Node 1 "a", Node 10 "x")] false (fresh_store 100) None).
  - intros e He. simpl in He.
    destruct He as [<-|[<-|[]]]; simpl; auto.
  - reflexivity.
  - simpl. auto 10.
Defined.

(** X16: [apply] creates no edge between two nodes that were there before.
    Every edge of the graph a completed call leaves has an end created during
    the call, or joins two nodes the graph given had an edge between (the
    order may differ). *)
Theorem apply_edges_origin self depth g m copy s r s' u v o :
  apply self depth g m copy s = (Ok r, s') ->
  In (u, v, o) (edges (_cur_graph s')) ->
  made (next_id s) u \/ made (next_id s) v \/
  exists o', In (u, v, o') (edges g).
Proof.
  intros Hrun He. apply apply_grown in Hrun. destruct Hrun as [_ Hedges].
  destruct (Hedges (u, v, o) He) as (_ & _ & [H|[H|H]]); auto.
  right. right. destruct H as ([[a b] o'] & H0 & Hs & Ht).
  unfold esrc, etgt in Hs, Ht. simpl in Hs, Ht. subst. eauto.
Qed.

Lemma apply_edges_origin_witness :
  made (next_id (fresh_store 100)) (Node 11 "G") \/
  made (next_id (fresh_store 100)) (Node 10 "x") \/
  exists o', In (Node 11 "G", Node 10 "x", o') (edges call_target).
Proof.
  eapply (apply_edges_origin pair_rule 50 call_target
            [(Node 1 "a", Node 10 "x")] false (fresh_store 100) None _
            (Node 11 "G") (Node 10 "x") 0%Z).
  - reflexivity.
  - simpl. auto.
Defined.

(** ** The matched structure is taken out *)

Lemma no_edge_incl g g' a b :
  incl (edges g') (edges g) -> no_edge g a b -> no_edge g' a b.
Proof. intros Hsub Hno o Hin. apply (Hno o), Hsub, Hin. Qed.

Lemma remove_edge_no_edge u v g g' :
  remove_edge u v g = Ok g' -> no_edge g' u v.
Proof.
  unfold remove_edge. destruct (get_edge_data g u v); [|discriminate].
  intros [= <-] o Hin. simpl in Hin. apply filter_In in Hin.
  destruct Hin as [_ Htest]. unfold esrc, etgt in Htest. simpl in Htest.
  now rewrite !eqb_refl in Htest.
Qed.

Lemma allocated_not_made N v : allocated N v -> ~ made N v.
Proof.
  intros Ha (i & val & -> & Hle). simpl in Ha. lia.
Qed.

(** A call of [_remove_mapped_edges_rec] that returns has taken out, for
    every pattern edge below its argument, the edge between the images of
    its ends. *)
Lemma remove_mapped_edges_rec_removed self depth : forall node s s' w,
  _remove_mapped_edges_rec self depth node s = (Ok w, s') ->
  (_cur_transform_dict s' = _cur_transform_dict s /\
   next_id s' = next_id s /\
   incl (edges (_cur_graph s')) (edges (_cur_graph s))) /\
  forall u v o mu mv, descends (_graph_in self) node u ->
    In (u, v, o) (edges (_graph_in self)) ->
    dict_get (_cur_transform_dict s) u = Some mu ->
    dict_get (_cur_transform_dict s) v = Some mv ->
    no_edge (_cur_graph s') mu mv.
Proof.
  induction depth as [|d IH]; intros node s s' w Hrun; simpl in Hrun;
    [discriminate|].
  apply bind_Ok in Hrun. destruct Hrun as (tr & s1 & Hg & Hrun).
  apply gets_Ok in Hg. destruct Hg as [-> ->].
  apply bind_Ok in Hrun. destruct Hrun as (succs & s1 & Hs & Hrun).
  apply lift_Ok in Hs. destruct Hs as [Hsuccs ->].
  set (m0 := _cur_transform_dict s) in *.
  pose (I := fun t : store =>
               _cur_transform_dict t = m0 /\ next_id t = next_id s /\
               incl (edges (_cur_graph t)) (edges (_cur_graph s))).
  pose (P := fun (c : vertex) (t : store) =>
               (forall mu mv, dict_get m0 node = Some mu ->
                  dict_get m0 c = Some mv -> no_edge (_cur_graph t) mu mv) /\
               forall u v o mu mv, descends (_graph_in self) c u ->
                 In (u, v, o) (edges (_graph_in self)) ->
                 dict_get m0 u = Some mu -> dict_get m0 v = Some mv ->
                 no_edge (_cur_graph t) mu mv).
  assert (Hloop : I s' /\ (forall c, In c succs -> P c s') /\
                  (forall b, P b s -> P b s')).
  2:{ destruct Hloop as (Hi' & Hall & _). split; [exact Hi'|].
      intros u v o mu mv Hdesc Hedge Hmu Hmv.
      inversion Hdesc as [|? c o1 ? Hfirst Hrest]; subst.
      - apply (Hall v); [|assumption|assumption].
        apply (successors_Ok _ _ _ Hsuccs). eauto.
      - apply (Hall c) with (u := u) (v := v) (o := o); try assumption.
        apply (successors_Ok _ _ _ Hsuccs). eauto. }
  revert Hrun.
  apply (forM__each I P (fun c => c));
    [|split; [reflexivity|split; [reflexivity|apply incl_refl]]].
  intros c t1 t2 _ (Ht1 & Hn1 & Hsub1) Hb.
  apply bind_Ok in Hb. destruct Hb as (a & s3 & Ha & Hb).
  apply lift_Ok in Ha. destruct Ha as [Ha ->].
  apply bind_Ok in Hb. destruct Hb as (b & s3 & Hv & Hb).
  apply lift_Ok in Hv. destruct Hv as [Hv ->].
  apply dict_getitem_Ok in Ha, Hv.
  apply bind_Ok in Hb. destruct Hb as ([] & s3 & Hrm & Hb).
  apply graph_try_Ok in Hrm. destruct Hrm as (g' & Hrm & ->).
  pose proof (remove_edge_no_edge _ _ _ _ Hrm) as Hgone.
  apply remove_edge_Ok in Hrm. destruct Hrm as (_ & _ & Hsub').
  apply IH in Hb. destruct Hb as ((Ht2 & Hn2 & Hsub2) & Hbelow). simpl in *.
  assert (Hsub3 : incl (edges (_cur_graph t2)) (edges (_cur_graph t1))).
  { intros e He. apply Hsub', Hsub2, He. }
  split; [|split].
  - split; [congruence|]. split; [congruence|].
    intros e He. apply Hsub1, Hsub3, He.
  - split.
    + intros mu mv Hmu Hmv. rewrite Ha in Hmu. rewrite Hv in Hmv.
      injection Hmu as <-. injection Hmv as <-.
      apply (no_edge_incl g'); assumption.
    + intros u v o mu mv Hdesc Hedge Hmu Hmv.
      rewrite <- Ht1 in Hmu, Hmv. eapply Hbelow; eassumption.
  - intros b0 [Hb1 Hb2]. split.
    + intros mu mv Hmu Hmv. eapply no_edge_incl; [exact Hsub3|]. auto.
    + intros u v o mu mv Hdesc Hedge Hmu Hmv.
      eapply no_edge_incl; [exact Hsub3|]. eapply Hb2; eassumption.
Qed.

(** X17: [apply] takes the matched structure out of the graph.  After a
    call that completes, for every pattern node reached by the removal of
    lines 128-129 and each of its successors, the graph has no edge from the
    image of the one to the image of the other, the images being nodes that
    existed before the call. *)
Theorem apply_removes_matched_edges self depth g m copy s r s' u v o mu mv :
  apply self depth g m copy s = (Ok r, s') ->
  visited self u -> In (u, v, o) (edges (_graph_in self)) ->
  dict_get m u = Some mu -> dict_get m v = Some mv ->
  allocated (next_id s) mu -> allocated (next_id s) mv ->
  no_edge (_cur_graph s') mu mv.
Proof.
  intros Hrun (n & o1 & Hfirst & Hdesc) Hedge Hmu Hmv Hau Hav.
  destruct copy; [discriminate|].
  unfold apply in Hrun.
  apply bind_Ok in Hrun. destruct Hrun as (gm & s1 & Hr & Hrun).
  apply ret_Ok in Hr. destruct Hr as [-> ->]. simpl in Hrun.
  apply bind_Ok in Hrun. destruct Hrun as ([] & s1 & Hs & Hrun).
  apply modify_Ok in Hs. subst s1.
  apply bind_Ok in Hrun. destruct Hrun as ([] & s1 & Hs & Hrun).
  apply modify_Ok in Hs. subst s1.
  apply bind_Ok in Hrun. destruct Hrun as (in_nodes & s1 & Hs & Hrun).
  apply lift_Ok in Hs. destruct Hs as [Hsuccs ->].
  apply bind_Ok in Hrun. destruct Hrun as ([] & s1 & Hphase1 & Hrun).
  pose (I := fun t : store =>
               _cur_transform_dict t = m /\ next_id t = next_id s).
  pose (P := fun (c : vertex) (t : store) =>
               forall a b o2 ma mb, descends (_graph_in self) c a ->
                 In (a, b, o2) (edges (_graph_in self)) ->
                 dict_get m a = Some ma -> dict_get m b = Some mb ->
                 no_edge (_cur_graph t) ma mb).
  assert (Hloop : I s1 /\ (forall c, In c in_nodes -> P c s1) /\
                  (forall b, P b (set_cur_transform_dict m (set_cur_graph g s)) ->
                             P b s1)).
  { revert Hphase1.
    apply (forM__each I P (fun c => c)); [|split; reflexivity].
    intros c t1 t2 _ [Ht1 Hn1] Hb.
    apply remove_mapped_edges_rec_removed in Hb.
    destruct Hb as ((Ht2 & Hn2 & Hsub2) & Hbelow).
    split; [|split].
    - split; congruence.
    - intros a b o2 ma mb Hd He Ha Hb. rewrite <- Ht1 in Ha, Hb.
      eapply Hbelow; eassumption.
    - intros b0 Hb0 a b o2 ma mb Hd He Ha Hb.
      eapply no_edge_incl; [exact Hsub2|]. eapply Hb0; eassumption. }
  destruct Hloop as ([_ Hn1] & Hall & _).
  assert (Hgone : no_edge (_cur_graph s1) mu mv).
  { apply (Hall n) with (a := u) (b := v) (o2 := o); try assumption.
    apply (successors_Ok _ _ _ Hsuccs). eauto. }
  apply bind_Ok in Hrun. destruct Hrun as ([] & s2 & Hphase2 & Hrun).
  apply (add_output_graph_made (next_id s) (_cur_graph s1)) in Hphase2;
    [|lia|apply grown_from_start].
  destruct Hphase2 as (_ & H2 & Hc2).
  apply bind_Ok in Hrun. destruct Hrun as (cnd & s3 & Hg & Hrun).
  apply gets_Ok in Hg. destruct Hg as [-> ->].
  apply bind_Ok in Hrun. destruct Hrun as ([] & s3 & Hphase3 & Hrun).
  apply ret_Ok in Hrun. destruct Hrun as [_ ->].
  assert (H3 : grown_from (next_id s) (_cur_graph s1) (_cur_graph s3)).
  { revert Hphase3.
    apply (forM__inv (fun t => grown_from (next_id s) (_cur_graph s1)
                                 (_cur_graph t))); [|assumption].
    intros x t1 t2 _ Hi Hb.
    eapply apply_graph_node_grown; [exact Hc2|exact Hi|exact Hb]. }
  intros o' Hin. destruct H3 as [_ Hedges].
  destruct (Hedges _ Hin) as (_ & _ & [Hm|[Hm|Hm]]).
  - unfold esrc in Hm. simpl in Hm. now apply (allocated_not_made _ _ Hau).
  - unfold etgt in Hm. simpl in Hm. now apply (allocated_not_made _ _ Hav).
  - destruct Hm as ([[a b] o0] & H0 & Hs0 & Ht0).
    unfold esrc, etgt in Hs0, Ht0. simpl in Hs0, Ht0. subst.
    exact (Hgone o0 H0).
Qed.

Lemma apply_removes_matched_edges_witness :
  exists s',
    apply rename_rule 50 nested_target
      [(Node 1 "f", Node 10 "F"); (Node 2 "a", Node 11 "x")] false
      (fresh_store 100) = (Ok None, s') /\
    In (Node 10 "F", Node 11 "x", 0%Z) (edges nested_target) /\
    no_edge (_cur_graph s') (Node 10 "F") (Node 11 "x").
Proof.
  eexists. split; [reflexivity|]. split; [simpl; auto|].
  eapply (apply_removes_matched_edges rename_rule 50 nested_target
            [(Node 1 "f", Node 10 "F"); (Node 2 "a", Node 11 "x")] false
            (fresh_store 100) None _ (Node 1 "f") (Node 2 "a") 0%Z).
  - reflexivity.
  - exists (Node 1 "f"), 0%Z. split; [simpl; auto | constructor].
  - simpl. auto.
  - reflexivity.
  - reflexivity.
  - simpl. lia.
  - simpl. lia.
Defined.

(** * The failures of [apply] and the exception kinds *)

Lemma rootless_built_init :
  Rule_init rootless_in rootless_out = Ok rootless_built.
Proof. reflexivity. Qed.

Lemma headless_built_init :
  Rule_init (mkParserObj (_graph_in drop_rule) (_obj_in drop_rule))
    headless_out = Ok headless_built.
Proof. reflexivity. Qed.

Lemma not_Ok_raises_other {A} (c : M A) (s : store) :
  no_BadGraph c -> (forall r s', c s <> (Ok r, s')) -> raises_other c s.
Proof.
  intros Hnb Hno. destruct (c s) as [[r|e] s'] eqn:Hrun.
  - exfalso. apply (Hno r s'). reflexivity.
  - exists e, s'. split; [exact Hrun|]. intros ->. apply (Hnb s s'). exact Hrun.
Qed.

(** A call that completes has found the sentinel in the output pattern
    graph (line 102). *)
Lemma apply_needs_output_root self depth g m copy s r s' :
  apply self depth g m copy s = (Ok r, s') ->
  has_node (_graph_out self) root_node = true.
Proof.
  intros Hrun. destruct copy; [discriminate|].
  unfold apply in Hrun.
  apply bind_Ok in Hrun. destruct Hrun as (gm & s1 & _ & Hrun).
  apply bind_Ok in Hrun. destruct Hrun as ([] & s2 & _ & Hrun).
  apply bind_Ok in Hrun. destruct Hrun as ([] & s3 & _ & Hrun).
  apply bind_Ok in Hrun. destruct Hrun as (in_nodes & s4 & _ & Hrun).
  apply bind_Ok in Hrun. destruct Hrun as ([] & s5 & _ & Hrun).
  apply bind_Ok in Hrun. destruct Hrun as ([] & s6 & Hphase2 & _).
  unfold _add_output_graph in Hphase2.
  apply bind_Ok in Hphase2. destruct Hphase2 as ([] & s7 & _ & Hphase2).
  apply bind_Ok in Hphase2. destruct Hphase2 as (succs & s8 & Hs & _).
  apply lift_Ok in Hs. destruct Hs as [Hs _]. unfold successors in Hs.
  destruct (has_node (_graph_out self) root_node); [reflexivity|discriminate].
Qed.

(** A visit of the last loop that completes was on a node of the graph, when
    the visited vertex is a node object: [predecessors] (line 140) and
    [out_degree] (line 157) raise otherwise. *)
Lemma visit_needs_node rtd cnd i v s s' u :
  apply_graph_node rtd cnd (Node i v) s = (Ok u, s') ->
  In (Node i v) (nodes (_cur_graph s)).
Proof.
  intros Hrun. apply has_node_In. unfold apply_graph_node in Hrun.
  destruct (dict_get cnd (Node i v)) as [out_nodes|].
  - apply bind_Ok in Hrun. destruct Hrun as (preds & s1 & Hp & _).
    apply graph_get_Ok in Hp. destruct Hp as [Hp _].
    unfold predecessors in Hp.
    destruct (has_node (_cur_graph s) (Node i v)); [reflexivity|discriminate].
  - unfold collect_orphan in Hrun.
    apply bind_Ok in Hrun. destruct Hrun as (g & s1 & Hg & Hrun).
    apply gets_Ok in Hg. destruct Hg as [-> ->].
    apply bind_Ok in Hrun. destruct Hrun as (no_out & s1 & Hd & _).
    apply lift_Ok in Hd. destruct Hd as [Hd _].
    unfold out_degree_is_0 in Hd.
    destruct (has_node (_cur_graph s) (Node i v)); [reflexivity|discriminate].
Qed.

(** A call that completes on a graph whose edges join its nodes had every
    node object the match maps to among the nodes of the graph. *)
Lemma apply_needs_images self depth g m copy s r s' i v :
  apply self depth g m copy s = (Ok r, s') ->
  endpoints_are_nodes g -> image m (Node i v) -> i < next_id s ->
  In (Node i v) (nodes g).
Proof.
  intros Hrun Hwf Himg Hold. destruct copy; [discriminate|].
  unfold apply in Hrun.
  apply bind_Ok in Hrun. destruct Hrun as (gm & s1 & Hr & Hrun).
  apply ret_Ok in Hr. destruct Hr as [-> ->]. simpl in Hrun.
  apply bind_Ok in Hrun. destruct Hrun as ([] & s1 & Hs & Hrun).
  apply modify_Ok in Hs. subst s1.
  apply bind_Ok in Hrun. destruct Hrun as ([] & s1 & Hs & Hrun).
  apply modify_Ok in Hs. subst s1.
  apply bind_Ok in Hrun. destruct Hrun as (in_nodes & s1 & Hs & Hrun).
  apply lift_Ok in Hs. destruct Hs as [_ ->].
  apply bind_Ok in Hrun. destruct Hrun as ([] & s1 & Hphase1 & Hrun).
  assert (H1 : grown_from (next_id s) g (_cur_graph s1) /\
               next_id s1 = next_id s).
  { revert Hphase1.
    apply (forM__inv (fun t => grown_from (next_id s) g (_cur_graph t) /\
                               next_id t = next_id s)).
    - intros x t1 t2 _ [Hi Hn] Hb.
      apply (remove_mapped_edges_rec_grown (next_id s) g) in Hb;
        [|assumption].
      destruct Hb as [Hb1 Hb2]. split; [assumption | congruence].
    - split; [apply grown_from_start | reflexivity]. }
  destruct H1 as [H1 Hn1].
  apply bind_Ok in Hrun. destruct Hrun as ([] & s2 & Hphase2 & Hrun).
  apply (add_output_graph_made (next_id s) g) in Hphase2;
    [|lia|assumption].
  destruct Hphase2 as (_ & H2 & Hc2).
  apply bind_Ok in Hrun. destruct Hrun as (cnd & s3 & Hg & Hrun).
  apply gets_Ok in Hg. destruct Hg as [-> ->].
  apply bind_Ok in Hrun. destruct Hrun as ([] & s3 & Hphase3 & _).
  pose (I := fun t : store => grown_from (next_id s) g (_cur_graph t)).
  pose (P := fun (b : vertex) (_ : store) =>
               forall j w, b = Node j w -> j < next_id s -> In b (nodes g)).
  assert (Hloop : I s3 /\
                  (forall x, In x (dict_keys (reverse_dict m)) -> P x s3) /\
                  (forall b, P b s2 -> P b s3)).
  { revert Hphase3. apply (forM__each I P (fun x => x)); [|exact H2].
    intros x t1 t2 _ Hi Hb. split; [|split].
    - eapply apply_graph_node_grown; [exact Hc2|exact Hi|exact Hb].
    - intros j w -> Hj. apply visit_needs_node in Hb.
      destruct Hi as [Hnodes _].
      destruct (Hnodes _ Hb) as [Hin|[(e & He & Hend)|[Hroot|Hmade]]].
      + exact Hin.
      + destruct (Hwf e He) as [Hsrc Htgt].
        destruct Hend as [<-|<-]; assumption.
      + discriminate.
      + destruct Hmade as (j' & w' & [= <- <-] & Hle). lia.
    - intros b Hb0. exact Hb0. }
  destruct Hloop as (_ & Hall & _).
  apply (Hall (Node i v)) with (j := i) (w := v); [|reflexivity|assumption].
  unfold reverse_dict. apply reverse_fold_keys. right. exact Himg.
Qed.

(** C3 (as amended): [BadGraph] is declared and never raised.  A failed
    correspondence building surfaces as a KeyError or an AttributeError of
    the Python runtime.  No call of [apply] raises [BadGraph], whatever the
    graphs and the match: in place, a rule whose input pattern graph has no
    root sentinel raises NetworkXError with the graph as it was passed; a
    rule whose output pattern graph has none, and a match to a node object
    that is no node of the target graph (a graph whose edges join its nodes,
    a node object that existed before the call), make the call fail with an
    exception other than [BadGraph]; a target graph without the sentinel is
    not rejected, and a call on one can complete. *)
Theorem BadGraph_never_raised :
  (forall pin pout e,
     Rule_init pin pout = Raise e -> e = AttributeError \/ e = KeyError) /\
  (forall self depth g m copy, no_BadGraph (apply self depth g m copy)) /\
  (forall self depth g m s,
     has_node (_graph_in self) root_node = false ->
     exists s',
       apply self depth g m false s = (Raise NetworkXError, s') /\
       _cur_graph s' = g) /\
  (forall self depth g m s,
     has_node (_graph_out self) root_node = false ->
     raises_other (apply self depth g m false) s) /\
  (forall self depth g m s i v,
     endpoints_are_nodes g -> image m (Node i v) -> i < next_id s ->
     ~ In (Node i v) (nodes g) ->
     raises_other (apply self depth g m false) s) /\
  (has_node lone_target root_node = false /\
   exists s',
     apply drop_rule 50 lone_target [(Node 1 "a", Node 10 "x")] false
       (fresh_store 100) = (Ok None, s')).
Proof.
  split; [exact Rule_init_raises|]. split; [exact nb_apply|].
  split; [|split; [|split]].
  - intros self depth g m s Hroot.
    exists (mkStore g m (_cur_node_dict s) (next_id s)).
    split; [|reflexivity].
    unfold apply, bind, ret, modify, lift, successors. simpl.
    now rewrite Hroot.
  - intros self depth g m s Hroot.
    apply not_Ok_raises_other; [apply nb_apply|].
    intros r s' Hrun. apply apply_needs_output_root in Hrun. congruence.
  - intros self depth g m s i v Hwf Himg Hold Habsent.
    apply not_Ok_raises_other; [apply nb_apply|].
    intros r s' Hrun. apply Habsent.
    eapply apply_needs_images; eassumption.
  - split; [reflexivity|]. eexists. reflexivity.
Qed.

(** C3, the amended statement on inputs: a pattern pair whose shared payload
    no input node carries; the rule built from [rootless_in], whose input
    pattern has no sentinel; the rule built from [headless_out], whose output
    pattern has none; a match of [a -> h()] to a node object that is not in
    the graph. *)
Lemma BadGraph_never_raised_witness :
  (exists e,
     Rule_init hollow_in hollow_out = Raise e /\
     (e = AttributeError \/ e = KeyError)) /\
  (exists s',
     apply rootless_built 50 prefix_target [(Node 2 "b", Node 10 "hello")]
       false (fresh_store 100) = (Raise NetworkXError, s') /\
     _cur_graph s' = prefix_target) /\
  raises_other
    (apply headless_built 50 shared_target [(Node 1 "a", Node 10 "x")] false)
    (fresh_store 100) /\
  raises_other
    (apply drop_rule 50 shared_target [(Node 1 "a", Node 99 "z")] false)
    (fresh_store 100).
Proof.
  destruct BadGraph_never_raised as (Hinit & _ & Hin & Hout & Habsent & _).
  split; [|split; [|split]].
  - exists KeyError. split; [reflexivity|].
    apply (Hinit hollow_in hollow_out). reflexivity.
  - apply Hin. reflexivity.
  - apply Hout. reflexivity.
  - apply (Habsent drop_rule 50 shared_target [(Node 1 "a", Node 99 "z")]
             (fresh_store 100) 99 "z"%string).
    + intros e He. simpl in He.
      destruct He as [<-|[<-|[<-|[]]]]; simpl; auto.
    + exists (Node 1 "a"). simpl. auto.
    + simpl. lia.
    + simpl. intuition discriminate.
Defined.

(** C3, counterexample: construction from a pattern pair whose shared payload
    no input node carries fails with KeyError; [apply] with a match that
    names a node absent from the target, and [apply] of the rule built from
    a pattern pair whose input graph has no root sentinel, fail with
    NetworkXError; [apply] on a target graph without the sentinel raises
    nothing. *)
Lemma failure_is_BadGraph_counterexample :
  ~ init_failure_is_BadGraph hollow_in hollow_out /\
  ~ apply_failure_is_BadGraph rename_rule 50 nested_target
      [(Node 1 "f", Node 10 "F"); (Node 2 "a", Node 99 "z")] (fresh_store 100) /\
  (Rule_init rootless_in rootless_out = Ok rootless_built /\
   ~ apply_failure_is_BadGraph rootless_built 50 prefix_target
       [(Node 2 "b", Node 10 "hello")] (fresh_store 100)) /\
  (has_node lone_target root_node = false /\
   forall e s',
     apply drop_rule 50 lone_target [(Node 1 "a", Node 10 "x")] false
       (fresh_store 100) <> (Raise e, s')).
Proof.
  split; [|split; [|split]].
  - intros Hb. specialize (Hb KeyError eq_refl). discriminate.
  - intros Hb. specialize (Hb NetworkXError _ eq_refl). discriminate.
  - split; [reflexivity|].
    intros Hb. specialize (Hb NetworkXError _ eq_refl). discriminate.
  - split; [reflexivity|]. intros e s'. discriminate.
Qed.

(** * Reattachment in runs of [apply] *)

(** The key looked up at line 137 is a node of the target graph, and the keys
    written at line 85 are input-pattern nodes: after [_add_output_graph], a
    vertex that no output node corresponds to is no key of
    [_cur_node_dict]. *)
Lemma add_output_graph_keys self depth s s' u x :
  _add_output_graph self depth s = (Ok u, s') ->
  (forall out, dict_get (reverse_node_dict self) out <> Some x) ->
  dict_get (_cur_node_dict s') x = None.
Proof.
  intros Hrun Hno. unfold _add_output_graph in Hrun.
  apply bind_Ok in Hrun. destruct Hrun as ([] & s1 & Hmod & Hrun).
  apply modify_Ok in Hmod. subst s1.
  apply bind_Ok in Hrun. destruct Hrun as (succs & s1 & Hs & Hrun).
  apply lift_Ok in Hs. destruct Hs as [_ ->].
  assert (Hboth : recorded_copies self (next_id s) s' /\ next_id s <= next_id s').
  { revert Hrun.
    apply (forM__inv (fun t => recorded_copies self (next_id s) t /\
                               next_id s <= next_id t)).
    - intros y s1 s2 _ [Hi1 Hi2] Hb.
      apply bind_Ok in Hb. destruct Hb as (nc & s3 & Hcopy & Hb).
      apply (copy_output_node_records self (next_id s)) in Hcopy;
        [|assumption|assumption].
      destruct Hcopy as [Hr3 Hn3].
      apply bind_Ok in Hb. destruct Hb as ([] & s4 & Hadd & Hb).
      eapply add_output_graph_rec_records; [| |exact Hb];
        destruct (dict_mem (reverse_node_dict self) y);
        (apply ret_Ok in Hadd; destruct Hadd as [_ ->]; assumption) ||
        (apply graph_do_Ok in Hadd; subst s4; assumption).
    - split; [|simpl; lia]. intros k l Hk. discriminate. }
  destruct Hboth as [Hrec _].
  destruct (dict_get (_cur_node_dict s') x) as [l|] eqn:Hx; [|reflexivity].
  destruct (Hrec x l Hx) as ([out Hout] & _). exfalso. exact (Hno out Hout).
Qed.

